(** * hot-takes: ranked boards, snapshots, cloud merge and the social write guard

    A shallow embedding of the consistency core of the application:
    - [Board], [Card], [RankingEntry], [Snapshot]: the entities (lib/types);
    - [FirestoreBoards]: the local/cloud merge of boards (lib/firestoreBoards);
    - [Storage]: the keyed local store with the rank manager and the
      snapshot engine (lib/storage, hooks/useCards);
    - [SinglesInfernoS5]: the seed loader (data/singlesInfernoS5);
    - [Js]: the effects of the asynchronous Firestore code (awaited calls
      that may reject, try/catch, the clock);
    - [RateLimiting]: lib/rateLimiting.ts;
    - [FirestoreFriendships]: lib/firestoreFriendships.ts;
    - [Scenario], [Worlds]: concrete stores and worlds;
    - [Blocking], [UseReports], [FriendRequestQuota], [DeviceToken]: the
      other social services;
    - [WordBank]: the join codes of lib/wordBank.ts, in the arithmetic of
      the doubles ([Rounding], over the Standard Library's [SpecFloat]).

    Definitions come first, module by module; the theorems follow. *)

From Stdlib Require Import Ascii SpecFloat.
From stdpp Require Import gmap strings list fin_maps sorting pretty.

(* ===================================================================== *)
(** ** Entities (lib/types)                                               *)
(* ===================================================================== *)

(** [Board] as the application writes it (see [mockBoard] in the board
    service tests and the seed loader): timestamps are milliseconds and
    [None] is JavaScript's [null]. *)
Module Board.
Record t := mk {
  id : string;
  name : string;
  coverImage : option string;
  createdAt : Z;
  updatedAt : Z;
  deletedAt : option Z;
}.
End Board.
Abbreviation Board := Board.t.

#[global] Instance Board_eq_dec : EqDecision Board.
Proof. solve_decision. Defined.

(* ===================================================================== *)
(** ** The merge of boards (lib/firestoreBoards)                          *)
(* ===================================================================== *)

Module FirestoreBoards.

(** Modelled from the spec: [mergeBoards] of lib/firestoreBoards, whose
    body is not among the sources (only its tests are). Section 4.3:
    local absent gives the remote copy, remote absent gives the local
    copy, both present gives the local copy; [updatedAt] is not read. *)
Definition mergeBoards (local cloud : option Board) : option Board :=
  match local, cloud with
  | None, _ => cloud
  | Some l, None => Some l
  | Some l, Some _ => Some l
  end.

(** The entity a list holds at an id: the first one carrying it. *)
Definition boardAt (i : string) (l : list Board) : option Board :=
  snd <$> list_find (λ b, Board.id b = i) l.

(** The ids of the union, each once, in order of first appearance. *)
Definition unionIds (localBoards cloudBoards : list Board) : list string :=
  remove_dups ((Board.id <$> localBoards) ++ (Board.id <$> cloudBoards)).

(** Modelled from the spec: [mergeBoardLists] of lib/firestoreBoards
    (body not among the sources). Section 4.3: take the union of the
    ids of both lists and merge, id by id, the local and the remote
    entity found at that id. *)
Definition mergeBoardLists (localBoards cloudBoards : list Board) : list Board :=
  omap (λ i, mergeBoards (boardAt i localBoards) (boardAt i cloudBoards))
       (unionIds localBoards cloudBoards).

(** The ids of a list as a finite set. *)
Definition idSet (l : list Board) : gset string :=
  list_to_set (Board.id <$> l).

End FirestoreBoards.

(* ===================================================================== *)
(** ** Cards, ranking entries and snapshots (lib/types)                   *)
(* ===================================================================== *)

(** A value of the open [metadata] map ([{ gender: 'female', season: 5 }]). *)
Inductive MetaValue :=
  | MStr (s : string)
  | MNum (n : Z).

#[global] Instance MetaValue_eq_dec : EqDecision MetaValue.
Proof. solve_decision. Defined.

(** [Card] with the fields of the card literals of the seed loader.
    [imageCrop] is an object of numbers or [null]; [rank] is a position
    counted from 1. [deletedAt] is modelled from the spec (section 3 and
    4.1: the mark set by softDelete); the cards of the sources do not
    carry it, which is [None] here. *)
Module Card.
Record t := mk {
  id : string;
  boardId : string;
  name : string;
  nickname : string;
  imageKey : option string;
  thumbnailKey : option string;
  imageCrop : option (gmap string Z);
  notes : string;
  metadata : gmap string MetaValue;
  rank : nat;
  createdAt : Z;
  updatedAt : Z;
  deletedAt : option Z;
}.

Definition withRank (r : nat) (c : t) : t :=
  mk (id c) (boardId c) (name c) (nickname c) (imageKey c) (thumbnailKey c)
     (imageCrop c) (notes c) (metadata c) r (createdAt c) (updatedAt c)
     (deletedAt c).

Definition withUpdatedAt (now : Z) (c : t) : t :=
  mk (id c) (boardId c) (name c) (nickname c) (imageKey c) (thumbnailKey c)
     (imageCrop c) (notes c) (metadata c) (rank c) (createdAt c) now
     (deletedAt c).

Definition withName (n : string) (c : t) : t :=
  mk (id c) (boardId c) n (nickname c) (imageKey c) (thumbnailKey c)
     (imageCrop c) (notes c) (metadata c) (rank c) (createdAt c) (updatedAt c)
     (deletedAt c).

Definition withDeletedAt (d : option Z) (c : t) : t :=
  mk (id c) (boardId c) (name c) (nickname c) (imageKey c) (thumbnailKey c)
     (imageCrop c) (notes c) (metadata c) (rank c) (createdAt c) (updatedAt c)
     d.
End Card.
Abbreviation Card := Card.t.

#[global] Instance Card_eq_dec : EqDecision Card.
Proof. solve_decision. Defined.

Module RankingEntry.
Record t := mk {
  cardId : string;
  cardName : string;
  rank : nat;
  thumbnailKey : option string;
}.
End RankingEntry.
Abbreviation RankingEntry := RankingEntry.t.

#[global] Instance RankingEntry_eq_dec : EqDecision RankingEntry.
Proof. solve_decision. Defined.

Module Snapshot.
Record t := mk {
  id : string;
  boardId : string;
  episodeNumber : nat;
  label : string;
  notes : string;
  rankings : list RankingEntry;
  createdAt : Z;
}.
End Snapshot.
Abbreviation Snapshot := Snapshot.t.

#[global] Instance Snapshot_eq_dec : EqDecision Snapshot.
Proof. solve_decision. Defined.

(* ===================================================================== *)
(** ** The local store, the rank manager and the snapshot engine          *)
(* ===================================================================== *)

Module Storage.

(** Modelled from the spec: the Entity Store of lib/storage (not among the
    sources; the seed loader calls its saveBoard, saveCard, getBoard,
    getCardsByBoard, saveSnapshot and getSnapshotsByBoard). Section 2: one
    keyed persistent mapping per entity kind with get, put, delete and
    list-by-predicate. The key of an entity is its id. *)
Record Store := mkStore {
  boards : gmap string Board;
  cards : gmap string Card;
  snapshots : gmap string Snapshot;
}.

Definition emptyStore : Store := mkStore ∅ ∅ ∅.

Definition setCards (m : gmap string Card) (st : Store) : Store :=
  mkStore (boards st) m (snapshots st).

Definition saveBoard (b : Board) (st : Store) : Store :=
  mkStore (<[Board.id b := b]> (boards st)) (cards st) (snapshots st).

Definition saveCard (c : Card) (st : Store) : Store :=
  setCards (<[Card.id c := c]> (cards st)) st.

Definition deleteCard (cardId : string) (st : Store) : Store :=
  setCards (delete cardId (cards st)) st.

Definition saveSnapshot (s : Snapshot) (st : Store) : Store :=
  mkStore (boards st) (cards st) (<[Snapshot.id s := s]> (snapshots st)).

Definition deleteSnapshot (snapshotId : string) (st : Store) : Store :=
  mkStore (boards st) (cards st) (delete snapshotId (snapshots st)).

Definition getBoard (boardId : string) (st : Store) : option Board :=
  boards st !! boardId.

Definition getSnapshot (snapshotId : string) (st : Store) : option Snapshot :=
  snapshots st !! snapshotId.

(** A card counts for the ranking of board [b] when it belongs to [b] and
    is not soft-deleted. *)
Definition isActive (b : string) (c : Card) : Prop :=
  Card.boardId c = b ∧ Card.deletedAt c = None.

#[global] Instance isActive_dec b c : Decision (isActive b c).
Proof. unfold isActive. apply _. Defined.

Definition byRank : relation (string * Card) :=
  λ x y, Card.rank x.2 ≤ Card.rank y.2.

#[global] Instance byRank_dec x y : Decision (byRank x y).
Proof. unfold byRank. apply _. Defined.

(** The ordered, non-deleted card list of a board: ascending rank. Each
    card comes with the key it is stored under. *)
Definition activeCards (b : string) (st : Store) : list (string * Card) :=
  merge_sort byRank
    (filter (λ kc, isActive b kc.2) (map_to_list (cards st))).

(** Modelled from the spec: [getCardsByBoard] of lib/storage, as section
    4.2 reads the cards of a board: the non-deleted ones by ascending rank. *)
Definition getCardsByBoard (b : string) (st : Store) : list Card :=
  (activeCards b st).*2.

Definition activeRanks (b : string) (st : Store) : list nat :=
  Card.rank <$> getCardsByBoard b st.

(** The same ranks read straight off the map, in no particular order. *)
Definition ranksIn (b : string) (m : gmap string Card) : list nat :=
  (λ kc, Card.rank kc.2) <$> filter (λ kc, isActive b kc.2) (map_to_list m).

(** The ranks a single stored card contributes to board [b]. *)
Definition rankOf (b : string) (c : Card) : list nat :=
  if decide (isActive b c) then [Card.rank c] else [].

(** Modelled from the spec: [getSnapshotsByBoard] of lib/storage, a
    list-by-predicate on the board id. *)
Definition getSnapshotsByBoard (b : string) (st : Store) : list Snapshot :=
  filter (λ s, Snapshot.boardId s = b) (map_to_list (snapshots st)).*2.

(** The invariant of section 3: the ranks of the non-deleted cards of the
    board, read in ascending order, are 1, 2, ..., N with N their count. *)
Definition dense (b : string) (st : Store) : Prop :=
  activeRanks b st = seq 1 (length (activeCards b st)).

#[global] Instance dense_dec b st : Decision (dense b st).
Proof. unfold dense. apply _. Defined.

(** The error taxonomy of section 7, as far as this store raises it. *)
Inductive Error :=
  | ValidationError
  | NotFoundError
  | OutOfRangeError.

(** *** Rank manager *)

Definition currentMax (b : string) (st : Store) : nat :=
  max_list (activeRanks b st).

(** Modelled from the spec: append of the rank manager (hooks/useCards and
    lib/storage are not among the sources). Section 4.1: the card gets
    [rank = currentMax(boardId) + 1]; ValidationError when the board does
    not exist. The card comes with its id and is put under it, whatever
    the store holds there. *)
Definition append (c : Card) (st : Store) : Error + Store :=
  match boards st !! Card.boardId c with
  | None => inl ValidationError
  | Some _ =>
      inr (saveCard (Card.withRank (S (currentMax (Card.boardId c) st)) c) st)
  end.

(** Array move: [splice(from, 1)] then [splice(to, 0, x)]. *)
Definition moveItem {A} (from to : nat) (l : list A) : list A :=
  match l !! from with
  | Some x => let rest := delete from l in take to rest ++ x :: drop to rest
  | None => l
  end.

(** Rewrite of one card: an affected card gets its new rank and a new
    [updatedAt]; a card already at that rank is left as it is. *)
Definition rerank (now : Z) (r : nat) (c : Card) : Card :=
  if decide (Card.rank c = r) then c
  else Card.withUpdatedAt now (Card.withRank r c).

(** Ranks [n+1, n+2, ...] written to the cards stored under [keys], in
    list order. *)
Fixpoint renumberFrom (now : Z) (n : nat) (keys : list string)
    (m : gmap string Card) : gmap string Card :=
  match keys with
  | [] => m
  | k :: ks => renumberFrom now (S n) ks (alter (rerank now (S n)) k m)
  end.

(** Modelled from the spec: reorder of the rank manager. Section 4.1: over
    the non-deleted cards of the board in ascending rank; OutOfRangeError
    unless [0 <= fromIndex, toIndex < N] and the card at [fromIndex] has
    id [cardId]; the card is removed from [fromIndex], put back at
    [toIndex], and ranks 1..N are derived again from the new order. *)
Definition reorder (b cardId : string) (fromIndex toIndex now : Z)
    (st : Store) : Error + Store :=
  let l := activeCards b st in
  let N := Z.of_nat (length l) in
  if decide ((0 ≤ fromIndex < N)%Z ∧ (0 ≤ toIndex < N)%Z) then
    match l !! Z.to_nat fromIndex with
    | Some (k, _) =>
        if decide (k = cardId) then
          let order := moveItem (Z.to_nat fromIndex) (Z.to_nat toIndex) l in
          inr (setCards (renumberFrom now 0 order.*1 (cards st)) st)
        else inl OutOfRangeError
    | None => inl OutOfRangeError
    end
  else inl OutOfRangeError.

(** A surviving card of board [b] ranked below the deleted one moves up. *)
Definition shiftDown (b : string) (r : nat) (c : Card) : Card :=
  if decide (isActive b c ∧ r < Card.rank c)
  then Card.withRank (Card.rank c - 1) c
  else c.

(** Modelled from the spec: softDelete of the rank manager. Section 4.1:
    sets [deletedAt]; every surviving card with a rank greater than the
    deleted card's prior rank is decremented by one. The cards concerned
    are those of the deleted card's board. Nothing is said of a card that
    is deleted already: it is treated like any other card. A card that is
    not in the store gives NotFoundError (section 7). *)
Definition softDelete (cardId : string) (now : Z) (st : Store) : Error + Store :=
  match cards st !! cardId with
  | Some c =>
      inr (setCards
             (<[cardId := Card.withDeletedAt (Some now) c]>
                (shiftDown (Card.boardId c) (Card.rank c) <$> cards st))
             st)
  | None => inl NotFoundError
  end.

(** Modelled from the spec: compact (section 4.1) recomputes ranks 1..N
    from the existing rank order of the non-deleted cards. *)
Definition compact (b : string) (now : Z) (st : Store) : Store :=
  setCards (renumberFrom now 0 (activeCards b st).*1 (cards st)) st.

(** The operations of the rank manager and their sequences. An operation
    that fails returns its error and leaves the store as it was. *)
Inductive Op :=
  | Append (c : Card)
  | Reorder (b cardId : string) (fromIndex toIndex now : Z)
  | SoftDelete (cardId : string) (now : Z).

Definition step (op : Op) (st : Store) : Error + Store :=
  match op with
  | Append c => append c st
  | Reorder b cardId fromIndex toIndex now =>
      reorder b cardId fromIndex toIndex now st
  | SoftDelete cardId now => softDelete cardId now st
  end.

Definition apply (op : Op) (st : Store) : Store :=
  match step op st with
  | inr st' => st'
  | inl _ => st
  end.

Definition run (ops : list Op) (st : Store) : Store :=
  foldl (λ s op, apply op s) st ops.

(** The operations the rank manager is made for: the append of a new
    card, whose id the store does not hold yet, and the softDelete of a
    card that is not deleted already. Any reorder is of this kind. *)
Definition expected (op : Op) (st : Store) : Prop :=
  match op with
  | Append c => cards st !! Card.id c = None
  | Reorder _ _ _ _ _ => True
  | SoftDelete cardId _ =>
      match cards st !! cardId with
      | Some c => Card.deletedAt c = None
      | None => True
      end
  end.

#[global] Instance expected_dec op st : Decision (expected op st).
Proof. destruct op; simpl; try apply _. case_match; apply _. Defined.

(** Every operation of the sequence is of this kind in the store it is
    run in. *)
Fixpoint allExpected (ops : list Op) (st : Store) : Prop :=
  match ops with
  | [] => True
  | op :: ops' => expected op st ∧ allExpected ops' (apply op st)
  end.

#[global] Instance allExpected_dec ops st : Decision (allExpected ops st).
Proof. revert st. induction ops as [|op ops IH]; intros st; simpl; apply _. Defined.

(** *** Snapshot engine *)

(** The entry of a card: its id, name, rank and thumbnail key, by value. *)
Definition entryOf (c : Card) : RankingEntry :=
  RankingEntry.mk (Card.id c) (Card.name c) (Card.rank c) (Card.thumbnailKey c).

(** Modelled from the spec: capture of the snapshot engine (section 4.2).
    Reads the non-deleted cards by rank, copies id, name, rank and
    thumbnailKey of each, numbers the episode [max(existing, 0) + 1],
    persists the snapshot and returns it; NotFoundError when the board does
    not resolve. The id of the snapshot is made up by the caller. *)
Definition capture (snapshotId b label notes : string) (now : Z) (st : Store)
    : Error + Snapshot * Store :=
  match boards st !! b with
  | None => inl NotFoundError
  | Some _ =>
      let episode :=
        S (max_list (Snapshot.episodeNumber <$> getSnapshotsByBoard b st)) in
      let s := Snapshot.mk snapshotId b episode label notes
                 (entryOf <$> getCardsByBoard b st) now in
      inr (s, saveSnapshot s st)
  end.

(** Later changes to cards: a rename (an edit of one field), the save of
    any new version of a card, the removal of a card, and the operations
    of the rank manager. *)
Inductive CardEdit :=
  | Rename (cardId newName : string) (now : Z)
  | Save (c : Card)
  | Remove (cardId : string)
  | Ranking (op : Op).

Definition applyEdit (e : CardEdit) (st : Store) : Store :=
  match e with
  | Rename cardId newName now =>
      setCards
        (alter (λ c, Card.withUpdatedAt now (Card.withName newName c))
               cardId (cards st)) st
  | Save c => saveCard c st
  | Remove cardId => deleteCard cardId st
  | Ranking op => apply op st
  end.

Definition runEdits (es : list CardEdit) (st : Store) : Store :=
  foldl (λ s e, applyEdit e s) st es.

End Storage.

(* ===================================================================== *)
(** ** The seed loader (data/singlesInfernoS5)                            *)
(* ===================================================================== *)

Module CastMember.
Inductive Gender := female | male.

(** The [imageUrl] of a cast member is kept for reference only in the
    source and read by nothing; it is left out here. *)
Record t := mk {
  id : string;
  name : string;
  notes : string;
  gender : Gender;
}.

Definition genderName (g : Gender) : string :=
  match g with female => "female" | male => "male" end.

Definition isFemale (m : t) : bool :=
  match gender m with female => true | male => false end.

Definition isMale (m : t) : bool :=
  match gender m with female => false | male => true end.
End CastMember.
Abbreviation CastMember := CastMember.t.

Module SinglesInfernoS5.
Import Storage.

Definition WOMEN_BOARD_ID : string := "singles-inferno-s5-women".
Definition MEN_BOARD_ID : string := "singles-inferno-s5-men".

Definition castMembers : list CastMember :=
  [ CastMember.mk "si5-park-hee-sun" "Park Hee Sun" "" CastMember.female;
    CastMember.mk "si5-kim-go-eun" "Kim Go Eun" "" CastMember.female;
    CastMember.mk "si5-ham-ye-jin" "Ham Ye Jin" "" CastMember.female;
    CastMember.mk "si5-kim-min-ji" "Kim Min Ji" "" CastMember.female;
    CastMember.mk "si5-lee-joo-young" "Lee Joo Young" "" CastMember.female;
    CastMember.mk "si5-choi-mina-sue" "Choi Mina Sue" "" CastMember.female;
    CastMember.mk "si5-youn-hyun-jae" "Youn Hyun Jae" "" CastMember.male;
    CastMember.mk "si5-song-seung-il" "Song Seung Il" "" CastMember.male;
    CastMember.mk "si5-shin-hyeon-woo" "Shin Hyeon Woo" "" CastMember.male;
    CastMember.mk "si5-kim-jae-jin" "Kim Jae Jin" "" CastMember.male;
    CastMember.mk "si5-woo-sung-min" "Woo Sung Min" "" CastMember.male;
    CastMember.mk "si5-lim-su-been" "Lim Su Been" "" CastMember.male;
    CastMember.mk "si5-lee-sung-hun" "Lee Sung Hun (Samuel Lee)" ""
      CastMember.male ].

Definition women : list CastMember := List.filter CastMember.isFemale castMembers.
Definition men : list CastMember := List.filter CastMember.isMale castMembers.

(** Step 3 of the loader: [imageKeyMap] holds [image-<id>] for every cast
    member whose placeholder could be drawn and stored; [failed] names the
    members for which that step threw. Drawing and storing images is
    outside this model. *)
Definition imageKeyMap (failed : gset string) : gmap string string :=
  list_to_map
    ((λ m, (CastMember.id m, "image-" +:+ CastMember.id m)) <$>
       List.filter (λ m, bool_decide (CastMember.id m ∉ failed)) castMembers).

(** The card literal of steps 4 and 5. *)
Definition seedCard (board : string) (now : Z) (keys : gmap string string)
    (i : nat) (member : CastMember) : Card :=
  let imageKey := keys !! CastMember.id member in
  Card.mk (CastMember.id member) board (CastMember.name member) ""
    imageKey imageKey None (CastMember.notes member)
    {[ "gender" := MStr (CastMember.genderName (CastMember.gender member));
       "season" := MNum 5 ]}
    (i + 1) now now None.

Definition saveCards (cs : list Card) (st : Store) : Store :=
  foldl (λ s c, saveCard c s) st cs.

(** [loadSinglesInfernoS5], its effect on the store: nothing when both
    boards exist; otherwise both boards are saved (the cover key is
    assigned before the poster is drawn, so it is set either way) and one
    card per cast member is saved with rank [i + 1] within its board. The
    progress callback and the result summary are left out. *)
Definition loadSinglesInfernoS5 (now : Z) (failed : gset string) (st : Store)
    : Store :=
  match getBoard WOMEN_BOARD_ID st, getBoard MEN_BOARD_ID st with
  | Some _, Some _ => st
  | _, _ =>
      let coverImageKey := Some ("poster-" +:+ WOMEN_BOARD_ID) in
      let womenBoard :=
        Board.mk WOMEN_BOARD_ID "Singles Inferno S5 Girls" coverImageKey
                 now now None in
      let menBoard :=
        Board.mk MEN_BOARD_ID "Singles Inferno S5 Boys" coverImageKey
                 now now None in
      let keys := imageKeyMap failed in
      saveCards (imap (seedCard MEN_BOARD_ID now keys) men)
        (saveCards (imap (seedCard WOMEN_BOARD_ID now keys) women)
           (saveBoard menBoard (saveBoard womenBoard st)))
  end.

Definition WOMEN_RANKINGS_BY_EPISODE : list (list string) :=
  [ ["si5-park-hee-sun"; "si5-kim-go-eun"; "si5-ham-ye-jin"; "si5-kim-min-ji";
     "si5-lee-joo-young"; "si5-choi-mina-sue"];
    ["si5-kim-go-eun"; "si5-park-hee-sun"; "si5-choi-mina-sue"; "si5-ham-ye-jin";
     "si5-kim-min-ji"; "si5-lee-joo-young"];
    ["si5-ham-ye-jin"; "si5-kim-go-eun"; "si5-park-hee-sun"; "si5-lee-joo-young";
     "si5-choi-mina-sue"; "si5-kim-min-ji"];
    ["si5-kim-go-eun"; "si5-ham-ye-jin"; "si5-lee-joo-young"; "si5-park-hee-sun";
     "si5-kim-min-ji"; "si5-choi-mina-sue"];
    ["si5-ham-ye-jin"; "si5-kim-go-eun"; "si5-park-hee-sun"; "si5-lee-joo-young";
     "si5-kim-min-ji"; "si5-choi-mina-sue"] ].

Definition MEN_RANKINGS_BY_EPISODE : list (list string) :=
  [ ["si5-youn-hyun-jae"; "si5-song-seung-il"; "si5-shin-hyeon-woo";
     "si5-kim-jae-jin"; "si5-woo-sung-min"; "si5-lim-su-been"; "si5-lee-sung-hun"];
    ["si5-song-seung-il"; "si5-youn-hyun-jae"; "si5-kim-jae-jin";
     "si5-shin-hyeon-woo"; "si5-lee-sung-hun"; "si5-woo-sung-min"; "si5-lim-su-been"];
    ["si5-kim-jae-jin"; "si5-song-seung-il"; "si5-youn-hyun-jae";
     "si5-lee-sung-hun"; "si5-shin-hyeon-woo"; "si5-lim-su-been"; "si5-woo-sung-min"];
    ["si5-song-seung-il"; "si5-kim-jae-jin"; "si5-lee-sung-hun";
     "si5-youn-hyun-jae"; "si5-shin-hyeon-woo"; "si5-woo-sung-min"; "si5-lim-su-been"];
    ["si5-kim-jae-jin"; "si5-song-seung-il"; "si5-youn-hyun-jae";
     "si5-lee-sung-hun"; "si5-shin-hyeon-woo"; "si5-lim-su-been"; "si5-woo-sung-min"] ].

Definition EPISODE_NOTES : list string :=
  [ "First impressions from the arrival episode";
    "Rankings after the first Paradise dates and pool party";
    "Big shake-up after the love triangle drama!";
    "Mid-season adjustments as relationships develop";
    "Final episode rankings before the finale" ].

(** [new Map(cards.map(c => [c.id, c]))]: a later card with the same id
    replaces an earlier one. *)
Definition cardMapOf (cs : list Card) : gmap string Card :=
  foldl (λ m c, <[Card.id c := c]> m) ∅ cs.

(** The [rankings] of one episode: for each id of the episode order, in
    turn, the card found in the map gives an entry with its id, its name,
    the position [index + 1] and its thumbnail key; an id with no card
    gives [null], and the nulls are filtered out. *)
Definition rankingsOf (cardMap : gmap string Card) (order : list string)
    : list RankingEntry :=
  omap (λ e, e)
    (imap (λ index cardId,
             match cardMap !! cardId with
             | None => None
             | Some card =>
                 Some (RankingEntry.mk (Card.id card) (Card.name card)
                         (index + 1) (Card.thumbnailKey card))
             end) order).

Definition WEEK_MS : Z := 7 * 24 * 60 * 60 * 1000.

(** The snapshot literal of one loop iteration; [tag] is "women" or
    "men" and [now] the clock reading of that iteration. *)
Definition episodeSnapshot (tag board : string) (cardMap : gmap string Card)
    (episodes : nat) (now : Z) (ep : nat) (order : list string) : Snapshot :=
  Snapshot.mk ("snapshot-" +:+ tag +:+ "-ep" +:+ pretty (ep + 1)) board (ep + 1)
    ("Episode " +:+ pretty (ep + 1))
    (match EPISODE_NOTES !! ep with
     | Some n => if decide (n = "") then "" else n
     | None => ""
     end)
    (rankingsOf cardMap order)
    (now - Z.of_nat (episodes - ep) * WEEK_MS).

Definition saveSnapshots (ss : list Snapshot) (st : Store) : Store :=
  foldl (λ s x, saveSnapshot x s) st ss.

Record LoadSnapshotsResult := mkLoadSnapshotsResult {
  success : bool;
  snapshotsCreated : nat;
  errors : list string;
}.

(** [loadSinglesInfernoS5Snapshots]: both boards must exist, no snapshot of
    either board may exist yet and both boards need cards; then one snapshot
    per episode is built from the cards as they are now and saved. [clock k]
    is the reading of the k-th loop iteration. *)
Definition loadSinglesInfernoS5Snapshots (clock : nat → Z) (st : Store)
    : LoadSnapshotsResult * Store :=
  match getBoard WOMEN_BOARD_ID st, getBoard MEN_BOARD_ID st with
  | Some _, Some _ =>
      if decide (0 < length (getSnapshotsByBoard WOMEN_BOARD_ID st) ∨
                 0 < length (getSnapshotsByBoard MEN_BOARD_ID st))
      then (mkLoadSnapshotsResult true 0
              ["Snapshots already exist for Singles Inferno S5 boards"], st)
      else
        let womenCards := getCardsByBoard WOMEN_BOARD_ID st in
        let menCards := getCardsByBoard MEN_BOARD_ID st in
        if decide (length womenCards = 0 ∨ length menCards = 0)
        then (mkLoadSnapshotsResult false 0
                ["No cards found for Singles Inferno S5 boards. Load the cast data first."],
              st)
        else
          let womenSnaps :=
            imap (λ ep, episodeSnapshot "women" WOMEN_BOARD_ID
                          (cardMapOf womenCards)
                          (length WOMEN_RANKINGS_BY_EPISODE) (clock ep) ep)
                 WOMEN_RANKINGS_BY_EPISODE in
          let menSnaps :=
            imap (λ ep, episodeSnapshot "men" MEN_BOARD_ID
                          (cardMapOf menCards)
                          (length MEN_RANKINGS_BY_EPISODE)
                          (clock (length WOMEN_RANKINGS_BY_EPISODE + ep)) ep)
                 MEN_RANKINGS_BY_EPISODE in
          (mkLoadSnapshotsResult true (length womenSnaps + length menSnaps) [],
           saveSnapshots menSnaps (saveSnapshots womenSnaps st))
  | _, _ =>
      (mkLoadSnapshotsResult false 0
         ["Singles Inferno S5 boards not found. Load the cast data first."], st)
  end.

End SinglesInfernoS5.

(* ===================================================================== *)
(** ** Asynchronous code against the remote store                         *)
(* ===================================================================== *)

(** The Firestore services are [async] functions: every [await] of a call
    to the remote side (opening the database, loading the client module,
    reading, writing) may reject, the rejection is thrown at the [await],
    and [try]/[catch] turns it into a value. A world carries the remote
    documents, the clock, and for each remote call still to come whether it
    will fail and with what. [console.error] is not modelled. *)
Module Js.

(** What [catch (error)] receives: an [Error] with its message, or any
    other thrown value. *)
Inductive Thrown :=
  | ErrorObject (message : string)
  | NotAnError.

(** [error instanceof Error ? error.message : fallback] *)
Definition messageOr (fallback : string) (error : Thrown) : string :=
  match error with
  | ErrorObject message => message
  | NotAnError => fallback
  end.

Record World (D : Type) := mkWorld {
  db : D;
  clock : Z;
  faults : list (option Thrown);
}.
Arguments mkWorld {D}.
Arguments db {D}.
Arguments clock {D}.
Arguments faults {D}.

(** A computation returns a value or throws, and leaves a world. *)
Definition Async (D A : Type) : Type := World D → (Thrown + A) * World D.

Definition ret {D A} (a : A) : Async D A := λ w, (inr a, w).

Definition bind {D A B} (m : Async D A) (k : A → Async D B) : Async D B :=
  λ w, match m w with
       | (inr a, w') => k a w'
       | (inl e, w') => (inl e, w')
       end.

Definition tryCatch {D A} (body : Async D A) (handler : Thrown → Async D A)
    : Async D A :=
  λ w, match body w with
       | (inr a, w') => (inr a, w')
       | (inl e, w') => handler e w'
       end.

(** One awaited remote call: it takes the next entry of the fault plan
    (none left means no fault); on a fault it throws and the documents stay
    as they are, otherwise [f] reads or changes the documents. *)
Definition remote {D A} (f : D → Z → A * D) : Async D A :=
  λ w, match faults w with
       | Some e :: rest => (inl e, mkWorld (db w) (clock w) rest)
       | None :: rest =>
           let '(a, d) := f (db w) (clock w) in (inr a, mkWorld d (clock w) rest)
       | [] =>
           let '(a, d) := f (db w) (clock w) in (inr a, mkWorld d (clock w) [])
       end.

(** [Date.now()] *)
Definition dateNow {D} : Async D Z := λ w, (inr (clock w), w).

(** [await getFirebaseDb()] and [await import('firebase/firestore')]: two
    remote calls that yield the handle and the client functions. *)
Definition getFirebaseDb {D} : Async D unit := remote (λ d _, (tt, d)).
Definition importFirestore {D} : Async D unit := remote (λ d _, (tt, d)).

(** The next [n] remote calls go through. *)
Definition quiet {D} (n : nat) (w : World D) : Prop :=
  Forall (λ f, f = None) (take n (faults w)).

#[global] Instance quiet_dec {D} n (w : World D) : Decision (quiet n w).
Proof. unfold quiet. apply _. Defined.

(** The world after [n] remote calls that left the documents [d]. *)
Definition after {D} (n : nat) (d : D) (w : World D) : World D :=
  mkWorld d (clock w) (drop n (faults w)).

End Js.

Notation "'await' x := m 'in' k" := (Js.bind m (λ x, k))
  (at level 10, x name, m at level 100, k at level 200).

(* ===================================================================== *)
(** ** Rate limiting (lib/rateLimiting.ts)                                *)
(* ===================================================================== *)

Module RateLimiting.
Import Js.

Definition ONE_DAY_MS : Z := 24 * 60 * 60 * 1000.

Record Limit := mkLimit { count : Z; windowMs : Z }.

Record RateLimits := mkRateLimits {
  friendRequests : Limit;
  reports : Limit;
  boards : Limit;
}.

Definition RATE_LIMITS : RateLimits :=
  mkRateLimits (mkLimit 20 ONE_DAY_MS) (mkLimit 10 ONE_DAY_MS)
               (mkLimit 50 ONE_DAY_MS).

Record RateLimitResult := mkResult {
  allowed : bool;
  remaining : Z;
  error : option string;
}.

#[global] Instance RateLimitResult_eq_dec : EqDecision RateLimitResult.
Proof. solve_decision. Defined.

(** A document as the limiter's query sees it: its string fields (the
    owner fields [requestedBy], [reporterId], [ownerId] among them) and its
    [createdAt] stamp in milliseconds, if it has one. *)
Record Doc := mkDoc {
  fields : gmap string string;
  createdAt : option Z;
}.

(** The remote database: the documents of each named collection. *)
Abbreviation Firestore := (gmap string (list Doc)).

(** [where(userIdField, '==', userId), where('createdAt', '>=', since)] *)
Definition matches (userId userIdField : string) (sinceMs : Z) (d : Doc) : bool :=
  bool_decide (fields d !! userIdField = Some userId) &&
  match createdAt d with
  | Some t => bool_decide (sinceMs ≤ t)%Z
  | None => false
  end.

Definition runQuery (collectionName userId userIdField : string) (sinceMs : Z)
    (d : Firestore) : list Doc :=
  List.filter (matches userId userIdField sinceMs)
    (default [] (d !! collectionName)).

(** The documents the user created in the window ending now. *)
Definition recent (collectionName userIdField userId : string) (l : Limit)
    (w : World Firestore) : Z :=
  Z.of_nat (length (runQuery collectionName userId userIdField
                      (clock w - windowMs l) (db w))).

Section WithConfig.
(** [USE_MOCK_AUTH] is exported by lib/firebase, which is not among the
    sources (the tests mock it as [true]); it is a parameter here. *)
Variable USE_MOCK_AUTH : bool.

Definition countDocumentsSince (collectionName userId userIdField : string)
    (sinceMs : Z) : Async Firestore Z :=
  if USE_MOCK_AUTH then ret 0%Z
  else
    tryCatch
      (await _ := getFirebaseDb in
       await _ := importFirestore in
       await snapshot :=
         remote (λ d _, (runQuery collectionName userId userIdField sinceMs d, d)) in
       ret (Z.of_nat (length snapshot)))
      (λ error, ret 0%Z).

(** [!userId] for [string | null]: [null] and the empty string. *)
Definition falsy (userId : option string) : bool :=
  match userId with
  | None => true
  | Some s => bool_decide (s = "")
  end.

Definition notSignedIn : RateLimitResult :=
  mkResult false 0 (Some "Not signed in").

(** The result literal shared by the three checks. *)
Definition verdict (l : Limit) (currentCount : Z) (message : string)
    : RateLimitResult :=
  let remaining := Z.max 0 (count l - currentCount) in
  let allowed := bool_decide (0 < remaining)%Z in
  mkResult allowed remaining (if allowed then None else Some message).

Definition friendRequestMessage (n : Z) : string :=
  "You can only send " +:+ pretty n +:+
  " friend requests per day. Please try again later.".

Definition reportMessage (n : Z) : string :=
  "You can only submit " +:+ pretty n +:+
  " reports per day. Please try again later.".

Definition boardMessage (n : Z) : string :=
  "You can only create " +:+ pretty n +:+
  " boards per day. Please try again later.".

Definition checkFriendRequestLimit (userId : option string)
    : Async Firestore RateLimitResult :=
  if falsy userId then ret notSignedIn
  else
    let uid := default "" userId in
    let l := friendRequests RATE_LIMITS in
    await now := dateNow in
    await currentCount :=
      countDocumentsSince "friendships" uid "requestedBy" (now - windowMs l) in
    ret (verdict l currentCount (friendRequestMessage (count l))).

Definition checkReportLimit (userId : option string)
    : Async Firestore RateLimitResult :=
  if falsy userId then ret notSignedIn
  else
    let uid := default "" userId in
    let l := reports RATE_LIMITS in
    await now := dateNow in
    await currentCount :=
      countDocumentsSince "reports" uid "reporterId" (now - windowMs l) in
    ret (verdict l currentCount (reportMessage (count l))).

Definition checkBoardCreationLimit (userId : option string)
    : Async Firestore RateLimitResult :=
  if falsy userId then ret notSignedIn
  else
    let uid := default "" userId in
    let l := boards RATE_LIMITS in
    await now := dateNow in
    await currentCount :=
      countDocumentsSince "boards" uid "ownerId" (now - windowMs l) in
    ret (verdict l currentCount (boardMessage (count l))).

End WithConfig.

(** The query of a check fails when one of its three remote calls does:
    opening the database, loading the client module, or reading. *)
Definition queryFails (w : World Firestore) : Prop := ¬ quiet 3 w.

#[global] Instance queryFails_dec w : Decision (queryFails w).
Proof. unfold queryFails. apply _. Defined.

(** A result that lets the action through with no error attached. *)
Definition normalSuccess (r : RateLimitResult) : Prop :=
  allowed r = true ∧ error r = None.

(** A result that reports a failure to the caller. *)
Definition errorResult (r : RateLimitResult) : Prop :=
  allowed r = false ∧ error r ≠ None.

(** What section 8 says of [checkReportLimit], for one configuration, user
    and world: the check returns, [remaining] is [max(0, 10 - count)] for
    the count of the user's reports in the trailing window, [allowed] is
    [remaining > 0], nine reports or fewer are let through, ten or more are
    refused with the message that names the ceiling. *)
Definition reportLimitSpec (mock : bool) (userId : option string)
    (w : World Firestore) : Prop :=
  ∃ r w',
    checkReportLimit mock userId w = (inr r, w') ∧
    let currentCount :=
      recent "reports" "reporterId" (default "" userId) (reports RATE_LIMITS) w in
    remaining r = Z.max 0 (10 - currentCount) ∧
    allowed r = bool_decide (0 < remaining r)%Z ∧
    ((currentCount ≤ 9)%Z → allowed r = true) ∧
    ((10 ≤ currentCount)%Z →
       allowed r = false ∧ error r = Some (reportMessage 10)).

(** What section 7 says of a check whose query failed: it returns (it does
    not throw) and what it returns is an error result. *)
Definition transientErrorSpec
    (check : option string → Async Firestore RateLimitResult)
    (userId : option string) (w : World Firestore) : Prop :=
  ∃ r w', check userId w = (inr r, w') ∧ errorResult r.

End RateLimiting.

(* ===================================================================== *)
(** ** Friendships (lib/firestoreFriendships.ts)                          *)
(* ===================================================================== *)

Module FirestoreFriendships.
Import Js.

(** A document of the [friendships] collection. [status] is the string
    stored ('pending' or 'active' for documents this service writes);
    [createdAt] and [acceptedAt] are server stamps in milliseconds. *)
Record Friendship := mkFriendship {
  id : string;
  users : string * string;
  status : string;
  requestedBy : string;
  createdAt : Z;
  acceptedAt : option Z;
}.

#[global] Instance Friendship_eq_dec : EqDecision Friendship.
Proof. solve_decision. Defined.

Record FriendshipResult := mkResult {
  success : bool;
  friendshipId : option string;
  error : option string;
}.

#[global] Instance FriendshipResult_eq_dec : EqDecision FriendshipResult.
Proof. solve_decision. Defined.

(** The [friendships] collection: documents by id. *)
Abbreviation Friendships := (gmap string Friendship).

(** Modelled from the spec: [sortUserIds] is imported from lib/socialTypes
    and its body is not among the sources. Section 3 and 4.4: the pair in
    lexicographic order. Strings compare character by character. *)
Definition sortUserIds (uid1 uid2 : string) : string * string :=
  if String.ltb uid1 uid2 then (uid1, uid2) else (uid2, uid1).

Definition generateFriendshipId (uid1 uid2 : string) : string :=
  let '(a, b) := sortUserIds uid1 uid2 in
  a +:+ "_" +:+ b.

(** [users.includes(uid)] on the two-element array. *)
Definition includes (us : string * string) (uid : string) : bool :=
  bool_decide (us.1 = uid) || bool_decide (us.2 = uid).

(** [getDoc]: the document, or none when [exists()] is false. *)
Definition getDoc (docId : string) : Async Friendships (option Friendship) :=
  remote (λ d _, (d !! docId, d)).

(** [setDoc] replaces the document. *)
Definition setDoc (docId : string) (make : Z → Friendship)
    : Async Friendships unit :=
  remote (λ d now, (tt, <[docId := make now]> d)).

(** [updateDoc] changes fields of the document that is there. The service
    rejects an update of a document that does not exist; both uses below
    come after [exists()] held, and a rejection for any reason is a fault
    of the call. *)
Definition updateDoc (docId : string) (change : Z → Friendship → Friendship)
    : Async Friendships unit :=
  remote (λ d now, (tt, alter (change now) docId d)).

(** [deleteDoc] removes the document; deleting a document that does not
    exist succeeds. *)
Definition deleteDoc (docId : string) : Async Friendships unit :=
  remote (λ d _, (tt, delete docId d)).

Definition failure (message : string) : FriendshipResult :=
  mkResult false None (Some message).

Definition succeeded (friendshipId : string) : FriendshipResult :=
  mkResult true (Some friendshipId) None.

(** The document [createFriendRequest] writes. *)
Definition pendingRequest (fromUid toUid : string) (now : Z) : Friendship :=
  mkFriendship (generateFriendshipId fromUid toUid) (sortUserIds fromUid toUid)
    "pending" fromUid now None.

(** [{ status: 'active', acceptedAt: serverTimestamp() }] *)
Definition activate (now : Z) (f : Friendship) : Friendship :=
  mkFriendship (id f) (users f) "active" (requestedBy f) (createdAt f)
    (Some now).

Section WithConfig.
(** [USE_MOCK_AUTH] of lib/firebase (not among the sources): a parameter. *)
Variable USE_MOCK_AUTH : bool.

Definition createFriendRequest (fromUid toUid : string)
    : Async Friendships FriendshipResult :=
  if decide (fromUid = toUid) then
    ret (failure "You can't send a friend request to yourself")
  else if USE_MOCK_AUTH then
    ret (succeeded (generateFriendshipId fromUid toUid))
  else
    tryCatch
      (await _ := getFirebaseDb in
       await _ := importFirestore in
       let friendshipId := generateFriendshipId fromUid toUid in
       await existingDoc := getDoc friendshipId in
       let create :=
         await _ := setDoc friendshipId (pendingRequest fromUid toUid) in
         ret (succeeded friendshipId) in
       match existingDoc with
       | Some existing =>
           if decide (status existing = "active") then
             ret (failure "You are already friends with this user")
           else if decide (status existing = "pending") then
             ret (failure "A friend request is already pending")
           else create
       | None => create
       end)
      (λ error, ret (failure (messageOr "Failed to send friend request" error))).

Definition acceptFriendRequest (friendshipId acceptingUid : string)
    : Async Friendships FriendshipResult :=
  if USE_MOCK_AUTH then ret (succeeded friendshipId)
  else
    tryCatch
      (await _ := getFirebaseDb in
       await _ := importFirestore in
       await friendshipDoc := getDoc friendshipId in
       match friendshipDoc with
       | None => ret (failure "Friend request not found")
       | Some friendship =>
           if decide (requestedBy friendship = acceptingUid) then
             ret (failure "You can't accept your own friend request")
           else if negb (includes (users friendship) acceptingUid) then
             ret (failure "You are not part of this friend request")
           else
             await _ := updateDoc friendshipId activate in
             ret (succeeded friendshipId)
       end)
      (λ error, ret (failure (messageOr "Failed to accept friend request" error))).

Definition declineFriendRequest (friendshipId decliningUid : string)
    : Async Friendships FriendshipResult :=
  if USE_MOCK_AUTH then ret (succeeded friendshipId)
  else
    tryCatch
      (await _ := getFirebaseDb in
       await _ := importFirestore in
       await friendshipDoc := getDoc friendshipId in
       match friendshipDoc with
       | None => ret (failure "Friend request not found")
       | Some friendship =>
           if negb (includes (users friendship) decliningUid) then
             ret (failure "You are not part of this friend request")
           else
             await _ := deleteDoc friendshipId in
             ret (succeeded friendshipId)
       end)
      (λ error, ret (failure (messageOr "Failed to decline friend request" error))).

Definition unfriend (uid friendUid : string)
    : Async Friendships FriendshipResult :=
  if USE_MOCK_AUTH then ret (succeeded (generateFriendshipId uid friendUid))
  else
    tryCatch
      (await _ := getFirebaseDb in
       await _ := importFirestore in
       let friendshipId := generateFriendshipId uid friendUid in
       await _ := deleteDoc friendshipId in
       ret (succeeded friendshipId))
      (λ error, ret (failure (messageOr "Failed to unfriend" error))).

End WithConfig.

(** A result that reports a failure with a message. *)
Definition failed (res : Thrown + FriendshipResult) : Prop :=
  ∃ r, res = inr r ∧ success r = false ∧ error r ≠ None.

(** What section 4.4 says of [createFriendRequest], for one configuration,
    pair and world: a request to oneself fails; an existing active document
    gives the already-friends failure, a pending one the already-pending
    failure; otherwise the pending document is written under the pair's id
    and the call succeeds. *)
Definition createFriendRequestSpec (mock : bool) (fromUid toUid : string)
    (w : World Friendships) : Prop :=
  let '(res, w') := createFriendRequest mock fromUid toUid w in
  let friendshipId := generateFriendshipId fromUid toUid in
  let created :=
    res = inr (succeeded friendshipId) ∧
    db w' = <[friendshipId := pendingRequest fromUid toUid (clock w)]> (db w) in
  if decide (fromUid = toUid) then failed res
  else
    match db w !! friendshipId with
    | Some existing =>
        if decide (status existing = "active") then
          res = inr (failure "You are already friends with this user")
        else if decide (status existing = "pending") then
          res = inr (failure "A friend request is already pending")
        else created
    | None => created
    end.

(** What section 4.4 says of [acceptFriendRequest]: not found when the
    document is missing; a failure when the accepting user sent the request
    or is not one of the two users; otherwise the document becomes active
    with [acceptedAt] set to now, and the call succeeds. *)
Definition acceptFriendRequestSpec (mock : bool)
    (friendshipId acceptingUid : string) (w : World Friendships) : Prop :=
  let '(res, w') := acceptFriendRequest mock friendshipId acceptingUid w in
  match db w !! friendshipId with
  | None => res = inr (failure "Friend request not found")
  | Some friendship =>
      if decide (requestedBy friendship = acceptingUid ∨
                 includes (users friendship) acceptingUid = false)
      then failed res ∧ db w' = db w
      else
        res = inr (succeeded friendshipId) ∧
        db w' = <[friendshipId := activate (clock w) friendship]> (db w)
  end.

(** [unfriend] as the code reads: the pair's document is deleted whether
    it exists or not and the call succeeds. *)
Definition unfriendSpec (mock : bool) (uid friendUid : string)
    (w : World Friendships) : Prop :=
  let '(res, w') := unfriend mock uid friendUid w in
  res = inr (succeeded (generateFriendshipId uid friendUid)) ∧
  db w' = delete (generateFriendshipId uid friendUid) (db w).

(** [declineFriendRequest] as the code reads: not found on a missing
    document; on an existing one a failure when the declining user is not
    one of the two users. *)
Definition declineFriendRequestSpec (mock : bool)
    (friendshipId decliningUid : string) (w : World Friendships) : Prop :=
  let '(res, w') := declineFriendRequest mock friendshipId decliningUid w in
  match db w !! friendshipId with
  | None => res = inr (failure "Friend request not found")
  | Some friendship =>
      includes (users friendship) decliningUid = false →
      failed res ∧ db w' = db w
  end.

End FirestoreFriendships.

(* ===================================================================== *)
(** ** Concrete stores and operation sequences                            *)
(* ===================================================================== *)

Module Scenario.
Import Storage SinglesInfernoS5.

(** The two seeded boards, loaded into an empty store at time 1000 with
    every placeholder image drawn. *)
Definition seeded : Store := loadSinglesInfernoS5 1000 ∅ emptyStore.

Definition newCard : Card :=
  Card.mk "card-new" WOMEN_BOARD_ID "Newcomer" "" None None None ""
    ∅ 0 2000 2000 None.

(** One more card, a move of the first card to the fourth place, the
    deletion of the second seeded card, a move that is refused, and the
    deletion of a card that is not there. *)
Definition someOps : list Op :=
  [ Append newCard;
    Reorder WOMEN_BOARD_ID "si5-park-hee-sun" 0 3 3000;
    SoftDelete "si5-kim-go-eun" 4000;
    Reorder WOMEN_BOARD_ID "si5-park-hee-sun" 0 9 5000;
    SoftDelete "nobody" 6000 ].

(** A board with the cards A = 1, B = 2, C = 3. *)
Definition abcCard (cardId : string) (rank : nat) : Card :=
  Card.mk cardId "b" cardId "" None None None "" ∅ rank 0 0 None.

Definition abc : Store :=
  mkStore {[ "b" := Board.mk "b" "Board" None 0 0 None ]}
    {[ "A" := abcCard "A" 1; "B" := abcCard "B" 2; "C" := abcCard "C" 3 ]} ∅.

(** Card A is appended again; card A is deleted twice. *)
Definition appendAgain : list Op := [ Append (abcCard "A" 0) ].

Definition deleteTwice : list Op := [ SoftDelete "A" 10; SoftDelete "A" 20 ].

(** The seeded store with its five episodes per board. *)
Definition withHistory : Store :=
  (loadSinglesInfernoS5Snapshots (λ k, 5000000000 + Z.of_nat k)%Z seeded).2.

Definition someEdits : list CardEdit :=
  [ Rename "si5-park-hee-sun" "Somebody Else" 7000;
    Remove "si5-kim-go-eun";
    Ranking (SoftDelete "si5-ham-ye-jin" 8000);
    Save newCard ].

End Scenario.

Module Worlds.
Import Js.

(** Ten reports of user "u", all one second old. *)
Definition reportBy (u : string) (t : Z) : RateLimiting.Doc :=
  RateLimiting.mkDoc {[ "reporterId" := u ]} (Some t).

Definition reportsOf (n : nat) : RateLimiting.Firestore :=
  {[ "reports" := replicate n (reportBy "u" 99999000) ]}.

Definition calm (n : nat) : World RateLimiting.Firestore :=
  mkWorld (reportsOf n) 100000000 [].

(** The read of the query is rejected. *)
Definition readFails (n : nat) : World RateLimiting.Firestore :=
  mkWorld (reportsOf n) 100000000
    [None; None; Some (ErrorObject "unavailable")].

Definition requestBy (u : string) (t : Z) : RateLimiting.Doc :=
  RateLimiting.mkDoc {[ "requestedBy" := u ]} (Some t).

Definition boardOf (u : string) (t : Z) : RateLimiting.Doc :=
  RateLimiting.mkDoc {[ "ownerId" := u ]} (Some t).

(** Nineteen friend requests and fifty boards of user "u", all one second
    old, next to a request of theirs from long ago and a request of
    somebody else. *)
Definition busy : World RateLimiting.Firestore :=
  mkWorld {[ "friendships" :=
               requestBy "u" 1000 :: requestBy "v" 99999000 ::
               replicate 19 (requestBy "u" 99999000);
             "boards" := replicate 50 (boardOf "u" 99999000) ]}
    100000000 [].

(** u1 asked u2; then the same pair as friends. *)
Definition requested : World FirestoreFriendships.Friendships :=
  mkWorld {[ "u1_u2" := FirestoreFriendships.pendingRequest "u1" "u2" 500 ]}
    1000 [].

Definition friends : World FirestoreFriendships.Friendships :=
  mkWorld {[ "u1_u2" := FirestoreFriendships.activate 700
                          (FirestoreFriendships.pendingRequest "u1" "u2" 500) ]}
    1000 [].

Definition strangers : World FirestoreFriendships.Friendships :=
  mkWorld ∅ 1000 [].

(** The same worlds with the first read rejected. *)
Definition offline (w : World FirestoreFriendships.Friendships)
    : World FirestoreFriendships.Friendships :=
  mkWorld (db w) (clock w) [None; None; Some (ErrorObject "offline")].

End Worlds.

(* ===================================================================== *)
(** ** Friendships: the reads and blocking (lib/firestoreFriendships.ts)  *)
(* ===================================================================== *)

Module FriendshipQueries.
Import Js FirestoreFriendships.

Inductive RequestDirection :=
  | incoming
  | outgoing.

#[global] Instance RequestDirection_eq_dec : EqDecision RequestDirection.
Proof. solve_decision. Defined.

(** A query without [orderBy] yields its documents by ascending id. *)
Definition byDocId : relation (string * Friendship) :=
  λ x y, String.leb x.1 y.1 = true.

#[global] Instance byDocId_dec x y : Decision (byDocId x y).
Proof. unfold byDocId. apply _. Defined.

Definition documents (d : Friendships) : list Friendship :=
  (merge_sort byDocId (map_to_list d)).*2.

(** [where('users', 'array-contains', uid), where('status', '==', s)] *)
Definition involves (uid s : string) (f : Friendship) : bool :=
  includes (users f) uid && bool_decide (status f = s).

(** [where('requestedBy', '==', uid), where('status', '==', s)] *)
Definition requestedWith (uid s : string) (f : Friendship) : bool :=
  bool_decide (requestedBy f = uid) && bool_decide (status f = s).

(** [getDocs(q)]: one remote read. *)
Definition getDocs (q : Friendship → bool) : Async Friendships (list Friendship) :=
  remote (λ d _, (List.filter q (documents d), d)).

(** [createFriendRequestObject]: the request as a local object, stamped with
    [Date.now()]. *)
Definition createFriendRequestObject (fromUid toUid : string)
    : Async Friendships Friendship :=
  let '(sortedA, sortedB) := sortUserIds fromUid toUid in
  await now := dateNow in
  ret (mkFriendship (generateFriendshipId fromUid toUid) (sortedA, sortedB)
         "pending" fromUid now None).

Section WithConfig.
(** [USE_MOCK_AUTH] of lib/firebase (not among the sources): a parameter. *)
Variable USE_MOCK_AUTH : bool.

Definition getFriendships (uid : string) : Async Friendships (list Friendship) :=
  if USE_MOCK_AUTH then ret []
  else
    tryCatch
      (await _ := getFirebaseDb in
       await _ := importFirestore in
       await snapshot := getDocs (involves uid "active") in
       ret snapshot)
      (λ error, ret []).

(** The loop over the snapshot: for incoming requests those the user sent
    are skipped. *)
Definition keepRequest (uid : string) (direction : RequestDirection)
    (friendship : Friendship) : bool :=
  negb (bool_decide (direction = incoming) &&
        bool_decide (requestedBy friendship = uid)).

Definition getPendingRequests (uid : string) (direction : RequestDirection)
    : Async Friendships (list Friendship) :=
  if USE_MOCK_AUTH then ret []
  else
    tryCatch
      (await _ := getFirebaseDb in
       await _ := importFirestore in
       let q :=
         match direction with
         | outgoing => requestedWith uid "pending"
         | incoming => involves uid "pending"
         end in
       await snapshot := getDocs q in
       ret (List.filter (keepRequest uid direction) snapshot))
      (λ error, ret []).

Definition checkFriendship (uid1 uid2 : string)
    : Async Friendships (option Friendship) :=
  if USE_MOCK_AUTH then ret None
  else
    tryCatch
      (await _ := getFirebaseDb in
       await _ := importFirestore in
       await friendshipDoc := getDoc (generateFriendshipId uid1 uid2) in
       ret friendshipDoc)
      (λ error, ret None).

End WithConfig.

(** The actions on the [friendships] collection and their sequences; each
    action runs in the world the previous one left. *)
Inductive Action :=
  | Request (fromUid toUid : string)
  | Accept (friendshipId acceptingUid : string)
  | Decline (friendshipId decliningUid : string)
  | Unfriend (uid friendUid : string).

Definition act (mock : bool) (a : Action)
    : Async Friendships FriendshipResult :=
  match a with
  | Request fromUid toUid => createFriendRequest mock fromUid toUid
  | Accept friendshipId acceptingUid =>
      acceptFriendRequest mock friendshipId acceptingUid
  | Decline friendshipId decliningUid =>
      declineFriendRequest mock friendshipId decliningUid
  | Unfriend uid friendUid => unfriend mock uid friendUid
  end.

Definition perform (mock : bool) (actions : list Action)
    (w : World Friendships) : World Friendships :=
  foldl (λ w a, (act mock a w).2) w actions.

(** A document as this service writes it: stored under its own id, which is
    the id of its two users; the two users differ and are in order; the
    requester is one of them; pending without [acceptedAt] or active with
    it. *)
Definition wellFormed (k : string) (f : Friendship) : Prop :=
  id f = k ∧
  id f = generateFriendshipId (users f).1 (users f).2 ∧
  (users f).1 ≠ (users f).2 ∧
  sortUserIds (users f).1 (users f).2 = users f ∧
  includes (users f) (requestedBy f) = true ∧
  ((status f = "pending" ∧ acceptedAt f = None) ∨
   (status f = "active" ∧ acceptedAt f ≠ None)).

#[global] Instance wellFormed_dec k f : Decision (wellFormed k f).
Proof. unfold wellFormed. apply _. Defined.

Definition allWellFormed (d : Friendships) : Prop :=
  map_Forall wellFormed d.

(** The outcome [r] of a read is a list that holds [x]. *)
Definition lists {A} (r : (Thrown + list A) * World Friendships) (x : A) : Prop :=
  ∃ l, r.1 = inr l ∧ x ∈ l.

End FriendshipQueries.

Module Blocking.
Import Js FirestoreFriendships.

(** A document of the [users] collection, as far as this service touches
    it: the [blockedUsers] array (absent counts as empty) and the other
    fields, which an update of [blockedUsers] leaves alone. *)
Record UserProfile := mkUserProfile {
  blockedUsers : list string;
  otherFields : gmap string string;
}.

Record Social := mkSocial {
  friendshipDocs : Friendships;
  userDocs : gmap string UserProfile;
}.

(** [arrayUnion(x)]: [x] is added unless it is there. *)
Definition arrayUnion (x : string) (l : list string) : list string :=
  if decide (x ∈ l) then l else l ++ [x].

(** [arrayRemove(x)]: every occurrence of [x] goes. *)
Definition arrayRemove (x : string) (l : list string) : list string :=
  filter (λ y, y ≠ x) l.

Definition throw {D A} (e : Thrown) : Async D A := λ w, (inl e, w).

(** A computation on the [friendships] collection, run in the database
    that also holds the users. *)
Definition onFriendships {A} (m : Async Friendships A) : Async Social A :=
  λ w,
    let '(r, w') := m (mkWorld (friendshipDocs (db w)) (clock w) (faults w)) in
    (r, mkWorld (mkSocial (db w') (userDocs (db w))) (clock w') (faults w')).

Section WithConfig.
(** [USE_MOCK_AUTH] of lib/firebase (not among the sources): a parameter. *)
Variable USE_MOCK_AUTH : bool.
(** What [updateDoc] throws for a document that does not exist: the
    service's not-found error for the document's id. *)
Variable notFound : string → Thrown.

(** [updateDoc(doc(db, 'users', uid), { blockedUsers: change })] *)
Definition updateBlockedUsers (uid : string)
    (change : list string → list string) : Async Social unit :=
  await found :=
    remote (λ d _,
      match userDocs d !! uid with
      | Some p =>
          (true,
           mkSocial (friendshipDocs d)
             (<[uid := mkUserProfile (change (blockedUsers p)) (otherFields p)]>
                (userDocs d)))
      | None => (false, d)
      end) in
  if found : bool then ret tt else throw (notFound uid).

Definition deleteFriendship (friendshipId : string) : Async Social unit :=
  remote (λ d _,
    (tt, mkSocial (delete friendshipId (friendshipDocs d)) (userDocs d))).

Definition done : FriendshipResult := mkResult true None None.

Definition blockUser (uid userToBlock : string)
    : Async Social FriendshipResult :=
  if decide (uid = userToBlock) then ret (failure "You can't block yourself")
  else if USE_MOCK_AUTH then ret done
  else
    tryCatch
      (await _ := getFirebaseDb in
       await _ := importFirestore in
       await _ := updateBlockedUsers uid (arrayUnion userToBlock) in
       await _ := deleteFriendship (generateFriendshipId uid userToBlock) in
       ret done)
      (λ error, ret (failure (messageOr "Failed to block user" error))).

Definition unblockUser (uid userToUnblock : string)
    : Async Social FriendshipResult :=
  if USE_MOCK_AUTH then ret done
  else
    tryCatch
      (await _ := getFirebaseDb in
       await _ := importFirestore in
       await _ := updateBlockedUsers uid (arrayRemove userToUnblock) in
       ret done)
      (λ error, ret (failure (messageOr "Failed to unblock user" error))).

End WithConfig.

(** The blocked list of a user; none for a user without a document. *)
Definition blockedBy (uid : string) (d : Social) : option (list string) :=
  blockedUsers <$> userDocs d !! uid.

End Blocking.

(** Worlds with users: u1 and u2 are friends, u1 has blocked u9 before and
    u3 has no profile document. *)
Module SocialWorlds.
Import Js Blocking.

Definition noDocument (uid : string) : Thrown :=
  ErrorObject ("No document to update: users/" +:+ uid).

Definition alice : UserProfile :=
  mkUserProfile ["u9"] {[ "username" := "alice" ]}.

Definition bob : UserProfile :=
  mkUserProfile [] {[ "username" := "bob" ]}.

Definition befriended : World Social :=
  mkWorld (mkSocial (db Worlds.friends) {[ "u1" := alice; "u2" := bob ]})
    1000 [].

(** The delete of the friendship is rejected. *)
Definition deleteFails : World Social :=
  mkWorld (db befriended) 1000
    [None; None; None; Some (ErrorObject "unavailable")].

End SocialWorlds.

(* ===================================================================== *)
(** ** Rate limits: one more document, and the report hook               *)
(**    (lib/rateLimiting.ts, hooks/useReports.ts)                         *)
(* ===================================================================== *)

Module RateLimitChecks.
Import Js RateLimiting.

(** A result as the checks build it, for the ceiling [n] of the action. *)
Definition consistent (n : Z) (r : RateLimitResult) : Prop :=
  (0 ≤ remaining r ≤ n)%Z ∧
  (allowed r = true ↔ (0 < remaining r)%Z) ∧
  (allowed r = true ↔ error r = None) ∧
  (∀ msg, error r = Some msg → msg ≠ "").

(** The database with one more document [x] in the collection [c]. *)
Definition addDoc (c : string) (x : Doc) (d : Firestore) : Firestore :=
  <[c := x :: default [] (d !! c)]> d.

Definition withDoc (c : string) (x : Doc) (w : World Firestore)
    : World Firestore :=
  mkWorld (addDoc c x (db w)) (clock w) (faults w).

(** The document [x] of collection [c] is one the query for
    [collectionName], [userIdField] and [uid] finds at time [now]: it
    belongs to the user and is stamped within the day before [now], the
    instant a day ago included. *)
Definition counts (collectionName userIdField uid : string) (now : Z)
    (c : string) (x : Doc) : Prop :=
  c = collectionName ∧ fields x !! userIdField = Some uid ∧
  ∃ t, createdAt x = Some t ∧ (now - ONE_DAY_MS ≤ t)%Z.

#[global] Instance counts_dec cn f uid now c x :
  Decision (counts cn f uid now c x).
Proof.
  unfold counts. destruct (createdAt x) as [t|].
  - destruct (decide (c = cn ∧ fields x !! f = Some uid ∧ (now - ONE_DAY_MS ≤ t)%Z))
      as [H|H].
    + left. destruct H as (? & ? & ?). eauto.
    + right. intros (? & ? & t' & [= <-] & ?). tauto.
  - right. intros (? & ? & t' & [=] & ?).
Defined.

End RateLimitChecks.

Module UseReports.
Import Js.

Inductive ReportReason :=
  | inappropriate_content
  | harassment
  | spam
  | impersonation
  | other.

(** [ReportResult] is declared in lib/firestoreReports (not among the
    sources); these are the fields the hook and its tests read and write. *)
Record ReportResult := mkReportResult {
  success : bool;
  reportId : option string;
  error : option string;
}.

(** [{ success: false, error: err }] *)
Definition failure (err : string) : ReportResult :=
  mkReportResult false None (Some err).

(** The two state cells of the hook. *)
Record Hook := mkHook {
  isSubmitting : bool;
  errorState : option string;
}.

(** What a call of [submitReport] works on: the remote documents and the
    state of the hook. *)
Record Page := mkPage {
  store : RateLimiting.Firestore;
  hook : Hook;
}.

Definition setError (e : option string) : Async Page unit :=
  λ w, (inr tt,
        mkWorld (mkPage (store (db w)) (mkHook (isSubmitting (hook (db w))) e))
          (clock w) (faults w)).

Definition setIsSubmitting (b : bool) : Async Page unit :=
  λ w, (inr tt,
        mkWorld (mkPage (store (db w)) (mkHook b (errorState (hook (db w)))))
          (clock w) (faults w)).

(** A call of a service of lib, which knows the documents only. *)
Definition onStore {A} (m : Async RateLimiting.Firestore A) : Async Page A :=
  λ w,
    let '(r, w') := m (mkWorld (store (db w)) (clock w) (faults w)) in
    (r, mkWorld (mkPage (db w') (hook (db w))) (clock w') (faults w')).

(** [try body catch handler finally final]: [final] runs on every way
    out, and what it throws replaces the outcome. *)
Definition tryCatchFinally {D A} (body : Async D A)
    (handler : Thrown → Async D A) (final : Async D unit) : Async D A :=
  λ w,
    let '(r, w1) := tryCatch body handler w in
    match final w1 with
    | (inl e, w2) => (inl e, w2)
    | (inr _, w2) => (r, w2)
    end.

(** [x || fallback] on an optional string: undefined and the empty string
    give the fallback. *)
Definition orElse (x : option string) (fallback : string) : string :=
  match x with
  | Some s => if decide (s = "") then fallback else s
  | None => fallback
  end.

Section WithConfig.
(** [USE_MOCK_AUTH] of lib/firebase (not among the sources): a parameter. *)
Variable USE_MOCK_AUTH : bool.
(** [ReportTargetType], [hasUserReported] and [createReport] belong to
    lib/firestoreReports (not among the sources): parameters. *)
Variable ReportTargetType : Type.
Variable hasUserReported :
  string → ReportTargetType → string → Async RateLimiting.Firestore bool.
Variable createReport :
  string → ReportTargetType → string → ReportReason → string →
  Async RateLimiting.Firestore ReportResult.

(** [submitReport] of the hook called with [userId]. *)
Definition submitReport (userId : option string)
    (targetType : ReportTargetType) (targetId : string)
    (reason : ReportReason) (details : string) : Async Page ReportResult :=
  await _ := setError None in
  if RateLimiting.falsy userId then
    let err := "Not signed in" in
    await _ := setError (Some err) in
    ret (failure err)
  else
    let uid := default "" userId in
    await _ := setIsSubmitting true in
    tryCatchFinally
      (await limitCheck :=
         onStore (RateLimiting.checkReportLimit USE_MOCK_AUTH userId) in
       if negb (RateLimiting.allowed limitCheck) then
         await _ :=
           setError (Some (orElse (RateLimiting.error limitCheck)
                             "Rate limit exceeded")) in
         ret (failure (orElse (RateLimiting.error limitCheck)
                         "Rate limit exceeded"))
       else
         await alreadyReported :=
           onStore (hasUserReported uid targetType targetId) in
         if alreadyReported : bool then
           let err := "You've already reported this" in
           await _ := setError (Some err) in
           ret (failure err)
         else
           await result :=
             onStore (createReport uid targetType targetId reason details) in
           await _ :=
             (if negb (success result)
              then setError (Some (orElse (error result)
                                     "Failed to submit report"))
              else ret tt) in
           ret result)
      (λ err,
         let errorMsg := messageOr "Failed to submit report" err in
         await _ := setError (Some errorMsg) in
         ret (failure errorMsg))
      (setIsSubmitting false).

End WithConfig.

(** A page over the documents of [w] with the hook as it is mounted, or
    with any other state [h]. *)
Definition pageOf (h : Hook) (w : World RateLimiting.Firestore) : World Page :=
  mkWorld (mkPage (db w) h) (clock w) (faults w).

Definition mounted : Hook := mkHook false None.

(** Stand-ins for the two services of lib/firestoreReports: no report yet,
    and a create that goes through. *)
Definition neverReported {T} (uid : string) (targetType : T) (targetId : string)
    : Async RateLimiting.Firestore bool := ret false.

Definition created {T} (uid : string) (targetType : T) (targetId : string)
    (reason : ReportReason) (details : string)
    : Async RateLimiting.Firestore ReportResult :=
  ret (mkReportResult true (Some "report-123") None).

End UseReports.

(* ===================================================================== *)
(** ** Rounding of doubles (Stdlib's SpecFloat)                           *)
(* ===================================================================== *)

Module Rounding.

Definition bit (b : bool) : Z := if b then 1 else 0.

(** After [k] shifts of [M] the record holds the quotient and, in its
    round bit, the bit shifted out last. *)
Definition shifted (M k : Z) (mrs : shr_record) : Prop :=
  (0 ≤ shr_m mrs)%Z ∧
  ((2 * shr_m mrs + bit (shr_r mrs)) * 2 ^ k ≤ 2 * M)%Z.

End Rounding.

(* ===================================================================== *)
(** ** Join codes (lib/wordBank.ts)                                       *)
(* ===================================================================== *)

Module WordBank.

Definition adjectives : list string :=
  [ "happy"; "brave"; "calm"; "clever"; "cool";
    "cozy"; "crisp"; "cute"; "daring"; "eager";
    "fancy"; "fast"; "fierce"; "fluffy"; "funky";
    "gentle"; "golden"; "grand"; "groovy"; "honest";
    "jolly"; "kind"; "lazy"; "lively"; "lucky";
    "mellow"; "mighty"; "neat"; "noble"; "plucky";
    "proud"; "quick"; "quiet"; "rapid"; "royal";
    "savvy"; "shiny"; "silly"; "sleek"; "snappy";
    "speedy"; "spicy"; "steady"; "sunny"; "super";
    "sweet"; "swift"; "tender"; "vivid"; "witty" ].

Definition nouns : list string :=
  [ "tiger"; "panda"; "eagle"; "fox"; "wolf";
    "bear"; "hawk"; "lion"; "otter"; "raven";
    "shark"; "cobra"; "crane"; "dolphin"; "falcon";
    "gecko"; "heron"; "iguana"; "jaguar"; "koala";
    "lemur"; "moose"; "newt"; "owl"; "parrot";
    "quail"; "robin"; "salmon"; "toucan"; "viper";
    "whale"; "zebra"; "badger"; "bison"; "camel";
    "dingo"; "elk"; "ferret"; "goose"; "husky";
    "ibis"; "jackal"; "kiwi"; "lark"; "marten";
    "narwhal"; "osprey"; "puma"; "quokka"; "stork" ].

(** *** Numbers *)

(** The numbers of the language are the IEEE 754 doubles: the values of
    [spec_float] with 53 bits of precision and exponents below 1024 that
    are [valid_binary]. Products, sums and comparisons are those of the
    format, rounded to nearest, ties to even. *)
Definition prec : Z := 53.
Definition emax : Z := 1024.

Record Number := mkNumber {
  float : spec_float;
  float_valid : valid_binary prec emax float = true;
}.

(** The double of a natural number: the [length] of an array, a numeric
    literal of the code. *)
Definition ofNat (n : nat) : spec_float :=
  binary_normalize prec emax (Z.of_nat n) 0 false.

(** A value of [Math.random()]: a double with positive sign, at least +0
    and below 1. A mantissa [m] of [d] digits with exponent [e] is the
    number [m * 2^e], with [2^(d-1) <= m < 2^d]; it is below 1 when
    [d + e <= 0]. *)
Definition isRandom (x : spec_float) : bool :=
  match x with
  | S754_zero false => true
  | S754_finite false m e =>
      bounded prec emax m e && (Z.pos (digits2_pos m) + e <=? 0)%Z
  | _ => false
  end.

Record Random := mkRandom {
  value : spec_float;
  value_random : isRandom value = true;
}.

(** The result of [Math.floor]: the greatest whole number that is not
    above the argument, given by its value; a NaN or an infinity is
    returned as it is. *)
Inductive Floored :=
  | Whole (z : Z)
  | NotFinite (x : spec_float).

Definition mathFloor (x : spec_float) : Floored :=
  match x with
  | S754_zero _ => Whole 0
  | S754_finite s m e => Whole (Z.shiftl (cond_Zopp s (Z.pos m)) e)
  | _ => NotFinite x
  end.

(** [Math.floor(r * n)] *)
Definition floorTimes (r : Random) (n : nat) : Floored :=
  mathFloor (SFmul prec emax (value r) (ofNat n)).

(** The values [Math.random()] returns, call after call. A computation
    that draws starts at the number of calls made so far and says how
    many were made when it ends. *)
Definition Source := nat → Random.

Definition Rand (A : Type) := nat → A * nat.

(** [l[i]] inside a template literal: what is not an index of the array
    reads [undefined]. *)
Definition word (l : list string) (i : Floored) : string :=
  match i with
  | Whole z =>
      if decide (0 ≤ z)%Z then default "undefined" (l !! Z.to_nat z)
      else "undefined"
  | NotFinite _ => "undefined"
  end.

(** A floored number inside a template literal. Whole numbers are
    written in decimal digits, as the language does below 10^21; the
    suffix of a join code is below 100. *)
Definition toString (i : Floored) : string :=
  match i with
  | Whole z => pretty z
  | NotFinite S754_nan => "NaN"
  | NotFinite (S754_infinity true) => "-Infinity"
  | NotFinite _ => "Infinity"
  end.

Section WithSource.
Variable random : Source.

Definition mathRandom : Rand Random := λ k, (random k, S k).

Definition generateJoinCode : Rand string :=
  λ k,
    let '(r1, k1) := mathRandom k in
    let adj := word adjectives (floorTimes r1 (length adjectives)) in
    let '(r2, k2) := mathRandom k1 in
    let noun := word nouns (floorTimes r2 (length nouns)) in
    (adj +:+ "-" +:+ noun, k2).

(** [i++] *)
Definition increment (i : spec_float) : spec_float :=
  SFadd prec emax i (ofNat 1).

(** The loop of [generateUniqueJoinCode], entered with the counter at
    [i]: while [i < maxRetries] a code is drawn, and the first one that
    is not among the existing codes is returned. The loop need not end
    (the counter stops growing at 2^53): [fuel] bounds the number of
    times its condition is evaluated, and the answer is [None] when that
    is not enough. *)
Fixpoint firstFree (existingCodes : gset string) (maxRetries : spec_float)
    (fuel : nat) (i : spec_float) (k : nat) : option (option string * nat) :=
  match fuel with
  | 0 => None
  | S fuel' =>
      if SFltb i maxRetries then
        let '(code, k') := generateJoinCode k in
        if decide (code ∈ existingCodes)
        then firstFree existingCodes maxRetries fuel' (increment i) k'
        else Some (Some code, k')
      else Some (None, k)
  end.

(** [generateUniqueJoinCode(existingCodes, maxRetries)]; it awaits nothing,
    so the promise it returns holds the value computed here. *)
Definition generateUniqueJoinCode (existingCodes : gset string)
    (maxRetries : Number) (fuel : nat) (k : nat) : option (string * nat) :=
  match firstFree existingCodes (float maxRetries) fuel (ofNat 0) k with
  | None => None
  | Some (Some code, k') => Some (code, k')
  | Some (None, k') =>
      let '(code, k1) := generateJoinCode k' in
      let '(r, k2) := mathRandom k1 in
      let suffix := floorTimes r 100 in
      Some (code +:+ "-" +:+ toString suffix, k2)
  end.

End WithSource.

(** The default of the second parameter. *)
Definition defaultMaxRetries : Number := mkNumber (ofNat 20) eq_refl.

(** *** The pattern of [isValidJoinCode] *)

(** Regular expressions over the characters of a string; a class is given
    by its membership test. *)
Inductive Regex :=
  | Never
  | Empty
  | Class (p : ascii → bool)
  | Seq (r s : Regex)
  | Alt (r s : Regex)
  | Star (r : Regex).

(** [r+] and [r?] *)
Definition plus (r : Regex) : Regex := Seq r (Star r).
Definition opt (r : Regex) : Regex := Alt r Empty.

Fixpoint nullable (r : Regex) : bool :=
  match r with
  | Never => false
  | Empty => true
  | Class _ => false
  | Seq r s => nullable r && nullable s
  | Alt r s => nullable r || nullable s
  | Star _ => true
  end.

(** What is left of [r] after reading [c]. *)
Fixpoint deriv (c : ascii) (r : Regex) : Regex :=
  match r with
  | Never => Never
  | Empty => Never
  | Class p => if p c then Empty else Never
  | Seq r s =>
      if nullable r then Alt (Seq (deriv c r) s) (deriv c s)
      else Seq (deriv c r) s
  | Alt r s => Alt (deriv c r) (deriv c s)
  | Star r => Seq (deriv c r) (Star r)
  end.

(** [/^r$/.test(s)]: the whole of [s] is read by [r]. *)
Fixpoint test (r : Regex) (s : string) : bool :=
  match s with
  | EmptyString => nullable r
  | String c s' => test (deriv c r) s'
  end.

(** [[a-z]], [\d] and the dash. *)
Definition lower (c : ascii) : bool :=
  (Ascii.leb "a" c && Ascii.leb c "z")%char.

Definition digit (c : ascii) : bool :=
  (Ascii.leb "0" c && Ascii.leb c "9")%char.

Definition dash (c : ascii) : bool := Ascii.eqb c "-"%char.

(** [[a-z]+-[a-z]+(-\d+)?] *)
Definition joinCodePattern : Regex :=
  Seq (plus (Class lower))
    (Seq (Class dash)
       (Seq (plus (Class lower))
          (opt (Seq (Class dash) (plus (Class digit)))))).

Definition isValidJoinCode (code : string) : bool :=
  test joinCodePattern code.

(** The strings a pattern stands for. *)
Inductive Lang : Regex → string → Prop :=
  | Lang_Empty : Lang Empty ""
  | Lang_Class p c : p c = true → Lang (Class p) (String c "")
  | Lang_Seq r s x y : Lang r x → Lang s y → Lang (Seq r s) (x +:+ y)
  | Lang_Alt_l r s x : Lang r x → Lang (Alt r s) x
  | Lang_Alt_r r s x : Lang s x → Lang (Alt r s) x
  | Lang_Star_nil r : Lang (Star r) ""
  | Lang_Star_cons r x y : Lang r x → Lang (Star r) y → Lang (Star r) (x +:+ y).

(** Every character of [s] is in the class [p]. *)
Fixpoint all (p : ascii → bool) (s : string) : bool :=
  match s with
  | EmptyString => true
  | String c s' => p c && all p s'
  end.

(** A word: one lower-case letter or more; a number: one digit or more. *)
Definition isWord (s : string) : Prop := s ≠ "" ∧ all lower s = true.
Definition isNumber (s : string) : Prop := s ≠ "" ∧ all digit s = true.

(** The last character of a string is a digit. *)
Fixpoint endsInDigit (s : string) : bool :=
  match s with
  | EmptyString => false
  | String c EmptyString => digit c
  | String _ s' => endsInDigit s'
  end.

(** The value of the loop counter in round [n], and whether the loop
    condition holds there. *)
Fixpoint counter (n : nat) : spec_float :=
  match n with
  | 0 => ofNat 0
  | S n' => increment (counter n')
  end.

Definition within (maxRetries : Number) (n : nat) : bool :=
  SFltb (counter n) (float maxRetries).

(** The [i]-th code the loop of [generateUniqueJoinCode] draws when it
    starts after [k] calls. *)
Definition attempt (random : Source) (k i : nat) : string :=
  (generateJoinCode random (k + 2 * i)).1.

(** Some numbers: 0, 0.06, 1/2 and the greatest double below 1; 1/2, 2^53 + 2,
    NaN and Infinity as bounds. *)
Definition zero : Random := mkRandom (S754_zero false) eq_refl.

Definition sixHundredths : Random :=
  mkRandom (S754_finite false 8646911284551352 (-57)) eq_refl.

Definition half : Random :=
  mkRandom (S754_finite false 4503599627370496 (-53)) eq_refl.

Definition almostOne : Random :=
  mkRandom (S754_finite false 9007199254740991 (-53)) eq_refl.

Definition oneHalf : Number :=
  mkNumber (S754_finite false 4503599627370496 (-53)) eq_refl.

Definition notANumber : Number := mkNumber S754_nan eq_refl.

Definition infinity : Number := mkNumber (S754_infinity false) eq_refl.

Definition minusThree : Number :=
  mkNumber (SFopp (ofNat 3)) eq_refl.

Definition coin (r : Random) : Source := λ _, r.

End WordBank.

(* ===================================================================== *)
(** ** The seed loader on any store (part_004)                            *)
(* ===================================================================== *)

Module Seeded.
Import Storage SinglesInfernoS5.

(** The cards [loadSinglesInfernoS5] writes: the women in the order of
    the cast list, then the men. *)
Definition seedCards (now : Z) (failed : gset string) : list Card :=
  imap (seedCard WOMEN_BOARD_ID now (imageKeyMap failed)) women ++
  imap (seedCard MEN_BOARD_ID now (imageKeyMap failed)) men.

Definition castIds : list string := CastMember.id <$> castMembers.

(** The loader has work to do: one of the two boards is not there. *)
Definition needsLoad (st : Store) : Prop :=
  getBoard WOMEN_BOARD_ID st = None ∨ getBoard MEN_BOARD_ID st = None.

#[global] Instance needsLoad_dec st : Decision (needsLoad st).
Proof. unfold needsLoad. apply _. Defined.

(** Every card is stored under its id, as [saveCard] stores it. *)
Definition keyedById (st : Store) : Prop :=
  map_Forall (λ k c, Card.id c = k) (cards st).

#[global] Instance keyedById_dec st : Decision (keyedById st).
Proof. unfold keyedById. apply _. Defined.

(** The two boards hold no active card besides those of the cast. *)
Definition onlyCast (st : Store) : Prop :=
  map_Forall
    (λ k c, isActive WOMEN_BOARD_ID c ∨ isActive MEN_BOARD_ID c → k ∈ castIds)
    (cards st).

#[global] Instance onlyCast_dec st : Decision (onlyCast st).
Proof. unfold onlyCast. apply _. Defined.

(** No snapshot of either board is stored. *)
Definition noHistory (st : Store) : Prop :=
  getSnapshotsByBoard WOMEN_BOARD_ID st = [] ∧
  getSnapshotsByBoard MEN_BOARD_ID st = [].

#[global] Instance noHistory_dec st : Decision (noHistory st).
Proof. unfold noHistory. apply _. Defined.

(** The entry of the card [card] at position [index] of an episode. *)
Definition entryAt (index : nat) (card : Card) : RankingEntry :=
  RankingEntry.mk (Card.id card) (Card.name card) (index + 1)
    (Card.thumbnailKey card).

(** The snapshot [s] ranks every one of [members] once, by id and name,
    with the ranks 1, 2, ... in the order of its entries. *)
Definition ranksAll (members : list CastMember) (s : Snapshot) : Prop :=
  RankingEntry.rank <$> Snapshot.rankings s = seq 1 (length members) ∧
  (λ e, (RankingEntry.cardId e, RankingEntry.cardName e))
    <$> Snapshot.rankings s
  ≡ₚ (λ m, (CastMember.id m, CastMember.name m)) <$> members.

(** The snapshots the loader builds for one board: one for each episode
    order, from the cards in [cardMap]; [clock ep] is the reading of the
    clock in round [ep]. *)
Definition episodesOf (tag board : string) (cardMap : gmap string Card)
    (clock : nat → Z) (orders : list (list string)) : list Snapshot :=
  imap (λ ep, episodeSnapshot tag board cardMap (length orders) (clock ep) ep)
    orders.

(** A store with a board of the user's own and nothing else. *)
Definition ownBoard : Store :=
  saveBoard (Board.mk "b1" "Mine" None 10 10 None) emptyStore.

End Seeded.

(* ===================================================================== *)
(** ** The friend request limit over the friendships                      *)
(**    (lib/rateLimiting.ts with lib/firestoreFriendships.ts)             *)
(* ===================================================================== *)

Module FriendRequestQuota.
Import Js FirestoreFriendships FriendshipQueries.

(** A friendship document as the query of the limiter reads it: its
    string fields and its [createdAt] stamp. *)
Definition docOf (f : Friendship) : RateLimiting.Doc :=
  RateLimiting.mkDoc
    {[ "id" := id f; "status" := status f; "requestedBy" := requestedBy f ]}
    (Some (createdAt f)).

(** The [friendships] collection the friendship service writes, as the
    database of the limiter. *)
Definition limiterView (w : World Friendships)
    : World RateLimiting.Firestore :=
  mkWorld {[ "friendships" := docOf <$> documents (db w) ]}
    (clock w) (faults w).

(** The documents among [fs] that [uid] requested at [since] or later. *)
Definition counted (uid : string) (since : Z) (fs : list Friendship) : nat :=
  length (List.filter (λ f, bool_decide (requestedBy f = uid) &&
                            bool_decide (since ≤ createdAt f)%Z) fs).

(** The number [checkFriendRequestLimit] counts for [uid]. *)
Definition sent (uid : string) (w : World Friendships) : Z :=
  RateLimiting.recent "friendships" "requestedBy" uid
    (RateLimiting.friendRequests RateLimiting.RATE_LIMITS) (limiterView w).

End FriendRequestQuota.

(* ===================================================================== *)
(** ** The device token (lib/deviceToken, second part of                  *)
(**    lib/rateLimiting.ts)                                               *)
(* ===================================================================== *)

Module DeviceToken.

(** [window.localStorage]: string items by key. *)
Abbreviation LocalStorage := (gmap string string).

Definition getItem (key : string) (ls : LocalStorage) : option string :=
  ls !! key.

Definition setItem (key value : string) (ls : LocalStorage) : LocalStorage :=
  <[key := value]> ls.

Definition DEVICE_TOKEN_KEY : string := "singles-infernal-rank:device-token".

(** [getDeviceToken]; [uuid] is what [crypto.randomUUID()] gives if it is
    called. An item that is the empty string is falsy and is replaced. *)
Definition getDeviceToken (uuid : string) (ls : LocalStorage)
    : string * LocalStorage :=
  let existing := getItem DEVICE_TOKEN_KEY ls in
  match existing with
  | Some token =>
      if decide (token = "") then (uuid, setItem DEVICE_TOKEN_KEY uuid ls)
      else (token, ls)
  | None => (uuid, setItem DEVICE_TOKEN_KEY uuid ls)
  end.

Definition hasDeviceToken (ls : LocalStorage) : bool :=
  bool_decide (getItem DEVICE_TOKEN_KEY ls ≠ None).

End DeviceToken.

(* ===================================================================== *)
(** * Theorems                                                            *)
(* ===================================================================== *)

Section MergeFacts.
Import FirestoreBoards.

Lemma boardAt_Some i l b : boardAt i l = Some b → b ∈ l ∧ Board.id b = i.
Proof.
  unfold boardAt. destruct (list_find _ l) as [[n x]|] eqn:E; [|done].
  intros [= <-]. apply list_find_Some in E as (Hl & Hi & _).
  split; [by eapply list_elem_of_lookup_2 | done].
Qed.

Lemma boardAt_is_Some i l : i ∈ Board.id <$> l → is_Some (boardAt i l).
Proof.
  intros (b & -> & Hb)%list_elem_of_fmap. unfold boardAt.
  destruct (list_find_elem_of (λ x, Board.id x = Board.id b) l b Hb eq_refl) as [p ->].
  by eexists.
Qed.

Lemma boardAt_None i l : i ∉ Board.id <$> l → boardAt i l = None.
Proof.
  intros Hn. destruct (boardAt i l) as [b|] eqn:E; [|done].
  apply boardAt_Some in E as [Hb <-]. destruct Hn.
  apply list_elem_of_fmap. eauto.
Qed.

Lemma merged_id i l r b :
  mergeBoards (boardAt i l) (boardAt i r) = Some b → Board.id b = i.
Proof.
  destruct (boardAt i l) as [x|] eqn:El, (boardAt i r) as [y|] eqn:Er;
    simpl; intros [= <-] || intros [=];
    eapply boardAt_Some; eauto.
Qed.

Lemma merged_is_Some i l r :
  i ∈ unionIds l r → is_Some (mergeBoards (boardAt i l) (boardAt i r)).
Proof.
  unfold unionIds. rewrite elem_of_remove_dups, elem_of_app.
  intros [H|H].
  - destruct (boardAt_is_Some _ _ H) as [x ->].
    destruct (boardAt i r); by eexists.
  - destruct (boardAt_is_Some _ _ H) as [y ->].
    destruct (boardAt i l); by eexists.
Qed.

(** Merging along a list of ids yields, in order, boards with these ids. *)
Lemma merged_ids l r (ids : list string) :
  (∀ i, i ∈ ids → i ∈ unionIds l r) →
  Board.id <$> omap (λ i, mergeBoards (boardAt i l) (boardAt i r)) ids = ids.
Proof.
  induction ids as [|i ids IH]; intros Hin; [done|]. simpl.
  destruct (merged_is_Some i l r) as [b Hb]; [apply Hin; left|].
  rewrite Hb. simpl. f_equal; [by eapply merged_id|].
  apply IH. intros j Hj. apply Hin. by right.
Qed.

Lemma mergeBoardLists_ids l r : Board.id <$> mergeBoardLists l r = unionIds l r.
Proof. by apply merged_ids. Qed.

Lemma unionIds_size l r : length (unionIds l r) = size (idSet l ∪ idSet r).
Proof.
  unfold unionIds, idSet. rewrite <- list_to_set_app_L.
  rewrite <- (size_list_to_set (C := gset string) (remove_dups _))
    by apply NoDup_remove_dups.
  f_equal. apply set_eq. intros x.
  by rewrite !elem_of_list_to_set, elem_of_remove_dups.
Qed.

(** C1. mergeBoards returns the remote copy when the local one is absent,
    the local copy when the remote one is absent, and the local copy when
    both are present, whatever the two updatedAt stamps are. *)
Theorem mergeBoards_local_wins :
  (∀ remote : option Board, mergeBoards None remote = remote) ∧
  (∀ local : Board, mergeBoards (Some local) None = Some local) ∧
  (∀ local remote : Board, mergeBoards (Some local) (Some remote) = Some local).
Proof. repeat split. Qed.

(** C2. mergeBoardLists returns exactly one merged board per id of the
    union of the two id sets: its ids are duplicate free, they are the
    ids of the union, its length is the size of the union, the board
    held for an id is the merge of the two copies at that id, and for an
    id present on both sides that board is the local copy. *)
Theorem mergeBoardLists_union (localBoards cloudBoards : list Board) :
  let merged := mergeBoardLists localBoards cloudBoards in
  length merged = size (idSet localBoards ∪ idSet cloudBoards) ∧
  NoDup (Board.id <$> merged) ∧
  (∀ i, i ∈ Board.id <$> merged ↔ i ∈ idSet localBoards ∪ idSet cloudBoards) ∧
  (∀ i, i ∈ idSet localBoards ∪ idSet cloudBoards →
        boardAt i merged =
          mergeBoards (boardAt i localBoards) (boardAt i cloudBoards)) ∧
  (∀ i, i ∈ idSet localBoards → i ∈ idSet cloudBoards →
        ∃ lb, boardAt i localBoards = Some lb ∧ boardAt i merged = Some lb).
Proof.
  intros merged.
  assert (Hids : Board.id <$> merged = unionIds localBoards cloudBoards)
    by apply mergeBoardLists_ids.
  assert (Hmem : ∀ i, i ∈ unionIds localBoards cloudBoards ↔
                      i ∈ idSet localBoards ∪ idSet cloudBoards).
  { intros i. unfold unionIds, idSet.
    rewrite elem_of_remove_dups, elem_of_app, elem_of_union.
    by rewrite !elem_of_list_to_set. }
  assert (Hat : ∀ i, i ∈ idSet localBoards ∪ idSet cloudBoards →
            boardAt i merged =
              mergeBoards (boardAt i localBoards) (boardAt i cloudBoards)).
  { intros i Hi%Hmem.
    destruct (merged_is_Some _ _ _ Hi) as [b Hb]. rewrite Hb.
    assert (Hin : b ∈ merged).
    { apply list_elem_of_omap. eauto. }
    assert (Hidb : Board.id b = i) by by eapply merged_id.
    destruct (boardAt i merged) as [b'|] eqn:E.
    - apply boardAt_Some in E as [Hin' Hid'].
      f_equal.
      assert (Hnd : NoDup (Board.id <$> merged))
        by (rewrite Hids; apply NoDup_remove_dups).
      apply list_elem_of_lookup in Hin as [n Hn].
      apply list_elem_of_lookup in Hin' as [n' Hn'].
      assert (n' = n); [|congruence].
      apply (NoDup_lookup (Board.id <$> merged) n' n i Hnd);
        rewrite list_lookup_fmap; [rewrite Hn'|rewrite Hn]; simpl; congruence.
    - exfalso. rewrite boardAt_None in Hb.
      + assert (is_Some (boardAt i merged)) as [? ?]; [|congruence].
        apply boardAt_is_Some. rewrite Hids. done.
      + intros _. assert (is_Some (boardAt i merged)) as [? ?]; [|congruence].
        apply boardAt_is_Some. rewrite Hids. done. }
  repeat split.
  - rewrite <- unionIds_size, <- Hids. by rewrite length_fmap.
  - rewrite Hids. apply NoDup_remove_dups.
  - rewrite Hids. apply Hmem.
  - rewrite Hids. apply Hmem.
  - exact Hat.
  - intros i Hl Hr.
    destruct (boardAt_is_Some i localBoards) as [lb Hlb].
    { unfold idSet in Hl. by apply elem_of_list_to_set in Hl. }
    exists lb. split; [done|].
    rewrite Hat by (apply elem_of_union; by left).
    rewrite Hlb. by destruct (boardAt i cloudBoards).
Qed.

(** The cases of the board service tests: local wins over an older and
    over a newer cloud copy; a missing side gives the other one; three
    boards come out of two lists that share board-2, the shared one local. *)
Example mergeBoards_tests :
  let mockBoard n u := Board.mk "board-123" n None 1000 u None in
  mergeBoards (Some (mockBoard "Local Name" 9000%Z)) (Some (mockBoard "Cloud Name" 4000%Z))
    = Some (mockBoard "Local Name" 9000%Z) ∧
  mergeBoards (Some (mockBoard "Local Name" 4000%Z)) (Some (mockBoard "Cloud Name" 9000%Z))
    = Some (mockBoard "Local Name" 4000%Z) ∧
  mergeBoards (Some (mockBoard "Local Only" 9000%Z)) None
    = Some (mockBoard "Local Only" 9000%Z) ∧
  mergeBoards None (Some (mockBoard "Cloud Only" 9000%Z))
    = Some (mockBoard "Cloud Only" 9000%Z).
Proof. repeat split. Qed.

Example mergeBoardLists_tests :
  let board i n := Board.mk i n None 1000 2000 None in
  let merged :=
    mergeBoardLists
      [board "board-1" "Local Board 1"; board "board-2" "Local Board 2"]
      [board "board-2" "Cloud Board 2"; board "board-3" "Cloud Board 3"] in
  length merged = 3 ∧
  Board.name <$> boardAt "board-1" merged = Some "Local Board 1" ∧
  Board.name <$> boardAt "board-2" merged = Some "Local Board 2" ∧
  Board.name <$> boardAt "board-3" merged = Some "Cloud Board 3" ∧
  Board.name <$> mergeBoardLists [] [board "board-1" "Cloud Board 1"]
    = ["Cloud Board 1"] ∧
  Board.name <$> mergeBoardLists [board "board-1" "Local Board 1"] []
    = ["Local Board 1"].
Proof. vm_compute. repeat split; reflexivity. Qed.

End MergeFacts.


(* --------------------------------------------------------------------- *)
(** ** The rank manager keeps ranks dense                                 *)
(* --------------------------------------------------------------------- *)

Section RankFacts.
Import Storage.

Implicit Types (m : gmap string Card) (c : Card) (b k : string).

Lemma seq_max_from s n :
  max_list (seq s n) = match n with 0 => 0 | S n' => s + n' end.
Proof.
  revert s. induction n as [|n IH]; intros s; [done|].
  simpl. rewrite IH. destruct n; lia.
Qed.

Lemma seq_max n : max_list (seq 1 n) = n.
Proof. rewrite seq_max_from. by destruct n. Qed.

Lemma max_list_perm (l1 l2 : list nat) : l1 ≡ₚ l2 → max_list l1 = max_list l2.
Proof. induction 1; simpl; lia. Qed.

Lemma seq_sorted s n : Sorted le (seq s n).
Proof.
  revert s. induction n as [|n IH]; intros s; simpl; [constructor|].
  constructor; [apply IH|]. destruct n; simpl; constructor. lia.
Qed.

Lemma activeRanks_perm b st : activeRanks b st ≡ₚ ranksIn b (cards st).
Proof.
  unfold activeRanks, getCardsByBoard, activeCards, ranksIn.
  rewrite <- list_fmap_compose. apply fmap_Permutation.
  apply merge_sort_Permutation.
Qed.

#[local] Instance byRank_total : Total byRank.
Proof. intros x y. unfold byRank. lia. Qed.

Lemma activeRanks_sorted b st : Sorted le (activeRanks b st).
Proof.
  unfold activeRanks, getCardsByBoard, activeCards.
  rewrite <- list_fmap_compose.
  apply (Sorted_fmap _ byRank); [done|]. apply Sorted_merge_sort, _.
Qed.

Lemma activeCards_length b st :
  length (activeCards b st) = length (ranksIn b (cards st)).
Proof.
  rewrite <- (Permutation_length (activeRanks_perm b st)).
  unfold activeRanks, getCardsByBoard. by rewrite !length_fmap.
Qed.

(** Density can be read off the unordered ranks. *)
Lemma dense_ranksIn b st n : ranksIn b (cards st) ≡ₚ seq 1 n → dense b st.
Proof.
  intros Hp. unfold dense. rewrite activeCards_length.
  rewrite (Permutation_length Hp), length_seq.
  apply (Sorted_unique le); [apply activeRanks_sorted|apply seq_sorted|].
  by rewrite activeRanks_perm.
Qed.

Lemma ranksIn_dense b st :
  dense b st → ranksIn b (cards st) ≡ₚ seq 1 (length (ranksIn b (cards st))).
Proof.
  unfold dense. intros Hd. rewrite <- activeCards_length, <- Hd.
  symmetry. apply activeRanks_perm.
Qed.

Lemma ranksIn_insert b m k c :
  m !! k = None → ranksIn b (<[k:=c]> m) ≡ₚ rankOf b c ++ ranksIn b m.
Proof.
  intros Hk. unfold ranksIn, rankOf.
  rewrite (map_to_list_insert m k c Hk), filter_cons. simpl.
  destruct (decide (isActive b c)); done.
Qed.

Lemma ranksIn_split b m k c :
  m !! k = Some c → ranksIn b m ≡ₚ rankOf b c ++ ranksIn b (delete k m).
Proof.
  intros Hk. rewrite <- (insert_delete_id m k c Hk) at 1.
  apply ranksIn_insert, lookup_delete_eq.
Qed.

Lemma ranksIn_overwrite b m k c' :
  ranksIn b (<[k:=c']> m) ≡ₚ rankOf b c' ++ ranksIn b (delete k m).
Proof.
  rewrite <- insert_delete_eq. apply ranksIn_insert, lookup_delete_eq.
Qed.

Lemma ranksIn_fmap b (f : Card → Card) m :
  (∀ c, isActive b (f c) ↔ isActive b c) →
  ranksIn b (f <$> m) =
    (λ kc, Card.rank (f kc.2)) <$> filter (λ kc, isActive b kc.2) (map_to_list m).
Proof.
  intros Hf. unfold ranksIn. rewrite map_to_list_fmap.
  induction (map_to_list m) as [|[j c] l IH]; [done|].
  rewrite fmap_cons, !filter_cons. cbn [prod_map snd fst].
  destruct (decide (isActive b (f c))) as [Ha|Ha],
           (decide (isActive b c)) as [Hb|Hb].
  - rewrite !fmap_cons. cbn [snd]. by rewrite IH.
  - destruct Hb. by apply Hf.
  - destruct Ha. by apply Hf.
  - exact IH.
Qed.

Lemma eq_Permutation {A} (l k : list A) : l = k → l ≡ₚ k.
Proof. by intros ->. Qed.

Lemma fmap_filter_ext {A B} (P : A → Prop) `{∀ x, Decision (P x)}
    (f g : A → B) (l : list A) :
  (∀ x, P x → f x = g x) → f <$> filter P l = g <$> filter P l.
Proof.
  intros Hfg. apply Forall_fmap_ext, Forall_forall.
  intros x [Hx _]%list_elem_of_filter. by apply Hfg.
Qed.

Lemma rankOf_inactive b c : ¬ isActive b c → rankOf b c = [].
Proof. intros. unfold rankOf. by rewrite decide_False. Qed.

Lemma rankOf_active b c : isActive b c → rankOf b c = [Card.rank c].
Proof. intros. unfold rankOf. by rewrite decide_True. Qed.

(** *** append *)

Lemma isActive_withRank b r c : isActive b (Card.withRank r c) ↔ isActive b c.
Proof. done. Qed.

Lemma currentMax_dense b st :
  dense b st → currentMax b st = length (ranksIn b (cards st)).
Proof.
  intros Hd. unfold currentMax.
  rewrite (max_list_perm _ _ (activeRanks_perm b st)).
  rewrite (max_list_perm _ _ (ranksIn_dense b st Hd)). apply seq_max.
Qed.

Lemma append_dense b c st st' :
  dense b st → cards st !! Card.id c = None →
  append c st = inr st' → dense b st'.
Proof.
  intros Hd Hfresh. unfold append.
  destruct (boards st !! Card.boardId c) as [bd|]; [|done].
  intros [= <-].
  set (n := length (ranksIn b (cards st))).
  unfold saveCard, setCards; simpl.
  destruct (decide (isActive b c)) as [Hact|Hact].
  - apply (dense_ranksIn b _ (S n)). rewrite seq_S. simpl cards.
    rewrite (ranksIn_insert b _ _ _ Hfresh).
    rewrite rankOf_active by done. cbn [Card.rank Card.withRank].
    destruct Hact as [-> _]. rewrite (currentMax_dense _ _ Hd). fold n.
    rewrite (ranksIn_dense _ _ Hd) at 1. fold n.
    apply Permutation_app_comm.
  - apply (dense_ranksIn b _ n). simpl cards.
    rewrite (ranksIn_insert b _ _ _ Hfresh).
    rewrite rankOf_inactive by done. simpl. by apply ranksIn_dense.
Qed.

(** *** softDelete *)

Lemma isActive_shiftDown b b0 r c : isActive b (shiftDown b0 r c) ↔ isActive b c.
Proof. unfold shiftDown. by case_decide. Qed.

(** Removing rank [r] from 1..N and moving the larger ranks down by one
    gives 1..N-1. *)
Lemma close_gap (r n : nat) (R : list nat) :
  r :: R ≡ₚ seq 1 n →
  (λ x, if decide (r < x) then x - 1 else x) <$> R ≡ₚ seq 1 (n - 1).
Proof.
  intros Hp.
  assert (Hr : 1 ≤ r ≤ n).
  { assert (r ∈ seq 1 n) as Hin by (rewrite <- Hp; left).
    apply elem_of_seq in Hin. lia. }
  assert (Hsplit : seq 1 n = seq 1 (r - 1) ++ r :: seq (S r) (n - r)).
  { replace n with ((r - 1) + S (n - r)) at 1 by lia.
    rewrite seq_app. simpl. do 3 f_equal; lia. }
  rewrite Hsplit, <- Permutation_middle in Hp.
  apply Permutation_cons_inv in Hp. rewrite Hp, fmap_app.
  replace (n - 1) with ((r - 1) + (n - r)) by lia. rewrite seq_app.
  apply Permutation_app; apply eq_Permutation.
  - rewrite <- (list_fmap_id (seq 1 (r - 1))) at 2.
    apply Forall_fmap_ext, Forall_forall. intros x Hx%elem_of_seq.
    rewrite decide_False by lia. done.
  - replace (1 + (r - 1)) with r by lia.
    rewrite <- (fmap_S_seq r), <- list_fmap_compose.
    rewrite <- (list_fmap_id (seq r (n - r))) at 2.
    apply Forall_fmap_ext, Forall_forall. intros x Hx%elem_of_seq. simpl.
    rewrite decide_True by lia. lia.
Qed.

Lemma softDelete_dense b cardId now st st' :
  dense b st →
  (∀ c, cards st !! cardId = Some c → Card.deletedAt c = None) →
  softDelete cardId now st = inr st' → dense b st'.
Proof.
  intros Hd Hlive. unfold softDelete.
  destruct (cards st !! cardId) as [c|] eqn:Hc; [|done].
  pose proof (Hlive c eq_refl) as Hdel. intros [= <-].
  set (n := length (ranksIn b (cards st))).
  pose proof (ranksIn_dense _ _ Hd) as Hn. fold n in Hn.
  rewrite (ranksIn_split b _ _ _ Hc) in Hn.
  assert (Hnew : ranksIn b (cards (setCards
             (<[cardId := Card.withDeletedAt (Some now) c]>
                (shiftDown (Card.boardId c) (Card.rank c) <$> cards st)) st))
           ≡ₚ (λ kc, Card.rank (shiftDown (Card.boardId c) (Card.rank c) kc.2))
                <$> filter (λ kc, isActive b kc.2)
                      (map_to_list (delete cardId (cards st)))).
  { simpl. rewrite ranksIn_overwrite.
    rewrite rankOf_inactive by (intros [_ [=]]). simpl.
    rewrite <- fmap_delete.
    by rewrite (ranksIn_fmap b) by (intros; apply isActive_shiftDown). }
  destruct (decide (isActive b c)) as [Hact|Hact].
  - rewrite rankOf_active in Hn by done. simpl in Hn.
    apply (dense_ranksIn b _ (n - 1)). rewrite Hnew.
    rewrite <- (close_gap _ _ _ Hn). unfold ranksIn.
    rewrite <- list_fmap_compose.
    apply eq_Permutation, fmap_filter_ext. intros [j x] Hx. simpl in *.
    unfold shiftDown. destruct Hact as [-> _].
    destruct (decide (Card.rank c < Card.rank x)).
    + rewrite decide_True by done. done.
    + rewrite decide_False by tauto. done.
  - rewrite rankOf_inactive in Hn by done. simpl in Hn.
    apply (dense_ranksIn b _ n). rewrite Hnew, <- Hn. unfold ranksIn.
    apply eq_Permutation, fmap_filter_ext. intros [j x] Hx. simpl in *.
    unfold shiftDown. rewrite decide_False; [done|].
    intros [[Hb Hdx] _]. destruct Hx as [Hbx _]. apply Hact.
    split; [congruence|done].
Qed.

(** *** reorder *)

Lemma moveItem_perm {A} (from to : nat) (l : list A) : moveItem from to l ≡ₚ l.
Proof.
  unfold moveItem. destruct (l !! from) as [x|] eqn:Hx; [|done].
  rewrite <- Permutation_middle, take_drop. symmetry.
  by apply delete_Permutation.
Qed.

Lemma isActive_rerank b now r c : isActive b (rerank now r c) ↔ isActive b c.
Proof. unfold rerank. by case_decide. Qed.

Lemma rank_rerank now r c : Card.rank (rerank now r c) = r.
Proof. unfold rerank. by case_decide. Qed.

Lemma elem_of_activeCards b st k c :
  (k, c) ∈ activeCards b st ↔ cards st !! k = Some c ∧ isActive b c.
Proof.
  unfold activeCards. rewrite merge_sort_Permutation, list_elem_of_filter.
  rewrite elem_of_map_to_list. simpl. tauto.
Qed.

Lemma activeCards_keys_NoDup b st : NoDup (activeCards b st).*1.
Proof.
  unfold activeCards. rewrite merge_sort_Permutation.
  eapply sublist_NoDup; [apply (NoDup_fst_map_to_list (cards st))|].
  apply fmap_sublist, sublist_filter.
Qed.

Lemma ranksIn_nil b m :
  (∀ k c, m !! k = Some c → ¬ isActive b c) → ranksIn b m = [].
Proof.
  intros Hno. unfold ranksIn.
  destruct (filter _ (map_to_list m)) as [|[k c] l] eqn:E; [done|].
  assert ((k, c) ∈ filter (λ kc, isActive b kc.2) (map_to_list m)) as Hin
    by (rewrite E; left).
  apply list_elem_of_filter in Hin as [Ha Hin%elem_of_map_to_list].
  by destruct (Hno k c Hin).
Qed.

(** Renumbering the cards under [keys], all in the ranking of [b], gives
    them the ranks n+1, n+2, ... and leaves the other ranks of [b] alone. *)
Lemma renumber_ranks b now keys : ∀ n m,
  NoDup keys →
  (∀ k, k ∈ keys → ∃ c, m !! k = Some c ∧ isActive b c) →
  ranksIn b (renumberFrom now n keys m)
    ≡ₚ seq (S n) (length keys) ++ ranksIn b (foldr delete m keys).
Proof.
  induction keys as [|k ks IH]; intros n m Hnd Hin; [done|].
  apply NoDup_cons in Hnd as [Hk Hnd].
  destruct (Hin k) as (c & Hc & Hact); [left|].
  cbn [renumberFrom length seq foldr].
  set (f := rerank now (S n)). set (m1 := alter f k m).
  rewrite IH; [|done|]; last first.
  { intros k' Hk'. destruct (Hin k') as (c' & Hc' & Hact'); [by right|].
    exists c'. split; [|done]. unfold m1.
    rewrite lookup_alter_ne; [done|]. intros ->. done. }
  assert (Hm1 : foldr delete m1 ks !! k = Some (f c)).
  { rewrite lookup_foldr_delete_not_elem_of by done.
    unfold m1. by rewrite lookup_alter_eq, Hc. }
  rewrite (ranksIn_split b _ _ _ Hm1).
  rewrite rankOf_active by by apply isActive_rerank.
  unfold f at 1. rewrite rank_rerank.
  assert (Hdel : delete k (foldr delete m1 ks) = delete k (foldr delete m ks)).
  { apply map_eq. intros j. rewrite !lookup_delete.
    case_decide; [done|].
    destruct (decide (j ∈ ks)) as [Hj|Hj].
    - by rewrite !lookup_foldr_delete.
    - rewrite !lookup_foldr_delete_not_elem_of by done.
      unfold m1. by rewrite lookup_alter_ne. }
  rewrite Hdel. simpl. by rewrite <- Permutation_middle.
Qed.

(** Renumbering cards that are not in the ranking of [b] does not touch
    the ranks of [b]. *)
Lemma renumber_other b now keys : ∀ n m,
  (∀ k c, k ∈ keys → m !! k = Some c → ¬ isActive b c) →
  ranksIn b (renumberFrom now n keys m) ≡ₚ ranksIn b m.
Proof.
  induction keys as [|k ks IH]; intros n m Hout; [done|].
  cbn [renumberFrom]. set (f := rerank now (S n)).
  rewrite IH.
  - destruct (m !! k) as [c|] eqn:Hc.
    + rewrite (alter_alt_Some f m k c Hc), ranksIn_overwrite.
      rewrite (ranksIn_split b m k c Hc).
      assert (¬ isActive b c) as Hna by (apply (Hout k); [left|done]).
      rewrite !rankOf_inactive
        by (try done; unfold f; by rewrite isActive_rerank).
      done.
    + rewrite alter_id; [done|]. intros x. congruence.
  - intros k' c' Hk'. destruct (decide (k = k')) as [<-|Hne].
    + rewrite lookup_alter_eq.
      destruct (m !! k) as [c|] eqn:Hc; [|done]. intros [= <-].
      unfold f. rewrite isActive_rerank. apply (Hout k); [left|done].
    + rewrite lookup_alter_ne by done. apply Hout. by right.
Qed.

Lemma reorder_dense_same b cardId fromIndex toIndex now st st' :
  reorder b cardId fromIndex toIndex now st = inr st' → dense b st'.
Proof.
  unfold reorder. case_decide; [|done].
  destruct (activeCards b st !! Z.to_nat fromIndex) as [[k c0]|]; [|done].
  case_decide; [|done]. intros [= <-].
  set (order := moveItem _ _ (activeCards b st)).
  assert (Hperm : order.*1 ≡ₚ (activeCards b st).*1)
    by apply fmap_Permutation, moveItem_perm.
  assert (Hkey : ∀ k', k' ∈ order.*1 ↔ ∃ c, cards st !! k' = Some c ∧ isActive b c).
  { intros k'. rewrite Hperm, list_elem_of_fmap. split.
    - intros ([j c] & -> & Hjc). exists c. by apply elem_of_activeCards.
    - intros (c & Hc). exists (k', c). split; [done|].
      by apply elem_of_activeCards. }
  apply (dense_ranksIn b _ (length order.*1)). simpl cards.
  rewrite renumber_ranks.
  - rewrite ranksIn_nil; [by rewrite app_nil_r|].
    intros j c [Hj Hc]%lookup_foldr_delete_Some Hact.
    apply Hj, Hkey. eauto.
  - rewrite Hperm. apply activeCards_keys_NoDup.
  - intros k' Hk'. by apply Hkey.
Qed.

Lemma reorder_dense b' b cardId fromIndex toIndex now st st' :
  dense b' st → reorder b cardId fromIndex toIndex now st = inr st' →
  dense b' st'.
Proof.
  intros Hd Hre. destruct (decide (b' = b)) as [->|Hne].
  { by eapply reorder_dense_same. }
  revert Hre. unfold reorder. case_decide; [|done].
  destruct (activeCards b st !! Z.to_nat fromIndex) as [[k c0]|]; [|done].
  case_decide; [|done]. intros [= <-].
  apply (dense_ranksIn b' _ (length (ranksIn b' (cards st)))). simpl cards.
  rewrite renumber_other; [by apply ranksIn_dense|].
  intros k' c Hk' Hc [Hb _].
  apply list_elem_of_fmap in Hk' as ([j c'] & -> & Hin).
  rewrite moveItem_perm in Hin.
  apply elem_of_activeCards in Hin as [Hc' [Hb' _]]. simpl in *.
  congruence.
Qed.

(** *** Sequences of operations *)

Lemma apply_dense b op st :
  dense b st → expected op st → dense b (apply op st).
Proof.
  intros Hd Hop. unfold apply.
  destruct (step op st) as [e|st'] eqn:E; [done|].
  destruct op; simpl in E, Hop.
  - by eapply append_dense.
  - by eapply reorder_dense.
  - eapply softDelete_dense; [done| |done].
    intros c Hc. by rewrite Hc in Hop.
Qed.

Lemma run_dense b ops :
  ∀ st, dense b st → allExpected ops st → dense b (run ops st).
Proof.
  induction ops as [|op ops IH]; intros st Hd Hops; [done|].
  destruct Hops as [Hop Hops]. apply IH; [by apply apply_dense|done].
Qed.

Lemma run_app ops1 ops2 st : run (ops1 ++ ops2) st = run ops2 (run ops1 st).
Proof. unfold run. apply foldl_app. Qed.

End RankFacts.

(* --------------------------------------------------------------------- *)
(** ** Ranks: the claim, the seed loader, a run                           *)
(* --------------------------------------------------------------------- *)

Section RankClaims.
Import Storage SinglesInfernoS5.

(** A board none of whose cards is in the store is dense: N = 0. *)
Lemma dense_no_cards b st :
  (∀ k c, cards st !! k = Some c → ¬ isActive b c) → dense b st.
Proof.
  intros Hno. apply (dense_ranksIn b st 0). by rewrite ranksIn_nil.
Qed.

(** The seed loader, run on a store without cards, numbers the cards of
    each of its two boards 1..N, whichever placeholder images failed. *)
Lemma loadSinglesInfernoS5_dense now failed bs :
  let st := loadSinglesInfernoS5 now failed (mkStore bs ∅ ∅) in
  (getBoard WOMEN_BOARD_ID (mkStore bs ∅ ∅) = None ∨
   getBoard MEN_BOARD_ID (mkStore bs ∅ ∅) = None) →
  activeRanks WOMEN_BOARD_ID st = seq 1 6 ∧
  activeRanks MEN_BOARD_ID st = seq 1 7.
Proof.
  intros st Hmiss. subst st. unfold loadSinglesInfernoS5.
  destruct (getBoard WOMEN_BOARD_ID _), (getBoard MEN_BOARD_ID _);
    try (destruct Hmiss; discriminate); split; vm_compute; reflexivity.
Qed.

(** C3, as stated, fails. On the board A = 1, B = 2, C = 3, whose ranks
    are dense, the append of a card with the id of A puts the new card in
    the place of A with rank 4 and leaves the ranks 2, 3, 4; and the
    softDelete of A, twice, decrements C a second time and leaves the
    ranks 1, 1. Neither board is dense afterwards. *)
Lemma rank_manager_repeats_break_density :
  dense "b" Scenario.abc ∧
  activeRanks "b" (run Scenario.appendAgain Scenario.abc) = [2; 3; 4] ∧
  ¬ dense "b" (run Scenario.appendAgain Scenario.abc) ∧
  activeRanks "b" (run Scenario.deleteTwice Scenario.abc) = [1; 1] ∧
  ¬ dense "b" (run Scenario.deleteTwice Scenario.abc).
Proof.
  split_and!; try (vm_compute; reflexivity); vm_compute; discriminate.
Qed.

(** C3. Whatever sequence of append, reorder and softDelete operations is
    run on a store in which the board's ranks are dense, each append
    being of a card whose id the store does not hold yet and each
    softDelete of a card that is not deleted already, afterwards the
    ranks of the board's non-deleted cards, in ascending order, are 1..N
    with N the count of these cards: no duplicate, and a rank occurs
    exactly when it lies between 1 and N. *)
Theorem rank_manager_keeps_ranks_dense (b : string) (st : Store) (ops : list Op) :
  dense b st →
  allExpected ops st →
  let after := run ops st in
  let N := length (activeCards b after) in
  activeRanks b after = seq 1 N ∧
  NoDup (activeRanks b after) ∧
  (∀ r, r ∈ activeRanks b after ↔ 1 ≤ r ≤ N).
Proof.
  intros Hd Hops after N.
  assert (Hafter : activeRanks b after = seq 1 N) by by apply run_dense.
  split; [done|]. rewrite Hafter. split; [apply NoDup_seq|].
  intros r. rewrite elem_of_seq. lia.
Qed.

Lemma rank_manager_keeps_ranks_dense_witness :
  dense WOMEN_BOARD_ID Scenario.seeded ∧
  allExpected Scenario.someOps Scenario.seeded ∧
  activeRanks WOMEN_BOARD_ID (run Scenario.someOps Scenario.seeded)
    = seq 1 (length (activeCards WOMEN_BOARD_ID
                       (run Scenario.someOps Scenario.seeded))).
Proof.
  split; [vm_compute; reflexivity|].
  split; [apply (bool_decide_unpack _); vm_compute; exact I|].
  apply (rank_manager_keeps_ranks_dense WOMEN_BOARD_ID Scenario.seeded
           Scenario.someOps).
  - vm_compute; reflexivity.
  - apply (bool_decide_unpack _); vm_compute; exact I.
Defined.

(** From a store without cards every board stays dense. *)
Corollary ranks_dense_from_no_cards b bs snaps ops :
  allExpected ops (mkStore bs ∅ snaps) →
  dense b (run ops (mkStore bs ∅ snaps)).
Proof.
  intros Hops. apply run_dense; [|done]. apply dense_no_cards. simpl.
  intros k c. by rewrite lookup_empty.
Qed.

(** The run above: six cards are left, in this order. *)
Example someOps_result :
  (λ c, (Card.id c, Card.rank c)) <$>
     getCardsByBoard WOMEN_BOARD_ID (run Scenario.someOps Scenario.seeded) =
  [ ("si5-ham-ye-jin", 1); ("si5-kim-min-ji", 2); ("si5-park-hee-sun", 3);
    ("si5-lee-joo-young", 4); ("si5-choi-mina-sue", 5); ("card-new", 6) ].
Proof. vm_compute. reflexivity. Qed.

(** Scenario 1 of section 8: on A=1, B=2, C=3 moving B from index 1 to
    index 0 gives B=1, A=2, C=3. *)
Example reorder_scenario :
  let card i r := Card.mk i "b" i "" None None None "" ∅ r 0 0 None in
  let st := mkStore {[ "b" := Board.mk "b" "Board" None 0 0 None ]}
              {[ "A" := card "A" 1; "B" := card "B" 2; "C" := card "C" 3 ]} ∅ in
  (λ c, (Card.id c, Card.rank c)) <$>
     getCardsByBoard "b" (apply (Reorder "b" "B" 1 0 10) st) =
  [ ("B", 1); ("A", 2); ("C", 3) ].
Proof. vm_compute. reflexivity. Qed.

End RankClaims.

(* --------------------------------------------------------------------- *)
(** ** Snapshots own their entries                                        *)
(* --------------------------------------------------------------------- *)

Section SnapshotFacts.
Import Storage SinglesInfernoS5.

Lemma apply_snapshots op st : snapshots (apply op st) = snapshots st.
Proof.
  unfold apply. destruct (step op st) as [e|st'] eqn:E; [done|].
  destruct op; simpl in E.
  - unfold append in E. repeat case_match; simplify_eq; done.
  - unfold reorder in E. repeat case_match; simplify_eq; done.
  - unfold softDelete in E. repeat case_match; simplify_eq; done.
Qed.

Lemma applyEdit_snapshots e st : snapshots (applyEdit e st) = snapshots st.
Proof. destruct e; simpl; auto using apply_snapshots. Qed.

Lemma runEdits_snapshots es : ∀ st, snapshots (runEdits es st) = snapshots st.
Proof.
  induction es as [|e es IH]; intros st; [done|].
  simpl. fold (runEdits es (applyEdit e st)).
  by rewrite IH, applyEdit_snapshots.
Qed.

(** What capture stores: the entries are the values the cards had when
    capture ran. *)
Lemma capture_copies snapshotId b label notes now st s st1 :
  capture snapshotId b label notes now st = inr (s, st1) →
  getSnapshot snapshotId st1 = Some s ∧
  Snapshot.rankings s = entryOf <$> getCardsByBoard b st.
Proof.
  unfold capture. destruct (boards st !! b); [|done]. intros [= <- <-].
  split; [|done]. unfold getSnapshot, saveSnapshot. simpl.
  apply lookup_insert_eq.
Qed.

(** What the seed loader puts into an episode: every entry carries the
    id, the name and the thumbnail key of the card found for it when the
    episode was built, and the position of its id in the episode order. *)
Lemma rankingsOf_copies cardMap order e :
  e ∈ rankingsOf cardMap order →
  ∃ index cardId card,
    order !! index = Some cardId ∧ cardMap !! cardId = Some card ∧
    e = RankingEntry.mk (Card.id card) (Card.name card) (index + 1)
          (Card.thumbnailKey card).
Proof.
  unfold rankingsOf. rewrite list_elem_of_omap.
  intros (o & Ho & ->). apply list_elem_of_lookup in Ho as [index Hi].
  rewrite list_lookup_imap in Hi.
  destruct (order !! index) as [cardId|] eqn:Hord; [|done]. simpl in Hi.
  destruct (cardMap !! cardId) as [card|] eqn:Hcard; [|done].
  injection Hi as <-. by exists index, cardId, card.
Qed.

Lemma cardMapOf_lookup cs k c :
  cardMapOf cs !! k = Some c → c ∈ cs ∧ Card.id c = k.
Proof.
  unfold cardMapOf.
  assert (∀ m : gmap string Card,
            foldl (λ m c, <[Card.id c := c]> m) m cs !! k = Some c →
            (c ∈ cs ∧ Card.id c = k) ∨ m !! k = Some c) as Hgen.
  { induction cs as [|x cs IH]; intros m; simpl; [by right|].
    intros [[Hin Hid]|Hm]%IH.
    - left. split; [by right|done].
    - destruct (decide (Card.id x = k)) as [<-|Hne].
      + rewrite lookup_insert_eq in Hm. injection Hm as <-.
        left. split; [by left|done].
      + rewrite lookup_insert_ne in Hm by done. by right. }
  intros [H|H]%Hgen; [done|]. by rewrite lookup_empty in H.
Qed.

Lemma saveSnapshots_lookup ss : ∀ st snapshotId s,
  getSnapshot snapshotId (saveSnapshots ss st) = Some s →
  s ∈ ss ∨ getSnapshot snapshotId st = Some s.
Proof.
  unfold saveSnapshots, getSnapshot.
  induction ss as [|x ss IH]; intros st sid s; simpl; [by right|].
  intros [Hin|Hst]%IH; [left; by right|]. simpl in Hst.
  destruct (decide (Snapshot.id x = sid)) as [<-|Hne].
  - rewrite lookup_insert_eq in Hst. injection Hst as <-. left. by left.
  - rewrite lookup_insert_ne in Hst by done. by right.
Qed.

(** A snapshot the seed loader has just added: every entry repeats the id,
    the name and the thumbnail key of a card that was on the snapshot's
    board when the loader ran. *)
Lemma loaded_snapshot_copies clock st snapshotId s :
  getSnapshot snapshotId st = None →
  getSnapshot snapshotId (loadSinglesInfernoS5Snapshots clock st).2 = Some s →
  ∀ e, e ∈ Snapshot.rankings s →
    ∃ card, card ∈ getCardsByBoard (Snapshot.boardId s) st ∧
            RankingEntry.cardId e = Card.id card ∧
            RankingEntry.cardName e = Card.name card ∧
            RankingEntry.thumbnailKey e = Card.thumbnailKey card ∧
            1 ≤ RankingEntry.rank e.
Proof.
  intros Hnew. unfold loadSinglesInfernoS5Snapshots.
  destruct (getBoard WOMEN_BOARD_ID st), (getBoard MEN_BOARD_ID st);
    cbn [snd]; try congruence.
  case_decide; cbn [snd]; [congruence|].
  case_decide; cbn [snd]; [congruence|].
  intros [Hin|[Hin|Hold]%saveSnapshots_lookup]%saveSnapshots_lookup e He;
    [| |congruence];
    apply elem_of_lookup_imap in Hin as (ep & order & -> & _);
    cbn [Snapshot.rankings Snapshot.boardId episodeSnapshot] in *;
    apply rankingsOf_copies in He as (index & cardId & card & _ & Hc & ->);
    apply cardMapOf_lookup in Hc as [Hc _];
    exists card; cbn; repeat split; try done; lia.
Qed.


(** capture followed by any card edits: the entries read back are those of
    the cards at capture time. *)
Corollary capture_then_edits snapshotId b label notes now st s st1 es :
  capture snapshotId b label notes now st = inr (s, st1) →
  Snapshot.rankings <$> getSnapshot snapshotId (runEdits es st1)
    = Some (entryOf <$> getCardsByBoard b st).
Proof.
  intros [Hs <-]%capture_copies. unfold getSnapshot in *.
  by rewrite runEdits_snapshots, Hs.
Qed.

(** Renaming a card after the episodes were built: the card has the new
    name, the entry of episode 1 still has the old one. *)
Example rename_after_snapshot :
  let after := runEdits Scenario.someEdits Scenario.withHistory in
  Card.name <$> cards after !! "si5-park-hee-sun" = Some "Somebody Else" ∧
  cards after !! "si5-kim-go-eun" = None ∧
  (λ s, (λ e, (RankingEntry.cardName e, RankingEntry.rank e)) <$>
          take 2 (Snapshot.rankings s))
    <$> getSnapshot "snapshot-women-ep1" after
  = Some [ ("Park Hee Sun", 1); ("Kim Go Eun", 2) ].
Proof. vm_compute. repeat split; reflexivity. Qed.

(** Scenario 2 of section 8: two cards, capture, delete one, capture again:
    episodes 1 and 2, one entry in the second and still two in the first. *)
Example capture_scenario :
  let card i r := Card.mk i "b" i "" None None None "" ∅ r 0 0 None in
  let st := mkStore {[ "b" := Board.mk "b" "Board" None 0 0 None ]}
              {[ "A" := card "A" 1; "B" := card "B" 2 ]} ∅ in
  ∃ s1 st1 s2 st2,
    capture "s1" "b" "one" "" 10 st = inr (s1, st1) ∧
    capture "s2" "b" "two" "" 30 (apply (SoftDelete "A" 20) st1) = inr (s2, st2) ∧
    Snapshot.episodeNumber s1 = 1 ∧ Snapshot.episodeNumber s2 = 2 ∧
    length (Snapshot.rankings s2) = 1 ∧
    (length ∘ Snapshot.rankings) <$> getSnapshot "s1" st2 = Some 2.
Proof.
  intros card st. unfold capture. subst st. cbn [boards].
  rewrite lookup_singleton_eq. do 2 eexists.
  set (st1 := saveSnapshot _ _).
  assert (boards (apply (SoftDelete "A" 20) st1) !! "b" =
            Some (Board.mk "b" "Board" None 0 0 None)) as ->
    by (vm_compute; reflexivity).
  do 2 eexists. split; [reflexivity|]. split; [reflexivity|].
  vm_compute. repeat split; reflexivity.
Qed.

End SnapshotFacts.


(* --------------------------------------------------------------------- *)
(** ** Remote calls                                                       *)
(* --------------------------------------------------------------------- *)

Section JsFacts.
Import Js.
Context {D : Type}.

Lemma quiet_S n (w : World D) :
  quiet (S n) w →
  ∃ rest, (faults w = [] ∧ rest = []) ∨ faults w = None :: rest.
Proof.
  unfold quiet. destruct (faults w) as [|[e|] rest]; simpl.
  - exists []. by left.
  - intros H. by apply Forall_cons_1 in H as [? _].
  - exists rest. by right.
Qed.

(** A remote call that goes through. *)
Lemma remote_quiet {A} (f : D → Z → A * D) n (w : World D) :
  quiet (S n) w →
  remote f w = (inr (f (db w) (clock w)).1, after 1 (f (db w) (clock w)).2 w) ∧
  quiet n (after 1 (f (db w) (clock w)).2 w).
Proof.
  unfold quiet, remote, after. destruct w as [d t fs]; simpl.
  destruct fs as [|[e|] rest]; simpl; intros Hq.
  - destruct (f d t); simpl. split; [done|]. rewrite take_nil. constructor.
  - by apply Forall_cons_1 in Hq as [? _].
  - apply Forall_cons_1 in Hq as [_ Hq]. destruct (f d t); simpl.
    rewrite drop_0. done.
Qed.

Lemma after_after n k (d d' : D) (w : World D) :
  after n d' (after k d w) = after (k + n) d' w.
Proof. unfold after. simpl. by rewrite drop_drop. Qed.

Lemma quiet_le n k (w : World D) : k ≤ n → quiet n w → quiet k w.
Proof.
  unfold quiet. intros Hle Hq.
  replace k with (k `min` n) by lia. rewrite <- take_take.
  by apply Forall_take.
Qed.

(** Where the first fault among the next calls sits. *)
Lemma first_fault n (w : World D) :
  ¬ quiet n w →
  ∃ k e rest, k < n ∧ faults w = replicate k None ++ Some e :: rest.
Proof.
  unfold quiet. generalize (faults w). clear w.
  induction n as [|n IH]; intros fs Hq.
  - destruct Hq. rewrite take_0. constructor.
  - destruct fs as [|[e|] fs].
    + destruct Hq. constructor.
    + exists 0, e, fs. split; [lia|done].
    + destruct (IH fs) as (k & e & rest & Hk & ->).
      { intros Hq'. apply Hq. simpl. by constructor. }
      exists (S k), e, rest. split; [lia|done].
Qed.

End JsFacts.

(* --------------------------------------------------------------------- *)
(** ** Rate limiting                                                      *)
(* --------------------------------------------------------------------- *)

Section RateLimitFacts.
Import Js RateLimiting.

Implicit Types (w : World Firestore) (uid : string).

Lemma countDocumentsSince_mock c uid f s w :
  countDocumentsSince true c uid f s w = (inr 0%Z, w).
Proof. done. Qed.

Lemma countDocumentsSince_quiet c uid f s w :
  quiet 3 w →
  countDocumentsSince false c uid f s w =
    (inr (Z.of_nat (length (runQuery c uid f s (db w)))), after 3 (db w) w).
Proof.
  intros Hq. unfold countDocumentsSince, tryCatch, bind, getFirebaseDb,
    importFirestore.
  destruct (remote_quiet (λ d (_ : Z), (tt, d)) 2 w Hq) as [-> Hq2].
  cbn [fst snd] in *.
  destruct (remote_quiet (λ d (_ : Z), (tt, d)) 1 _ Hq2) as [-> Hq1].
  cbn [fst snd] in *.
  destruct (remote_quiet (λ d (_ : Z), (runQuery c uid f s d, d)) 0 _ Hq1)
    as [-> _].
  cbn [fst snd]. rewrite !after_after. done.
Qed.

(** A failed query counts as zero: "default to allowing on error". *)
Lemma countDocumentsSince_fails c uid f s w :
  ¬ quiet 3 w →
  ∃ w', countDocumentsSince false c uid f s w = (inr 0%Z, w') ∧ db w' = db w.
Proof.
  intros (k & e & rest & Hk & Hf)%first_fault.
  unfold countDocumentsSince, tryCatch, bind, getFirebaseDb, importFirestore,
    remote, ret.
  destruct w as [d t fs]; simpl in *. subst fs.
  destruct k as [|[|[|k]]]; [| | |lia]; simpl; eauto.
Qed.

Lemma countDocumentsSince_returns mock c uid f s w :
  ∃ n w', countDocumentsSince mock c uid f s w = (inr n, w') ∧ db w' = db w.
Proof.
  destruct mock; [by exists 0%Z, w|].
  destruct (decide (quiet 3 w)) as [Hq|Hq].
  - rewrite countDocumentsSince_quiet by done. by eexists _, _.
  - destruct (countDocumentsSince_fails c uid f s w Hq) as (w' & -> & ?).
    by exists 0%Z, w'.
Qed.

Lemma falsy_Some uid : uid ≠ "" → falsy (Some uid) = false.
Proof. intros. unfold falsy. by rewrite bool_decide_eq_false. Qed.

(** The three checks, when the query goes through. *)
Lemma checkReportLimit_quiet uid w :
  uid ≠ "" → quiet 3 w →
  checkReportLimit false (Some uid) w =
    (inr (verdict (reports RATE_LIMITS)
            (recent "reports" "reporterId" uid (reports RATE_LIMITS) w)
            (reportMessage 10)),
     after 3 (db w) w).
Proof.
  intros Hu Hq. unfold checkReportLimit. rewrite falsy_Some by done.
  unfold bind at 1. unfold dateNow. unfold bind.
  by rewrite countDocumentsSince_quiet.
Qed.

(** The three checks, when the query fails. *)
Lemma checkFriendRequestLimit_fails uid w :
  uid ≠ "" → queryFails w →
  ∃ w', checkFriendRequestLimit false (Some uid) w
          = (inr (mkResult true 20 None), w') ∧ db w' = db w.
Proof.
  intros Hu Hq. unfold checkFriendRequestLimit. rewrite falsy_Some by done.
  unfold bind at 1. unfold dateNow. unfold bind. cbn [default from_option id].
  destruct (countDocumentsSince_fails "friendships" uid "requestedBy"
              (clock w - windowMs (friendRequests RATE_LIMITS)) w Hq)
    as (w' & -> & Hdb).
  by exists w'.
Qed.

Lemma checkReportLimit_fails uid w :
  uid ≠ "" → queryFails w →
  ∃ w', checkReportLimit false (Some uid) w
          = (inr (mkResult true 10 None), w') ∧ db w' = db w.
Proof.
  intros Hu Hq. unfold checkReportLimit. rewrite falsy_Some by done.
  unfold bind at 1. unfold dateNow. unfold bind. cbn [default from_option id].
  destruct (countDocumentsSince_fails "reports" uid "reporterId"
              (clock w - windowMs (reports RATE_LIMITS)) w Hq)
    as (w' & -> & Hdb).
  by exists w'.
Qed.

Lemma checkBoardCreationLimit_fails uid w :
  uid ≠ "" → queryFails w →
  ∃ w', checkBoardCreationLimit false (Some uid) w
          = (inr (mkResult true 50 None), w') ∧ db w' = db w.
Proof.
  intros Hu Hq. unfold checkBoardCreationLimit. rewrite falsy_Some by done.
  unfold bind at 1. unfold dateNow. unfold bind. cbn [default from_option id].
  destruct (countDocumentsSince_fails "boards" uid "ownerId"
              (clock w - windowMs (boards RATE_LIMITS)) w Hq)
    as (w' & -> & Hdb).
  by exists w'.
Qed.

(** No check ever throws, whatever the configuration, user and world. *)
Lemma checks_never_throw mock userId w :
  (∃ r w', checkFriendRequestLimit mock userId w = (inr r, w')) ∧
  (∃ r w', checkReportLimit mock userId w = (inr r, w')) ∧
  (∃ r w', checkBoardCreationLimit mock userId w = (inr r, w')).
Proof.
  unfold checkFriendRequestLimit, checkReportLimit, checkBoardCreationLimit.
  destruct (falsy userId); [by repeat split; eexists _, _|].
  unfold bind at 1 3 5. unfold dateNow. unfold bind.
  repeat split.
  - destruct (countDocumentsSince_returns mock "friendships"
                (default "" userId) "requestedBy"
                (clock w - windowMs (friendRequests RATE_LIMITS)) w)
      as (n & w' & -> & _). by eexists _, _.
  - destruct (countDocumentsSince_returns mock "reports"
                (default "" userId) "reporterId"
                (clock w - windowMs (reports RATE_LIMITS)) w)
      as (n & w' & -> & _). by eexists _, _.
  - destruct (countDocumentsSince_returns mock "boards"
                (default "" userId) "ownerId"
                (clock w - windowMs (boards RATE_LIMITS)) w)
      as (n & w' & -> & _). by eexists _, _.
Qed.

(** *** checkReportLimit *)

Lemma verdict_cases (l : Limit) (n : Z) msg :
  let r := verdict l n msg in
  remaining r = Z.max 0 (count l - n) ∧
  allowed r = bool_decide (0 < remaining r)%Z ∧
  ((n < count l)%Z → allowed r = true ∧ error r = None) ∧
  ((count l ≤ n)%Z → allowed r = false ∧ remaining r = 0%Z ∧ error r = Some msg).
Proof.
  unfold verdict. cbn [remaining allowed error].
  repeat split.
  - apply bool_decide_eq_true. lia.
  - rewrite bool_decide_eq_true_2 by lia. done.
  - apply bool_decide_eq_false. lia.
  - lia.
  - rewrite bool_decide_eq_false_2 by lia. done.
Qed.

(** C5, as stated, fails, at three inputs. User "u" has ten reports in the
    window and the read of the query is rejected: the count is taken as 0
    and the check answers allowed with 10 remaining. The same ten reports
    with mock authentication on: no query is made and the answer is the
    same. And the empty user id, which is not null, counts as signed out:
    nothing remains although it has no report. *)
Lemma reportLimit_refuted :
  (Some "u" ≠ None ∧ ¬ reportLimitSpec false (Some "u") (Worlds.readFails 10)) ∧
  (Some "u" ≠ None ∧ ¬ reportLimitSpec true (Some "u") (Worlds.calm 10)) ∧
  (Some "" ≠ None ∧ ¬ reportLimitSpec false (Some "") (Worlds.calm 10)).
Proof.
  repeat split; try done;
    intros (r & w' & Hrun & Hrem & _);
    vm_compute in Hrun; injection Hrun as <- _;
    vm_compute in Hrem; discriminate Hrem.
Qed.

(** C5, amended. For a user id that is neither null nor empty, with mock
    authentication off and the three remote calls of the query going
    through, checkReportLimit returns remaining = max(0, 10 - count) for the
    count of the user's reports of the trailing 24 hours and allowed =
    remaining > 0: up to nine reports are let through, ten or more are
    refused with the message naming the ceiling of 10. *)
Theorem checkReportLimit_window (uid : string) (w : World Firestore) :
  uid ≠ "" → quiet 3 w → reportLimitSpec false (Some uid) w.
Proof.
  intros Hu Hq. unfold reportLimitSpec.
  eexists _, _. split; [by apply checkReportLimit_quiet|].
  cbn [default from_option id].
  set (n := recent _ _ _ _ _).
  destruct (verdict_cases (reports RATE_LIMITS) n (reportMessage 10))
    as (Hrem & Hall & Hlow & Hhigh).
  cbn [count reports RATE_LIMITS] in *.
  repeat split; try done.
  - intros Hn. apply Hlow. lia.
  - by apply Hhigh.
  - by apply Hhigh.
Qed.

Lemma checkReportLimit_window_witness :
  reportLimitSpec false (Some "u") (Worlds.calm 9).
Proof.
  apply (checkReportLimit_window "u" (Worlds.calm 9)).
  - discriminate.
  - vm_compute. constructor.
Defined.

(** The tenth report is let through, the eleventh is refused. *)
Example tenth_and_eleventh_report :
  (checkReportLimit false (Some "u") (Worlds.calm 9)).1
    = inr (mkResult true 1 None) ∧
  (checkReportLimit false (Some "u") (Worlds.calm 10)).1
    = inr (mkResult false 0
             (Some "You can only submit 10 reports per day. Please try again later.")).
Proof. split; vm_compute; reflexivity. Qed.

(** Reports older than the window, or of somebody else, do not count. *)
Example old_reports_do_not_count :
  let d : Firestore :=
    {[ "reports" := replicate 12 (Worlds.reportBy "u" 1000) ++
                      replicate 12 (Worlds.reportBy "v" 99999000) ]} in
  (checkReportLimit false (Some "u") (mkWorld d 100000000 [])).1
    = inr (mkResult true 10 None).
Proof. vm_compute. reflexivity. Qed.

(** The cases of the rate limiting tests, which run with the mock on: a
    signed-in user is let through by all three checks, null is not. *)
Example rate_limit_tests :
  (checkFriendRequestLimit true (Some "user-abc") (Worlds.calm 0)).1
    = inr (mkResult true 20 None) ∧
  (checkReportLimit true (Some "user-abc") (Worlds.calm 0)).1
    = inr (mkResult true 10 None) ∧
  (checkBoardCreationLimit true (Some "user-abc") (Worlds.calm 0)).1
    = inr (mkResult true 50 None) ∧
  (checkFriendRequestLimit true None (Worlds.calm 0)).1 = inr notSignedIn ∧
  (checkReportLimit true None (Worlds.calm 0)).1 = inr notSignedIn ∧
  (checkBoardCreationLimit true None (Worlds.calm 0)).1 = inr notSignedIn.
Proof. vm_compute. repeat split; reflexivity. Qed.

(** Scenario 5 of section 8: fifty boards of the last day, no more. *)
Example fifty_boards :
  let d : Firestore :=
    {[ "boards" := replicate 50 (mkDoc {[ "ownerId" := "u" ]} (Some 99999000%Z)) ]} in
  (checkBoardCreationLimit false (Some "u") (mkWorld d 100000000 [])).1
    = inr (mkResult false 0
             (Some "You can only create 50 boards per day. Please try again later.")).
Proof. vm_compute. reflexivity. Qed.

(** *** A failed query *)

(** C9, as stated, fails: with the read rejected, checkReportLimit returns
    the result of a user without reports, which is no error result. *)
Lemma failed_query_is_no_error_result :
  queryFails (Worlds.readFails 10) ∧
  ¬ transientErrorSpec (checkReportLimit false) (Some "u") (Worlds.readFails 10).
Proof.
  split.
  - apply (bool_decide_unpack (queryFails _)). vm_compute. exact I.
  - intros (r & w' & Hrun & Hall & _).
    vm_compute in Hrun. injection Hrun as <- _. discriminate Hall.
Qed.

(** C9, amended. When the query of a rate-limit check fails (mock
    authentication off, a user id that is neither null nor empty), the
    check does not throw: the count is taken as 0 and the check returns
    the normal result of a user without recent actions, allowed with the
    whole ceiling remaining and no error, and the documents are untouched. *)
Theorem failed_query_counts_as_zero (uid : string) (w : World Firestore) :
  uid ≠ "" → queryFails w →
  (∃ w', checkFriendRequestLimit false (Some uid) w
           = (inr (mkResult true 20 None), w') ∧ db w' = db w) ∧
  (∃ w', checkReportLimit false (Some uid) w
           = (inr (mkResult true 10 None), w') ∧ db w' = db w) ∧
  (∃ w', checkBoardCreationLimit false (Some uid) w
           = (inr (mkResult true 50 None), w') ∧ db w' = db w) ∧
  normalSuccess (mkResult true 20 None) ∧
  normalSuccess (mkResult true 10 None) ∧
  normalSuccess (mkResult true 50 None).
Proof.
  intros Hu Hq. repeat split.
  - by apply checkFriendRequestLimit_fails.
  - by apply checkReportLimit_fails.
  - by apply checkBoardCreationLimit_fails.
Qed.

Lemma failed_query_counts_as_zero_witness :
  ∃ w', checkReportLimit false (Some "u") (Worlds.readFails 10)
          = (inr (mkResult true 10 None), w') ∧
        db w' = db (Worlds.readFails 10).
Proof.
  apply (failed_query_counts_as_zero "u" (Worlds.readFails 10)).
  - discriminate.
  - apply (bool_decide_unpack (queryFails _)). vm_compute. exact I.
Defined.

End RateLimitFacts.

(* --------------------------------------------------------------------- *)
(** ** Friendships                                                        *)
(* --------------------------------------------------------------------- *)

Section FriendshipFacts.
Import Js FirestoreFriendships.

Implicit Types (w : World Friendships).

(** *** The friendship id *)

Lemma ltb_asym a b : String.ltb a b = true → String.ltb b a = false.
Proof.
  unfold String.ltb. rewrite (String.compare_antisym a b).
  by destruct (String.compare b a).
Qed.

Lemma ltb_connected a b :
  String.ltb a b = false → String.ltb b a = false → a = b.
Proof.
  unfold String.ltb. rewrite (String.compare_antisym a b).
  destruct (String.compare b a) eqn:E; simpl; try done.
  intros _ _. symmetry. by apply String.compare_eq_iff.
Qed.

Lemma sortUserIds_comm a b : sortUserIds a b = sortUserIds b a.
Proof.
  unfold sortUserIds.
  destruct (String.ltb a b) eqn:Eab, (String.ltb b a) eqn:Eba; try done.
  - apply ltb_asym in Eab. congruence.
  - by rewrite (ltb_connected a b).
Qed.

(** C6. generateFriendshipId gives the same id for (a, b) and (b, a): it is
    the two ids in lexicographic order, the smaller first, joined by "_". *)
Theorem generateFriendshipId_symmetric (a b : string) :
  generateFriendshipId a b = generateFriendshipId b a ∧
  ∃ x y, sortUserIds a b = (x, y) ∧
         String.ltb y x = false ∧
         ((x = a ∧ y = b) ∨ (x = b ∧ y = a)) ∧
         generateFriendshipId a b = x +:+ "_" +:+ y.
Proof.
  split.
  - unfold generateFriendshipId. by rewrite sortUserIds_comm.
  - unfold generateFriendshipId, sortUserIds.
    destruct (String.ltb a b) eqn:E.
    + exists a, b. repeat split; auto using ltb_asym.
    + exists b, a. repeat split; auto.
Qed.

Example friendship_id_u1_u2 :
  generateFriendshipId "u1" "u2" = "u1_u2" ∧
  generateFriendshipId "u2" "u1" = "u1_u2".
Proof. split; reflexivity. Qed.

(** *** Stepping through a service while its calls go through *)

Ltac remote_step Hq :=
  match goal with
  | |- context [remote ?f ?w0] =>
      let E := fresh "E" in
      let Q := fresh "Hq" in
      destruct (remote_quiet f _ w0 Hq) as [E Q];
      rewrite E; clear E; cbn [fst snd db clock after] in *
  end.

Lemma createFriendRequest_self mock uid w :
  createFriendRequest mock uid uid w =
    (inr (failure "You can't send a friend request to yourself"), w).
Proof. unfold createFriendRequest. by rewrite decide_True. Qed.

Lemma createFriendRequest_mock fromUid toUid w :
  fromUid ≠ toUid →
  createFriendRequest true fromUid toUid w =
    (inr (succeeded (generateFriendshipId fromUid toUid)), w).
Proof. intros. unfold createFriendRequest. by rewrite decide_False. Qed.

Lemma createFriendRequest_quiet fromUid toUid w :
  fromUid ≠ toUid → quiet 4 w →
  let friendshipId := generateFriendshipId fromUid toUid in
  let created :=
    (inr (succeeded friendshipId),
     after 4 (<[friendshipId := pendingRequest fromUid toUid (clock w)]> (db w)) w) in
  createFriendRequest false fromUid toUid w =
    match db w !! friendshipId with
    | Some existing =>
        if decide (status existing = "active") then
          (inr (failure "You are already friends with this user"),
           after 3 (db w) w)
        else if decide (status existing = "pending") then
          (inr (failure "A friend request is already pending"),
           after 3 (db w) w)
        else created
    | None => created
    end.
Proof.
  intros Hne Hq fid created. subst created.
  unfold createFriendRequest. rewrite decide_False by done.
  unfold tryCatch, bind, getFirebaseDb, importFirestore, getDoc, setDoc.
  fold fid.
  remote_step Hq. remote_step Hq0. remote_step Hq1.
  destruct (db w !! fid) as [existing|]; repeat case_decide;
    try remote_step Hq2; unfold ret; by rewrite !after_after.
Qed.

Lemma createFriendRequest_offline fromUid toUid w e rest :
  fromUid ≠ toUid → faults w = None :: None :: Some e :: rest →
  createFriendRequest false fromUid toUid w =
    (inr (failure (messageOr "Failed to send friend request" e)),
     mkWorld (db w) (clock w) rest).
Proof.
  intros Hne Hf. unfold createFriendRequest. rewrite decide_False by done.
  unfold tryCatch, bind, getFirebaseDb, importFirestore, getDoc, remote.
  destruct w as [d t fs]; simpl in *. by subst fs.
Qed.

(** C7, as stated, fails. With mock authentication on, a request between
    two users who are friends already succeeds; and with the read of the
    existing document rejected, the same request fails with the message of
    the rejection, not with the already-friends message. *)
Lemma createFriendRequest_refuted :
  ¬ createFriendRequestSpec true "u1" "u2" Worlds.friends ∧
  ¬ createFriendRequestSpec false "u1" "u2" (Worlds.offline Worlds.friends).
Proof.
  split; intros H; vm_compute in H; discriminate H.
Qed.

(** C7, amended. A request to oneself fails in every configuration. For
    two different users, with mock authentication off and the remote calls
    going through, createFriendRequest fails with the already-friends
    message when the pair's document is active, with the already-pending
    message when it is pending, and otherwise writes the pending document
    {id, users sorted, status 'pending', requestedBy from, createdAt now}
    under the pair's id and succeeds. *)
Theorem createFriendRequest_guarded (fromUid toUid : string) (w : World Friendships) :
  (∀ mock, fromUid = toUid →
     (createFriendRequest mock fromUid toUid w).1 =
       inr (failure "You can't send a friend request to yourself")) ∧
  (quiet 4 w → createFriendRequestSpec false fromUid toUid w).
Proof.
  split.
  - intros mock ->. by rewrite createFriendRequest_self.
  - intros Hq. unfold createFriendRequestSpec.
    destruct (decide (fromUid = toUid)) as [->|Hne].
    + rewrite createFriendRequest_self. by eexists.
    + rewrite createFriendRequest_quiet by done.
      destruct (db w !! generateFriendshipId fromUid toUid) as [existing|];
        repeat case_decide; done.
Qed.

Lemma createFriendRequest_guarded_witness :
  createFriendRequestSpec false "u1" "u2" Worlds.strangers ∧
  createFriendRequestSpec false "u1" "u2" Worlds.requested.
Proof.
  split.
  - apply (proj2 (createFriendRequest_guarded "u1" "u2" Worlds.strangers)).
    vm_compute. constructor.
  - apply (proj2 (createFriendRequest_guarded "u1" "u2" Worlds.requested)).
    vm_compute. constructor.
Defined.

(** Scenario 3 of section 8, first half, and the second request of a pair:
    the first call creates "u1_u2" as pending, requested by u1; the second
    fails as already pending. *)
Example request_twice :
  let '(r1, w1) := createFriendRequest false "u1" "u2" Worlds.strangers in
  let '(r2, w2) := createFriendRequest false "u2" "u1" w1 in
  r1 = inr (succeeded "u1_u2") ∧
  db w1 !! "u1_u2" =
    Some (mkFriendship "u1_u2" ("u1", "u2") "pending" "u1" 1000 None) ∧
  r2 = inr (failure "A friend request is already pending") ∧
  db w2 = db w1.
Proof. vm_compute. repeat split; reflexivity. Qed.

(** *** acceptFriendRequest *)

Lemma acceptFriendRequest_quiet friendshipId acceptingUid w :
  quiet 4 w →
  acceptFriendRequest false friendshipId acceptingUid w =
    match db w !! friendshipId with
    | None => (inr (failure "Friend request not found"), after 3 (db w) w)
    | Some friendship =>
        if decide (requestedBy friendship = acceptingUid) then
          (inr (failure "You can't accept your own friend request"),
           after 3 (db w) w)
        else if negb (includes (users friendship) acceptingUid) then
          (inr (failure "You are not part of this friend request"),
           after 3 (db w) w)
        else
          (inr (succeeded friendshipId),
           after 4 (<[friendshipId := activate (clock w) friendship]> (db w)) w)
    end.
Proof.
  intros Hq. unfold acceptFriendRequest.
  unfold tryCatch, bind, getFirebaseDb, importFirestore, getDoc, updateDoc.
  remote_step Hq. remote_step Hq0. remote_step Hq1.
  destruct (db w !! friendshipId) as [friendship|] eqn:Hdoc;
    [|unfold ret; by rewrite !after_after].
  case_decide; [unfold ret; by rewrite !after_after|].
  destruct (includes (users friendship) acceptingUid); cbn [negb];
    [|unfold ret; by rewrite !after_after].
  remote_step Hq2. unfold ret.
  by rewrite !after_after, (alter_alt_Some _ _ _ _ Hdoc).
Qed.

(** C8, as stated, fails. With mock authentication on, accepting a request
    that does not exist succeeds; and with the read rejected, the accept of
    an existing request by its addressee fails and leaves it pending. *)
Lemma acceptFriendRequest_refuted :
  ¬ acceptFriendRequestSpec true "u1_u2" "u2" Worlds.strangers ∧
  ¬ acceptFriendRequestSpec false "u1_u2" "u2" (Worlds.offline Worlds.requested).
Proof.
  split; intros H; vm_compute in H.
  - discriminate H.
  - destruct H as [H _]. discriminate H.
Qed.

(** C8, amended. With mock authentication off and the remote calls going
    through, acceptFriendRequest answers not found when the document is
    missing, fails when the accepting user is the requester or is not one
    of the document's two users (the document stays as it is), and
    otherwise sets status 'active' and acceptedAt to now and succeeds. *)
Theorem acceptFriendRequest_guarded
    (friendshipId acceptingUid : string) (w : World Friendships) :
  quiet 4 w → acceptFriendRequestSpec false friendshipId acceptingUid w.
Proof.
  intros Hq. unfold acceptFriendRequestSpec.
  rewrite acceptFriendRequest_quiet by done.
  destruct (db w !! friendshipId) as [friendship|]; [|done].
  destruct (decide (requestedBy friendship = acceptingUid)) as [Hown|Hother].
  - rewrite decide_True by by left. split; [by eexists|done].
  - destruct (includes (users friendship) acceptingUid) eqn:Hin; cbn [negb].
    + rewrite decide_False; [done|]. intros [?|?]; done.
    + rewrite decide_True by by right. split; [by eexists|done].
Qed.

Lemma acceptFriendRequest_guarded_witness :
  acceptFriendRequestSpec false "u1_u2" "u2" Worlds.requested.
Proof.
  apply (acceptFriendRequest_guarded "u1_u2" "u2" Worlds.requested).
  vm_compute. constructor.
Defined.

(** Scenario 3 of section 8, second half: u1 cannot accept the request u1
    sent; u2 can, and the friendship becomes active. *)
Example accept_scenario :
  let '(r1, w1) := acceptFriendRequest false "u1_u2" "u1" Worlds.requested in
  let '(r2, w2) := acceptFriendRequest false "u1_u2" "u2" w1 in
  r1 = inr (failure "You can't accept your own friend request") ∧
  db w1 = db Worlds.requested ∧
  r2 = inr (succeeded "u1_u2") ∧
  db w2 !! "u1_u2" =
    Some (mkFriendship "u1_u2" ("u1", "u2") "active" "u1" 500 (Some 1000%Z)).
Proof. vm_compute. repeat split; reflexivity. Qed.

(** *** unfriend and declineFriendRequest *)

Lemma unfriend_quiet uid friendUid w :
  quiet 3 w →
  unfriend false uid friendUid w =
    (inr (succeeded (generateFriendshipId uid friendUid)),
     after 3 (delete (generateFriendshipId uid friendUid) (db w)) w).
Proof.
  intros Hq. unfold unfriend.
  unfold tryCatch, bind, getFirebaseDb, importFirestore, deleteDoc.
  remote_step Hq. remote_step Hq0. remote_step Hq1.
  unfold ret. by rewrite !after_after.
Qed.

Lemma declineFriendRequest_refused friendshipId decliningUid w :
  quiet 3 w →
  match db w !! friendshipId with
  | None =>
      declineFriendRequest false friendshipId decliningUid w =
        (inr (failure "Friend request not found"), after 3 (db w) w)
  | Some friendship =>
      includes (users friendship) decliningUid = false →
      declineFriendRequest false friendshipId decliningUid w =
        (inr (failure "You are not part of this friend request"),
         after 3 (db w) w)
  end.
Proof.
  intros Hq. unfold declineFriendRequest.
  unfold tryCatch, bind, getFirebaseDb, importFirestore, getDoc, deleteDoc.
  remote_step Hq. remote_step Hq0. remote_step Hq1.
  destruct (db w !! friendshipId) as [friendship|] eqn:Hdoc;
    [|unfold ret; by rewrite !after_after].
  intros ->. cbn [negb]. unfold ret. by rewrite !after_after.
Qed.

(** A decline by one of the two users deletes the document. *)
Lemma declineFriendRequest_deletes friendshipId decliningUid friendship w :
  quiet 4 w → db w !! friendshipId = Some friendship →
  includes (users friendship) decliningUid = true →
  declineFriendRequest false friendshipId decliningUid w =
    (inr (succeeded friendshipId), after 4 (delete friendshipId (db w)) w).
Proof.
  intros Hq Hdoc Hin. unfold declineFriendRequest.
  unfold tryCatch, bind, getFirebaseDb, importFirestore, getDoc, deleteDoc.
  remote_step Hq. remote_step Hq0. remote_step Hq1.
  rewrite Hdoc, Hin. cbn [negb]. remote_step Hq2.
  unfold ret. by rewrite !after_after.
Qed.

(** C10, as stated, fails. With mock authentication on, declining a request
    that does not exist succeeds and unfriend deletes nothing; and with the
    delete rejected, unfriend fails and the friendship stays. *)
Lemma unfriend_decline_refuted :
  ¬ declineFriendRequestSpec true "u1_u2" "u2" Worlds.strangers ∧
  ¬ unfriendSpec true "u1" "u2" Worlds.friends ∧
  ¬ unfriendSpec false "u1" "u2" (Worlds.offline Worlds.friends).
Proof.
  repeat split; intros H; vm_compute in H.
  - discriminate H.
  - destruct H as [_ H]. discriminate H.
  - destruct H as [H _]. discriminate H.
Qed.

(** C10, amended. With mock authentication off and the remote calls going
    through, unfriend deletes the pair's document whether it exists or not
    and returns success, never a not-found error; declineFriendRequest
    answers 'Friend request not found' on a missing document and fails on
    an existing one when the declining user is not one of its two users. *)
Theorem unfriend_unconditional_decline_checked
    (uid friendUid friendshipId decliningUid : string) (w : World Friendships) :
  quiet 3 w →
  unfriendSpec false uid friendUid w ∧
  declineFriendRequestSpec false friendshipId decliningUid w.
Proof.
  intros Hq. split.
  - unfold unfriendSpec. by rewrite unfriend_quiet.
  - unfold declineFriendRequestSpec.
    pose proof (declineFriendRequest_refused friendshipId decliningUid w Hq) as H.
    destruct (db w !! friendshipId) as [friendship|].
    + destruct (declineFriendRequest _ _ _ _) as [res w'].
      intros Hin. specialize (H Hin). injection H as -> ->.
      split; [by eexists|done].
    + by rewrite H.
Qed.

Lemma unfriend_unconditional_decline_checked_witness :
  unfriendSpec false "u1" "u3" Worlds.requested ∧
  declineFriendRequestSpec false "u1_u2" "u3" Worlds.requested.
Proof.
  apply (unfriend_unconditional_decline_checked "u1" "u3" "u1_u2" "u3"
           Worlds.requested).
  vm_compute. constructor.
Defined.

(** unfriend of two users who share no document: success, nothing changes;
    decline of a request that is not there: not found. *)
Example unfriend_strangers :
  let '(r1, w1) := unfriend false "u1" "u2" Worlds.strangers in
  let '(r2, w2) := declineFriendRequest false "u1_u2" "u2" Worlds.strangers in
  r1 = inr (succeeded "u1_u2") ∧ db w1 = db Worlds.strangers ∧
  r2 = inr (failure "Friend request not found").
Proof. vm_compute. repeat split; reflexivity. Qed.

End FriendshipFacts.

(* ===================================================================== *)
(** * Further properties of the services                                 *)
(* ===================================================================== *)

Section FriendshipReadFacts.
Import Js FirestoreFriendships FriendshipQueries.

Implicit Types (w : World Friendships) (d : Friendships) (f : Friendship).

Ltac go Hq :=
  match goal with
  | |- context [remote ?f ?w0] =>
      let E := fresh "E" in
      let Q := fresh "Hq" in
      destruct (remote_quiet f _ w0 Hq) as [E Q];
      rewrite E; clear E; cbn [fst snd db clock after] in *
  end.

Ltac decided := apply (bool_decide_unpack _); vm_compute; exact I.

(** *** The sorted pair *)

Lemma sortUserIds_cases a b :
  sortUserIds a b = (a, b) ∨ sortUserIds a b = (b, a).
Proof. unfold sortUserIds. destruct (String.ltb a b); auto. Qed.

Lemma includes_sorted a b c :
  includes (sortUserIds a b) c = true ↔ c = a ∨ c = b.
Proof.
  unfold includes. rewrite orb_true_iff, !bool_decide_eq_true.
  destruct (sortUserIds_cases a b) as [-> | ->]; simpl; intuition congruence.
Qed.

Lemma sortUserIds_sorted a b :
  sortUserIds (sortUserIds a b).1 (sortUserIds a b).2 = sortUserIds a b.
Proof.
  destruct (sortUserIds_cases a b) as [E | E]; rewrite E; simpl; [done|].
  by rewrite sortUserIds_comm.
Qed.

Lemma generateFriendshipId_sorted a b :
  generateFriendshipId (sortUserIds a b).1 (sortUserIds a b).2
    = generateFriendshipId a b.
Proof. unfold generateFriendshipId. by rewrite sortUserIds_sorted. Qed.

(** *** Documents *)

Lemma elem_of_documents d f : f ∈ documents d ↔ ∃ k, d !! k = Some f.
Proof.
  unfold documents. rewrite merge_sort_Permutation, list_elem_of_fmap. split.
  - intros ([k g] & -> & Hin%elem_of_map_to_list). by exists k.
  - intros [k Hk]. exists (k, f). split; [done|]. by apply elem_of_map_to_list.
Qed.

Lemma elem_of_query (q : Friendship → bool) d f :
  f ∈ List.filter q (documents d) ↔ (∃ k, d !! k = Some f) ∧ q f = true.
Proof.
  rewrite list_elem_of_In, filter_In, <- list_elem_of_In, elem_of_documents.
  done.
Qed.

(** *** The reads *)

Lemma getFriendships_quiet uid w :
  quiet 3 w →
  getFriendships false uid w =
    (inr (List.filter (involves uid "active") (documents (db w))),
     after 3 (db w) w).
Proof.
  intros Hq. unfold getFriendships, getDocs.
  unfold tryCatch, bind, getFirebaseDb, importFirestore.
  go Hq. go Hq0. go Hq1. unfold ret. by rewrite !after_after.
Qed.

Lemma getPendingRequests_quiet uid direction w :
  quiet 3 w →
  getPendingRequests false uid direction w =
    (inr (List.filter (keepRequest uid direction)
            (List.filter
               (match direction with
                | outgoing => requestedWith uid "pending"
                | incoming => involves uid "pending"
                end) (documents (db w)))),
     after 3 (db w) w).
Proof.
  intros Hq. unfold getPendingRequests, getDocs.
  unfold tryCatch, bind, getFirebaseDb, importFirestore.
  go Hq. go Hq0. go Hq1. unfold ret. by rewrite !after_after.
Qed.

Lemma checkFriendship_quiet uid1 uid2 w :
  quiet 3 w →
  checkFriendship false uid1 uid2 w =
    (inr (db w !! generateFriendshipId uid1 uid2), after 3 (db w) w).
Proof.
  intros Hq. unfold checkFriendship, getDoc.
  unfold tryCatch, bind, getFirebaseDb, importFirestore.
  go Hq. go Hq0. go Hq1. unfold ret. by rewrite !after_after.
Qed.

(** A read that meets a fault answers with nothing. *)
Lemma reads_fail_empty uid direction uid1 uid2 w :
  ¬ quiet 3 w →
  (getFriendships false uid w).1 = inr [] ∧
  (getPendingRequests false uid direction w).1 = inr [] ∧
  (checkFriendship false uid1 uid2 w).1 = inr None ∧
  db (getFriendships false uid w).2 = db w ∧
  db (getPendingRequests false uid direction w).2 = db w ∧
  db (checkFriendship false uid1 uid2 w).2 = db w.
Proof.
  intros (k & e & rest & Hk & Hf)%first_fault.
  unfold getFriendships, getPendingRequests, checkFriendship, getDocs, getDoc,
    tryCatch, bind, getFirebaseDb, importFirestore, remote, ret.
  destruct w as [d t fs]; simpl in *. subst fs.
  destruct k as [|[|[|k]]]; [| | |lia]; simpl; done.
Qed.

(** *** What each action can do to the documents *)

Lemma createFriendRequest_faulty fromUid toUid w :
  ¬ quiet 4 w → db (createFriendRequest false fromUid toUid w).2 = db w.
Proof.
  intros (k & e & rest & Hk & Hf)%first_fault.
  unfold createFriendRequest. case_decide; [done|].
  unfold tryCatch, bind, getFirebaseDb, importFirestore, getDoc, setDoc,
    remote, ret.
  destruct w as [d t fs]; simpl in *. subst fs.
  destruct k as [|[|[|[|k]]]]; [| | | |lia]; simpl; try done.
  destruct (d !! generateFriendshipId fromUid toUid); repeat case_decide; done.
Qed.

Lemma acceptFriendRequest_faulty friendshipId acceptingUid w :
  ¬ quiet 4 w → db (acceptFriendRequest false friendshipId acceptingUid w).2 = db w.
Proof.
  intros (k & e & rest & Hk & Hf)%first_fault.
  unfold acceptFriendRequest.
  unfold tryCatch, bind, getFirebaseDb, importFirestore, getDoc, updateDoc,
    remote, ret.
  destruct w as [d t fs]; simpl in *. subst fs.
  destruct k as [|[|[|[|k]]]]; [| | | |lia]; simpl; try done.
  destruct (d !! friendshipId) as [f|]; [|done].
  case_decide; [done|]. by destruct (includes _ _).
Qed.

Lemma declineFriendRequest_faulty friendshipId decliningUid w :
  ¬ quiet 4 w → db (declineFriendRequest false friendshipId decliningUid w).2 = db w.
Proof.
  intros (k & e & rest & Hk & Hf)%first_fault.
  unfold declineFriendRequest.
  unfold tryCatch, bind, getFirebaseDb, importFirestore, getDoc, deleteDoc,
    remote, ret.
  destruct w as [d t fs]; simpl in *. subst fs.
  destruct k as [|[|[|[|k]]]]; [| | | |lia]; simpl; try done.
  destruct (d !! friendshipId) as [f|]; [|done].
  by destruct (includes _ _).
Qed.

Lemma unfriend_faulty uid friendUid w :
  ¬ quiet 3 w → db (unfriend false uid friendUid w).2 = db w.
Proof.
  intros (k & e & rest & Hk & Hf)%first_fault.
  unfold unfriend.
  unfold tryCatch, bind, getFirebaseDb, importFirestore, deleteDoc, remote, ret.
  destruct w as [d t fs]; simpl in *. subst fs.
  destruct k as [|[|[|k]]]; [| | |lia]; simpl; done.
Qed.

(** The only write of [createFriendRequest] is the pending request of two
    different users, under their id, where no pending or active document
    is. *)
Lemma createFriendRequest_effect mock fromUid toUid w :
  let d' := db (createFriendRequest mock fromUid toUid w).2 in
  d' = db w ∨
  (fromUid ≠ toUid ∧
   (∀ f, db w !! generateFriendshipId fromUid toUid = Some f →
         status f ≠ "active" ∧ status f ≠ "pending") ∧
   d' = <[generateFriendshipId fromUid toUid :=
            pendingRequest fromUid toUid (clock w)]> (db w)).
Proof.
  intros d'. subst d'.
  destruct (decide (fromUid = toUid)) as [->|Hne].
  { left. by rewrite createFriendRequest_self. }
  destruct mock; [left; by rewrite createFriendRequest_mock|].
  destruct (decide (quiet 4 w)) as [Hq|Hq];
    [|left; by apply createFriendRequest_faulty].
  rewrite createFriendRequest_quiet by done. cbn zeta.
  destruct (db w !! generateFriendshipId fromUid toUid) as [f|] eqn:Hf.
  - repeat case_decide; [by left|by left|].
    right. split; [done|]. split; [|done]. by intros ? [= <-].
  - right. split; [done|]. split; [|done]. by intros ? [=].
Qed.

Lemma acceptFriendRequest_effect mock friendshipId acceptingUid w :
  let d' := db (acceptFriendRequest mock friendshipId acceptingUid w).2 in
  d' = db w ∨
  ∃ f, db w !! friendshipId = Some f ∧
       requestedBy f ≠ acceptingUid ∧
       includes (users f) acceptingUid = true ∧
       d' = <[friendshipId := activate (clock w) f]> (db w).
Proof.
  intros d'. subst d'. destruct mock; [by left|].
  destruct (decide (quiet 4 w)) as [Hq|Hq];
    [|left; by apply acceptFriendRequest_faulty].
  rewrite acceptFriendRequest_quiet by done.
  destruct (db w !! friendshipId) as [f|] eqn:Hf; [|by left].
  case_decide; [by left|].
  destruct (includes (users f) acceptingUid) eqn:Hin; cbn [negb]; [|by left].
  right. by exists f.
Qed.

Lemma declineFriendRequest_effect mock friendshipId decliningUid w :
  let d' := db (declineFriendRequest mock friendshipId decliningUid w).2 in
  d' = db w ∨
  ∃ f, db w !! friendshipId = Some f ∧
       includes (users f) decliningUid = true ∧
       d' = delete friendshipId (db w).
Proof.
  intros d'. subst d'. destruct mock; [by left|].
  destruct (decide (quiet 4 w)) as [Hq|Hq];
    [|left; by apply declineFriendRequest_faulty].
  destruct (db w !! friendshipId) as [f|] eqn:Hf.
  - destruct (includes (users f) decliningUid) eqn:Hin.
    + right. exists f. rewrite (declineFriendRequest_deletes _ _ f) by done.
      done.
    + left. pose proof (declineFriendRequest_refused friendshipId decliningUid w
                          (quiet_le 4 3 w ltac:(lia) Hq)) as H.
      rewrite Hf in H. by rewrite (H Hin).
  - left. pose proof (declineFriendRequest_refused friendshipId decliningUid w
                        (quiet_le 4 3 w ltac:(lia) Hq)) as H.
    rewrite Hf in H. by rewrite H.
Qed.

Lemma unfriend_effect mock uid friendUid w :
  let d' := db (unfriend mock uid friendUid w).2 in
  d' = db w ∨ d' = delete (generateFriendshipId uid friendUid) (db w).
Proof.
  intros d'. subst d'. destruct mock; [by left|].
  destruct (decide (quiet 3 w)) as [Hq|Hq]; [|left; by apply unfriend_faulty].
  right. by rewrite unfriend_quiet.
Qed.

(** *** Well-formed documents, one per pair *)

Lemma wellFormed_pendingRequest fromUid toUid now :
  fromUid ≠ toUid →
  wellFormed (generateFriendshipId fromUid toUid)
    (pendingRequest fromUid toUid now).
Proof.
  intros Hne. unfold wellFormed, pendingRequest. cbn.
  repeat split.
  - by rewrite generateFriendshipId_sorted.
  - destruct (sortUserIds_cases fromUid toUid) as [-> | ->]; simpl; congruence.
  - apply sortUserIds_sorted.
  - apply includes_sorted. by left.
  - by left.
Qed.

Lemma wellFormed_activate k now f : wellFormed k f → wellFormed k (activate now f).
Proof.
  intros (? & ? & ? & ? & ? & _). unfold wellFormed, activate. cbn.
  repeat split; try done. by right.
Qed.

Lemma act_wellFormed mock a w :
  allWellFormed (db w) → allWellFormed (db (act mock a w).2).
Proof.
  intros Hwf. destruct a as [fromUid toUid|k uid|k uid|uid friendUid]; simpl.
  - destruct (createFriendRequest_effect mock fromUid toUid w)
      as [-> | (Hne & _ & ->)]; [done|].
    apply map_Forall_insert_2; [|done]. by apply wellFormed_pendingRequest.
  - destruct (acceptFriendRequest_effect mock k uid w)
      as [-> | (f & Hf & _ & _ & ->)]; [done|].
    apply map_Forall_insert_2; [|done]. apply wellFormed_activate.
    by apply (Hwf k f).
  - destruct (declineFriendRequest_effect mock k uid w)
      as [-> | (f & _ & _ & ->)]; [done|].
    by apply map_Forall_delete.
  - destruct (unfriend_effect mock uid friendUid w) as [-> | ->]; [done|].
    by apply map_Forall_delete.
Qed.

Lemma perform_wellFormed mock actions : ∀ w,
  allWellFormed (db w) → allWellFormed (db (perform mock actions w)).
Proof.
  induction actions as [|a actions IH]; intros w Hwf; [done|].
  apply IH. by apply act_wellFormed.
Qed.

Lemma generateFriendshipId_comm a b :
  generateFriendshipId a b = generateFriendshipId b a.
Proof. unfold generateFriendshipId. by rewrite sortUserIds_comm. Qed.

(** X1. Whatever sequence of requests, accepts, declines and unfriends is
    performed, in any configuration and with any of the remote calls
    failing, documents that were well formed stay so: each is stored under
    the id of its two users, who differ and are in order, the requester is
    one of them, and it is pending or active. So there is one document per
    pair of users at most. *)
Theorem friendships_stay_well_formed
    (mock : bool) (actions : list Action) (w : World Friendships) :
  allWellFormed (db w) →
  let d' := db (perform mock actions w) in
  allWellFormed d' ∧
  ∀ k1 k2 f g, d' !! k1 = Some f → d' !! k2 = Some g →
    users f = users g ∨ users f = ((users g).2, (users g).1) →
    k1 = k2 ∧ f = g.
Proof.
  intros Hwf d'.
  assert (Hwf' : allWellFormed d') by by apply perform_wellFormed.
  split; [done|]. intros k1 k2 f g Hf Hg Hpair.
  assert (k1 = k2) as ->; [|split; [done|congruence]].
  destruct (Hwf' k1 f Hf) as (<- & -> & _).
  destruct (Hwf' k2 g Hg) as (<- & -> & _).
  destruct Hpair as [-> | ->]; [done|]. simpl. apply generateFriendshipId_comm.
Qed.

Lemma friendships_stay_well_formed_witness :
  allWellFormed
    (db (perform false
           [Request "u3" "u1"; Accept "u1_u2" "u2"; Unfriend "u3" "u1";
            Decline "u1_u2" "u9"]
           Worlds.requested)).
Proof.
  apply (friendships_stay_well_formed false
           [Request "u3" "u1"; Accept "u1_u2" "u2"; Unfriend "u3" "u1";
            Decline "u1_u2" "u9"]
           Worlds.requested).
  decided.
Defined.

(** X2. createFriendRequest never overwrites a friendship that is pending
    or active: in every configuration, and whichever remote call fails, the
    documents are left as they were. *)
Theorem createFriendRequest_never_overwrites
    (mock : bool) (fromUid toUid : string) (w : World Friendships) (f : Friendship) :
  db w !! generateFriendshipId fromUid toUid = Some f →
  status f = "active" ∨ status f = "pending" →
  db (createFriendRequest mock fromUid toUid w).2 = db w.
Proof.
  intros Hf Hst.
  destruct (createFriendRequest_effect mock fromUid toUid w)
    as [H | (_ & Hno & _)]; [done|].
  destruct (Hno f Hf) as [? ?]. by destruct Hst.
Qed.

Lemma createFriendRequest_never_overwrites_witness :
  db (createFriendRequest false "u2" "u1" (Worlds.offline Worlds.friends)).2 =
    db (Worlds.offline Worlds.friends).
Proof.
  apply (createFriendRequest_never_overwrites false "u2" "u1"
           (Worlds.offline Worlds.friends)
           (activate 700 (pendingRequest "u1" "u2" 500))).
  - vm_compute. reflexivity.
  - left. reflexivity.
Defined.

(** X3. The three reads never throw and never write. With the mock on, or
    when one of their remote calls fails, getFriendships and
    getPendingRequests answer the empty list and checkFriendship answers
    null. *)
Theorem friendship_reads_fail_soft
    (mock : bool) (uid : string) (direction : RequestDirection)
    (uid1 uid2 : string) (w : World Friendships) :
  ((∃ l, (getFriendships mock uid w).1 = inr l) ∧
   (∃ l, (getPendingRequests mock uid direction w).1 = inr l) ∧
   (∃ o, (checkFriendship mock uid1 uid2 w).1 = inr o)) ∧
  (db (getFriendships mock uid w).2 = db w ∧
   db (getPendingRequests mock uid direction w).2 = db w ∧
   db (checkFriendship mock uid1 uid2 w).2 = db w) ∧
  (mock = true ∨ ¬ quiet 3 w →
   (getFriendships mock uid w).1 = inr [] ∧
   (getPendingRequests mock uid direction w).1 = inr [] ∧
   (checkFriendship mock uid1 uid2 w).1 = inr None).
Proof.
  destruct mock.
  { repeat split; try done; by eexists. }
  destruct (decide (quiet 3 w)) as [Hq|Hq].
  - rewrite getFriendships_quiet, getPendingRequests_quiet,
      checkFriendship_quiet by done.
    split; [repeat split; by eexists|]. split; [done|].
    intros [?|?]; done.
  - destruct (reads_fail_empty uid direction uid1 uid2 w Hq)
      as (E1 & E2 & E3 & -> & -> & ->).
    rewrite E1, E2, E3. repeat split; try done; by eexists.
Qed.

(** The two pending lists of a user, when the read goes through. *)
Lemma pending_requests_by_direction (uid : string) (w : World Friendships) :
  quiet 3 w →
  ∃ inc out,
    (getPendingRequests false uid incoming w).1 = inr inc ∧
    (getPendingRequests false uid outgoing w).1 = inr out ∧
    (∀ f, f ∈ inc ↔
          (∃ k, db w !! k = Some f) ∧ status f = "pending" ∧
          includes (users f) uid = true ∧ requestedBy f ≠ uid) ∧
    (∀ f, f ∈ out ↔
          (∃ k, db w !! k = Some f) ∧ status f = "pending" ∧
          requestedBy f = uid) ∧
    (∀ f, f ∈ inc → f ∉ out) ∧
    (∀ k f, db w !! k = Some f → status f = "pending" →
            includes (users f) uid = true → f ∈ inc ∨ f ∈ out).
Proof.
  intros Hq. rewrite !getPendingRequests_quiet by done. cbn [fst].
  eexists _, _. split; [done|]. split; [done|].
  assert (Hinc : ∀ f,
    f ∈ List.filter (keepRequest uid incoming)
          (List.filter (involves uid "pending") (documents (db w))) ↔
    (∃ k, db w !! k = Some f) ∧ status f = "pending" ∧
    includes (users f) uid = true ∧ requestedBy f ≠ uid).
  { intros f. rewrite list_elem_of_In, filter_In, <- list_elem_of_In.
    rewrite elem_of_query. unfold keepRequest, involves.
    rewrite negb_true_iff, andb_true_iff, andb_false_iff.
    rewrite !bool_decide_eq_true, !bool_decide_eq_false.
    intuition (try congruence). }
  assert (Hout : ∀ f,
    f ∈ List.filter (keepRequest uid outgoing)
          (List.filter (requestedWith uid "pending") (documents (db w))) ↔
    (∃ k, db w !! k = Some f) ∧ status f = "pending" ∧ requestedBy f = uid).
  { intros f. rewrite list_elem_of_In, filter_In, <- list_elem_of_In.
    rewrite elem_of_query. unfold keepRequest, requestedWith.
    rewrite negb_true_iff, andb_true_iff, andb_false_iff.
    rewrite !bool_decide_eq_true, !bool_decide_eq_false.
    intuition (try congruence). }
  split; [exact Hinc|]. split; [exact Hout|]. split.
  - intros f (_ & _ & _ & Hne)%Hinc (_ & _ & Heq)%Hout. done.
  - intros k f Hf Hst Hin.
    destruct (decide (requestedBy f = uid)) as [Heq|Hne].
    + right. apply Hout. eauto.
    + left. apply Hinc. eauto 6.
Qed.

(** X4. Pending requests split by direction. When the read goes through,
    the incoming list of a user holds exactly the pending documents that
    name the user and that somebody else requested, the outgoing list
    exactly the pending documents the user requested; no document is in
    both, and every pending document that names the user is in one. *)
Theorem pending_requests_split (uid : string) (w : World Friendships) :
  quiet 3 w →
  ∃ inc out,
    (getPendingRequests false uid incoming w).1 = inr inc ∧
    (getPendingRequests false uid outgoing w).1 = inr out ∧
    (∀ f, f ∈ inc ↔
          (∃ k, db w !! k = Some f) ∧ status f = "pending" ∧
          includes (users f) uid = true ∧ requestedBy f ≠ uid) ∧
    (∀ f, f ∈ out ↔
          (∃ k, db w !! k = Some f) ∧ status f = "pending" ∧
          requestedBy f = uid) ∧
    (∀ f, f ∈ inc → f ∉ out) ∧
    (∀ k f, db w !! k = Some f → status f = "pending" →
            includes (users f) uid = true → f ∈ inc ∨ f ∈ out).
Proof. exact (pending_requests_by_direction uid w). Qed.

Lemma pending_requests_split_witness :
  ∃ inc out,
    (getPendingRequests false "u2" incoming Worlds.requested).1 = inr inc ∧
    (getPendingRequests false "u2" outgoing Worlds.requested).1 = inr out ∧
    (∀ f, f ∈ inc ↔
          (∃ k, db Worlds.requested !! k = Some f) ∧ status f = "pending" ∧
          includes (users f) "u2" = true ∧ requestedBy f ≠ "u2") ∧
    (∀ f, f ∈ out ↔
          (∃ k, db Worlds.requested !! k = Some f) ∧ status f = "pending" ∧
          requestedBy f = "u2") ∧
    (∀ f, f ∈ inc → f ∉ out) ∧
    (∀ k f, db Worlds.requested !! k = Some f → status f = "pending" →
            includes (users f) "u2" = true → f ∈ inc ∨ f ∈ out).
Proof. apply (pending_requests_split "u2" Worlds.requested). decided. Defined.

(** *** From request to friendship and back *)

Lemma lists_query (q : Friendship → bool) w2 f w' :
  lists (inr (List.filter q (documents (db w2))), w') f ↔
  (∃ k, db w2 !! k = Some f) ∧ q f = true.
Proof.
  unfold lists. cbn [fst]. rewrite <- elem_of_query. split.
  - by intros (l & [= <-] & Hl).
  - intros H. by eexists.
Qed.

Lemma lists_friends uid w2 f :
  quiet 3 w2 →
  lists (getFriendships false uid w2) f ↔
  (∃ k, db w2 !! k = Some f) ∧ includes (users f) uid = true ∧
  status f = "active".
Proof.
  intros Hq. rewrite getFriendships_quiet by done. rewrite lists_query.
  unfold involves. rewrite andb_true_iff, bool_decide_eq_true. done.
Qed.

Lemma lists_pending uid direction w2 f :
  quiet 3 w2 →
  lists (getPendingRequests false uid direction w2) f ↔
  (∃ k, db w2 !! k = Some f) ∧ status f = "pending" ∧
  match direction with
  | incoming => includes (users f) uid = true ∧ requestedBy f ≠ uid
  | outgoing => requestedBy f = uid
  end.
Proof.
  intros Hq. destruct (pending_requests_by_direction uid w2 Hq)
    as (inc & out & Ei & Eo & Hi & Ho & _).
  unfold lists. destruct direction.
  - rewrite Ei. split.
    + intros (l & [= <-] & Hl). by apply Hi.
    + intros H. exists inc. split; [done|]. by apply Hi.
  - rewrite Eo. split.
    + intros (l & [= <-] & Hl). by apply Ho.
    + intros H. exists out. split; [done|]. by apply Ho.
Qed.

(** X5. A request that goes through is listed where it belongs: incoming
    for the addressee, outgoing for the requester, in no other pending list
    of the two and among the friends of neither; checkFriendship finds it
    from either side, and it is the object createFriendRequestObject builds
    at the same clock reading. *)
Theorem request_is_listed (fromUid toUid : string) (w : World Friendships) :
  fromUid ≠ toUid → quiet 4 w →
  (∀ f, db w !! generateFriendshipId fromUid toUid = Some f →
        status f ≠ "active" ∧ status f ≠ "pending") →
  let w1 := (createFriendRequest false fromUid toUid w).2 in
  let request := pendingRequest fromUid toUid (clock w) in
  (createFriendRequestObject fromUid toUid w).1 = inr request ∧
  ∀ w2, db w2 = db w1 → quiet 3 w2 →
    lists (getPendingRequests false toUid incoming w2) request ∧
    lists (getPendingRequests false fromUid outgoing w2) request ∧
    ¬ lists (getPendingRequests false fromUid incoming w2) request ∧
    ¬ lists (getPendingRequests false toUid outgoing w2) request ∧
    ¬ lists (getFriendships false fromUid w2) request ∧
    ¬ lists (getFriendships false toUid w2) request ∧
    (checkFriendship false fromUid toUid w2).1 = inr (Some request) ∧
    (checkFriendship false toUid fromUid w2).1 = inr (Some request).
Proof.
  intros Hne Hq Hfree w1 request. split.
  { unfold createFriendRequestObject, request, pendingRequest.
    by destruct (sortUserIds fromUid toUid). }
  assert (Hw1 : db w1 = <[generateFriendshipId fromUid toUid := request]> (db w)).
  { subst w1. rewrite createFriendRequest_quiet by done. cbn zeta.
    destruct (db w !! generateFriendshipId fromUid toUid) as [f|] eqn:Hf;
      [|done].
    destruct (Hfree f eq_refl). by rewrite !decide_False. }
  intros w2 Hdb Hq2.
  assert (Hstored : db w2 !! generateFriendshipId fromUid toUid = Some request).
  { by rewrite Hdb, Hw1, lookup_insert_eq. }
  rewrite !lists_pending, !lists_friends by done.
  rewrite !checkFriendship_quiet by done. cbn [fst].
  rewrite (generateFriendshipId_comm toUid fromUid), Hstored.
  assert (Hin : ∀ u, includes (users request) u = true ↔ u = fromUid ∨ u = toUid)
    by (intros u; apply includes_sorted).
  assert (Hst : status request = "pending") by done.
  assert (Hby : requestedBy request = fromUid) by done.
  rewrite Hby, Hst.
  split_and!; try done; try (by eexists).
  - apply Hin. by right.
  - intros (_ & _ & _ & H). done.
  - intros (_ & _ & H). done.
  - intros (_ & _ & H). done.
  - intros (_ & _ & H). done.
Qed.

Lemma request_is_listed_witness :
  lists (getPendingRequests false "u2" incoming
           (createFriendRequest false "u1" "u2" Worlds.strangers).2)
    (pendingRequest "u1" "u2" 1000).
Proof.
  refine (proj1 (proj2 (request_is_listed "u1" "u2" Worlds.strangers _ _ _)
                   _ eq_refl _)).
  - discriminate.
  - decided.
  - intros f Hf. vm_compute in Hf. discriminate.
  - decided.
Defined.

(** X6. An accept that goes through makes the two users friends: the
    document, whatever its status was, is now active with acceptedAt set to
    the time of the accept; every other document is as before; both users
    find it in getFriendships and neither in a pending list. *)
Theorem accepted_is_listed
    (friendshipId acceptingUid : string) (f : Friendship) (w : World Friendships) :
  quiet 4 w → db w !! friendshipId = Some f →
  requestedBy f ≠ acceptingUid → includes (users f) acceptingUid = true →
  let w1 := (acceptFriendRequest false friendshipId acceptingUid w).2 in
  let friendship := activate (clock w) f in
  db w1 !! friendshipId = Some friendship ∧
  status friendship = "active" ∧ acceptedAt friendship = Some (clock w) ∧
  (∀ k, k ≠ friendshipId → db w1 !! k = db w !! k) ∧
  ∀ w2 u direction, db w2 = db w1 → quiet 3 w2 →
    includes (users f) u = true →
    lists (getFriendships false u w2) friendship ∧
    ¬ lists (getPendingRequests false u direction w2) friendship.
Proof.
  intros Hq Hf Hreq Hin w1 friendship.
  assert (Hw1 : db w1 = <[friendshipId := friendship]> (db w)).
  { subst w1. rewrite acceptFriendRequest_quiet by done. rewrite Hf.
    rewrite decide_False by done. by rewrite Hin. }
  split; [by rewrite Hw1, lookup_insert_eq|]. split; [done|]. split; [done|].
  split; [intros k Hk; by rewrite Hw1, lookup_insert_ne|].
  intros w2 u direction Hdb Hq2 Hu.
  rewrite lists_friends, lists_pending by done. split.
  - split; [|done]. exists friendshipId. by rewrite Hdb, Hw1, lookup_insert_eq.
  - intros (_ & H & _). done.
Qed.

Lemma accepted_is_listed_witness :
  db (acceptFriendRequest false "u1_u2" "u2" Worlds.requested).2 !! "u1_u2" =
    Some (activate 1000 (pendingRequest "u1" "u2" 500)).
Proof.
  refine (proj1 (accepted_is_listed "u1_u2" "u2"
                   (pendingRequest "u1" "u2" 500) Worlds.requested _ _ _ _)).
  - decided.
  - vm_compute. reflexivity.
  - discriminate.
  - reflexivity.
Defined.

(** X7. unfriend that goes through removes the friendship for both sides,
    in whichever order the two users are given, and only it; afterwards
    checkFriendship answers null and a new request between the two starts
    a fresh pending document under the same id. *)
Theorem unfriend_then_request_again (uid friendUid : string) (w : World Friendships) :
  uid ≠ friendUid → quiet 3 w →
  let w1 := (unfriend false uid friendUid w).2 in
  let friendshipId := generateFriendshipId uid friendUid in
  db w1 = db (unfriend false friendUid uid w).2 ∧
  db w1 !! friendshipId = None ∧
  (∀ k, k ≠ friendshipId → db w1 !! k = db w !! k) ∧
  ∀ w2, db w2 = db w1 → quiet 4 w2 →
    (checkFriendship false friendUid uid w2).1 = inr None ∧
    (createFriendRequest false friendUid uid w2).1 = inr (succeeded friendshipId) ∧
    db (createFriendRequest false friendUid uid w2).2 !! friendshipId =
      Some (pendingRequest friendUid uid (clock w2)).
Proof.
  intros Hne Hq w1 fid.
  assert (Hw1 : db w1 = delete fid (db w)).
  { subst w1. by rewrite unfriend_quiet. }
  split. { rewrite Hw1, unfriend_quiet by done. cbn.
           by rewrite (generateFriendshipId_comm friendUid uid). }
  split; [by rewrite Hw1, lookup_delete_eq|].
  split; [intros k Hk; by rewrite Hw1, lookup_delete_ne|].
  intros w2 Hdb Hq2.
  assert (Hgone : db w2 !! generateFriendshipId friendUid uid = None).
  { rewrite (generateFriendshipId_comm friendUid uid). fold fid.
    by rewrite Hdb, Hw1, lookup_delete_eq. }
  rewrite checkFriendship_quiet by (apply (quiet_le 4 3); [lia|done]).
  rewrite createFriendRequest_quiet by done. cbn zeta.
  rewrite Hgone. cbn [fst snd db after].
  rewrite (generateFriendshipId_comm friendUid uid). fold fid.
  by rewrite lookup_insert_eq.
Qed.

Lemma unfriend_then_request_again_witness :
  db (unfriend false "u2" "u1" Worlds.friends).2 !! "u1_u2" = None.
Proof.
  refine (proj1 (proj2 (unfriend_then_request_again "u2" "u1" Worlds.friends
                          _ _))).
  - discriminate.
  - decided.
Defined.

(** X8. declineFriendRequest by one of the two users deletes the document
    whatever its status and whoever requested it: the requester withdraws
    the request this way, and an active friendship is removed as well. No
    other document changes. *)
Theorem decline_by_member_deletes
    (friendshipId decliningUid : string) (f : Friendship) (w : World Friendships) :
  quiet 4 w → db w !! friendshipId = Some f →
  includes (users f) decliningUid = true →
  let '(res, w1) := declineFriendRequest false friendshipId decliningUid w in
  res = inr (succeeded friendshipId) ∧
  db w1 !! friendshipId = None ∧
  (∀ k, k ≠ friendshipId → db w1 !! k = db w !! k).
Proof.
  intros Hq Hf Hin.
  rewrite (declineFriendRequest_deletes _ _ f) by done.
  split; [done|]. cbn [db after].
  split; [apply lookup_delete_eq|]. intros k Hk. by apply lookup_delete_ne.
Qed.

Lemma decline_by_member_deletes_witness :
  let '(res, w1) := declineFriendRequest false "u1_u2" "u1" Worlds.friends in
  res = inr (succeeded "u1_u2") ∧
  db w1 !! "u1_u2" = None ∧
  (∀ k, k ≠ "u1_u2" → db w1 !! k = db Worlds.friends !! k).
Proof.
  apply (decline_by_member_deletes "u1_u2" "u1"
           (activate 700 (pendingRequest "u1" "u2" 500)) Worlds.friends).
  - decided.
  - vm_compute. reflexivity.
  - reflexivity.
Defined.

End FriendshipReadFacts.

Section BlockingFacts.
Import Js FirestoreFriendships Blocking.

Variable notFound : string → Thrown.

Implicit Types (w : World Social) (p : UserProfile).

Ltac go Hq :=
  match goal with
  | |- context [remote ?f ?w0] =>
      let E := fresh "E" in
      let Q := fresh "Hq" in
      destruct (remote_quiet f _ w0 Hq) as [E Q];
      rewrite E; clear E; cbn [fst snd db clock after] in *
  end.

Lemma arrayUnion_elem x l : x ∈ arrayUnion x l.
Proof.
  unfold arrayUnion. case_decide; [done|]. apply elem_of_app. right. by left.
Qed.

Lemma arrayUnion_NoDup x l : NoDup l → NoDup (arrayUnion x l).
Proof.
  unfold arrayUnion. case_decide; [done|]. intros Hl.
  apply NoDup_app. split; [done|]. split; [|apply NoDup_singleton].
  intros y Hy ->%list_elem_of_singleton. done.
Qed.

Lemma arrayUnion_twice x l : arrayUnion x (arrayUnion x l) = arrayUnion x l.
Proof.
  unfold arrayUnion at 1. by rewrite decide_True by apply arrayUnion_elem.
Qed.

Lemma arrayRemove_absent x l : x ∉ l → arrayRemove x l = l.
Proof.
  unfold arrayRemove. induction l as [|y l IH]; [done|].
  intros Hx. apply not_elem_of_cons in Hx as [Hne Hx].
  rewrite filter_cons_True by done. by rewrite IH.
Qed.

Lemma arrayRemove_union x l : arrayRemove x (arrayUnion x l) = arrayRemove x l.
Proof.
  unfold arrayUnion. case_decide; [done|]. unfold arrayRemove.
  rewrite filter_app, filter_cons_False, filter_nil by (intros H'; by apply H').
  by rewrite app_nil_r.
Qed.

Lemma arrayRemove_gone x l : x ∉ arrayRemove x l.
Proof. unfold arrayRemove. rewrite list_elem_of_filter. by intros [? _]. Qed.

Lemma blockUser_quiet uid userToBlock p w :
  uid ≠ userToBlock → quiet 4 w → userDocs (db w) !! uid = Some p →
  blockUser false notFound uid userToBlock w =
    (inr done,
     after 4
       (mkSocial
          (delete (generateFriendshipId uid userToBlock) (friendshipDocs (db w)))
          (<[uid := mkUserProfile (arrayUnion userToBlock (blockedUsers p))
                      (otherFields p)]> (userDocs (db w)))) w).
Proof.
  intros Hne Hq Hp. unfold blockUser. rewrite decide_False by done.
  unfold tryCatch, bind, getFirebaseDb, importFirestore, updateBlockedUsers,
    deleteFriendship, bind.
  go Hq. go Hq0. go Hq1. rewrite Hp in *. unfold ret, throw. cbn [fst snd] in *.
  go Hq2. by rewrite !after_after.
Qed.

Lemma blockUser_no_profile uid userToBlock w :
  uid ≠ userToBlock → quiet 3 w → userDocs (db w) !! uid = None →
  blockUser false notFound uid userToBlock w =
    (inr (failure (messageOr "Failed to block user" (notFound uid))),
     after 3 (db w) w).
Proof.
  intros Hne Hq Hp. unfold blockUser. rewrite decide_False by done.
  unfold tryCatch, bind, getFirebaseDb, importFirestore, updateBlockedUsers,
    deleteFriendship, bind.
  go Hq. go Hq0. go Hq1. rewrite Hp in *. cbn [fst snd] in *.
  unfold throw, ret. by rewrite !after_after.
Qed.

Lemma blockUser_delete_fails uid userToBlock p w e rest :
  uid ≠ userToBlock → userDocs (db w) !! uid = Some p →
  faults w = None :: None :: None :: Some e :: rest →
  blockUser false notFound uid userToBlock w =
    (inr (failure (messageOr "Failed to block user" e)),
     mkWorld
       (mkSocial (friendshipDocs (db w))
          (<[uid := mkUserProfile (arrayUnion userToBlock (blockedUsers p))
                      (otherFields p)]> (userDocs (db w))))
       (clock w) rest).
Proof.
  intros Hne Hp Hf. unfold blockUser. rewrite decide_False by done.
  unfold tryCatch, bind, getFirebaseDb, importFirestore, updateBlockedUsers,
    deleteFriendship, bind, remote.
  destruct w as [d t fs]; cbn [db clock faults] in *. subst fs.
  cbn [fst snd db clock faults]. rewrite Hp. done.
Qed.

Lemma unblockUser_quiet uid userToUnblock p w :
  quiet 3 w → userDocs (db w) !! uid = Some p →
  unblockUser false notFound uid userToUnblock w =
    (inr done,
     after 3
       (mkSocial (friendshipDocs (db w))
          (<[uid := mkUserProfile (arrayRemove userToUnblock (blockedUsers p))
                      (otherFields p)]> (userDocs (db w)))) w).
Proof.
  intros Hq Hp. unfold unblockUser.
  unfold tryCatch, bind, getFirebaseDb, importFirestore, updateBlockedUsers, bind.
  go Hq. go Hq0. go Hq1. rewrite Hp in *. cbn [fst snd] in *.
  unfold ret. by rewrite !after_after.
Qed.

(** X9. blockUser that goes through, for a blocker with a profile: the call
    succeeds; the blocked user is on the blocker's list, which keeps its
    other entries and gains no duplicate; the friendship of the two is
    gone and no other friendship changes; no other profile changes, the
    blocked user's included; and blocking again changes nothing. *)
Theorem blockUser_blocks (uid userToBlock : string) (p : UserProfile) (w : World Social) :
  uid ≠ userToBlock → quiet 4 w → userDocs (db w) !! uid = Some p →
  let '(res, w1) := blockUser false notFound uid userToBlock w in
  res = inr done ∧
  (∃ l, blockedBy uid (db w1) = Some l ∧ userToBlock ∈ l ∧
        (∀ x, x ∈ blockedUsers p → x ∈ l) ∧
        (NoDup (blockedUsers p) → NoDup l)) ∧
  friendshipDocs (db w1) !! generateFriendshipId uid userToBlock = None ∧
  (∀ k, k ≠ generateFriendshipId uid userToBlock →
        friendshipDocs (db w1) !! k = friendshipDocs (db w) !! k) ∧
  (∀ u, u ≠ uid → userDocs (db w1) !! u = userDocs (db w) !! u) ∧
  (∀ w2, db w2 = db w1 → quiet 4 w2 →
         db (blockUser false notFound uid userToBlock w2).2 = db w1).
Proof.
  intros Hne Hq Hp. rewrite (blockUser_quiet _ _ p) by done.
  cbn [db after friendshipDocs userDocs]. unfold blockedBy. cbn [userDocs].
  split_and!.
  - done.
  - rewrite lookup_insert_eq. eexists. split; [done|]. cbn [blockedUsers].
    split; [apply arrayUnion_elem|]. split; [|apply arrayUnion_NoDup].
    intros x Hx. unfold arrayUnion. case_decide; [done|].
    apply elem_of_app. by left.
  - apply lookup_delete_eq.
  - intros k Hk. by apply lookup_delete_ne.
  - intros u Hu. by apply lookup_insert_ne.
  - intros w2 Hdb Hq2.
    rewrite (blockUser_quiet _ _
               (mkUserProfile (arrayUnion userToBlock (blockedUsers p))
                  (otherFields p))) by (try done; rewrite Hdb; cbn [userDocs]; by rewrite lookup_insert_eq).
    cbn [snd db after blockedUsers otherFields]. rewrite Hdb.
    cbn [friendshipDocs userDocs].
    rewrite arrayUnion_twice, insert_insert_eq. f_equal.
    apply delete_id, lookup_delete_eq.
Qed.

(** X10. Unblocking after blocking: the call succeeds, the user is off the
    list (every occurrence), the list is the one from before the block when
    the user was not on it then, and the friendship the block deleted is
    not restored. *)
Theorem block_then_unblock (uid userToBlock : string) (p : UserProfile) (w : World Social) :
  uid ≠ userToBlock → quiet 4 w → userDocs (db w) !! uid = Some p →
  let w1 := (blockUser false notFound uid userToBlock w).2 in
  ∀ w2, db w2 = db w1 → quiet 3 w2 →
    let '(res, w3) := unblockUser false notFound uid userToBlock w2 in
    res = inr done ∧
    blockedBy uid (db w3) = Some (arrayRemove userToBlock (blockedUsers p)) ∧
    (userToBlock ∉ arrayRemove userToBlock (blockedUsers p)) ∧
    (userToBlock ∉ blockedUsers p →
       blockedBy uid (db w3) = Some (blockedUsers p)) ∧
    friendshipDocs (db w3) !! generateFriendshipId uid userToBlock = None.
Proof.
  intros Hne Hq Hp w1 w2 Hdb Hq2.
  assert (Hw1 : db w1 =
    mkSocial
      (delete (generateFriendshipId uid userToBlock) (friendshipDocs (db w)))
      (<[uid := mkUserProfile (arrayUnion userToBlock (blockedUsers p))
                  (otherFields p)]> (userDocs (db w)))).
  { subst w1. by rewrite (blockUser_quiet _ _ p). }
  rewrite (unblockUser_quiet _ _
             (mkUserProfile (arrayUnion userToBlock (blockedUsers p))
                (otherFields p)))
    by (try done; rewrite Hdb, Hw1; cbn [userDocs]; by rewrite lookup_insert_eq).
  cbn [db after blockedUsers otherFields]. unfold blockedBy.
  cbn [userDocs friendshipDocs]. rewrite lookup_insert_eq, arrayRemove_union.
  cbn [fmap option_fmap option_map blockedUsers].
  split_and!; try done.
  - apply arrayRemove_gone.
  - intros Hx. by rewrite arrayRemove_absent.
  - rewrite Hdb, Hw1. apply lookup_delete_eq.
Qed.

(** X11. blockUser is not atomic: when the delete of the friendship fails
    after the profile was updated, the call reports the failure, yet the
    user is on the blocked list already and the friendship is still
    there. *)
Theorem blockUser_not_atomic
    (uid userToBlock : string) (p : UserProfile) (w : World Social)
    (e : Thrown) (rest : list (option Thrown)) :
  uid ≠ userToBlock → userDocs (db w) !! uid = Some p →
  faults w = None :: None :: None :: Some e :: rest →
  let '(res, w1) := blockUser false notFound uid userToBlock w in
  res = inr (failure (messageOr "Failed to block user" e)) ∧
  (∃ l, blockedBy uid (db w1) = Some l ∧ userToBlock ∈ l) ∧
  friendshipDocs (db w1) = friendshipDocs (db w).
Proof.
  intros Hne Hp Hf. rewrite (blockUser_delete_fails _ _ p _ e rest) by done.
  split; [done|]. split; [|done]. unfold blockedBy. cbn [db userDocs].
  rewrite lookup_insert_eq. eexists. split; [done|]. apply arrayUnion_elem.
Qed.

(** X12. blockUser for a blocker without a profile document: the update is
    rejected as not found, the call fails with that error's message, and
    nothing changes: the friendship of the two stays. *)
Theorem blockUser_without_profile (uid userToBlock : string) (w : World Social) :
  uid ≠ userToBlock → quiet 3 w → userDocs (db w) !! uid = None →
  let '(res, w1) := blockUser false notFound uid userToBlock w in
  res = inr (failure (messageOr "Failed to block user" (notFound uid))) ∧
  db w1 = db w.
Proof. intros Hne Hq Hp. by rewrite blockUser_no_profile. Qed.

Lemma onFriendships_quiet {A} (m : Async Friendships A) w :
  onFriendships m w =
    let '(r, w') := m (mkWorld (friendshipDocs (db w)) (clock w) (faults w)) in
    (r, mkWorld (mkSocial (db w') (userDocs (db w))) (clock w') (faults w')).
Proof. done. Qed.

(** X13. Blocking does not stop the blocked user from asking again: after
    a block that went through, a friend request of the blocked user to the
    blocker succeeds and stores a pending request, while the blocked user
    is still on the blocker's list. *)
Theorem blocked_user_can_still_request
    (uid userToBlock : string) (p : UserProfile) (w : World Social) :
  uid ≠ userToBlock → quiet 4 w → userDocs (db w) !! uid = Some p →
  let w1 := (blockUser false notFound uid userToBlock w).2 in
  ∀ w2, db w2 = db w1 → quiet 4 w2 →
    let '(res, w3) :=
      onFriendships (createFriendRequest false userToBlock uid) w2 in
    res = inr (succeeded (generateFriendshipId uid userToBlock)) ∧
    friendshipDocs (db w3) !! generateFriendshipId uid userToBlock =
      Some (pendingRequest userToBlock uid (clock w2)) ∧
    ∃ l, blockedBy uid (db w3) = Some l ∧ userToBlock ∈ l.
Proof.
  intros Hne Hq Hp w1 w2 Hdb Hq2.
  assert (Hw1 : db w1 =
    mkSocial
      (delete (generateFriendshipId uid userToBlock) (friendshipDocs (db w)))
      (<[uid := mkUserProfile (arrayUnion userToBlock (blockedUsers p))
                  (otherFields p)]> (userDocs (db w)))).
  { subst w1. by rewrite (blockUser_quiet _ _ p). }
  rewrite onFriendships_quiet.
  set (w2' := mkWorld (friendshipDocs (db w2)) (clock w2) (faults w2)).
  assert (Hq2' : quiet 4 w2') by done.
  assert (Hid : generateFriendshipId userToBlock uid =
                generateFriendshipId uid userToBlock).
  { unfold generateFriendshipId. by rewrite sortUserIds_comm. }
  rewrite createFriendRequest_quiet by done. cbn zeta. rewrite Hid.
  assert (db w2' !! generateFriendshipId uid userToBlock = None) as ->.
  { subst w2'. cbn [db]. rewrite Hdb, Hw1. apply lookup_delete_eq. }
  cbn [db after friendshipDocs userDocs clock]. unfold blockedBy.
  cbn [userDocs]. rewrite Hdb, Hw1. cbn [userDocs].
  rewrite !lookup_insert_eq. split; [done|]. split; [done|].
  eexists. split; [done|]. apply arrayUnion_elem.
Qed.

End BlockingFacts.

Section BlockingWitnesses.
Import Js FirestoreFriendships Blocking SocialWorlds.

Ltac decided := apply (bool_decide_unpack _); vm_compute; exact I.

Lemma blockUser_blocks_witness :
  let '(res, w1) := blockUser false noDocument "u1" "u2" befriended in
  res = inr done ∧
  (∃ l, blockedBy "u1" (db w1) = Some l ∧ "u2" ∈ l ∧
        (∀ x, x ∈ blockedUsers alice → x ∈ l) ∧
        (NoDup (blockedUsers alice) → NoDup l)) ∧
  friendshipDocs (db w1) !! generateFriendshipId "u1" "u2" = None ∧
  (∀ k, k ≠ generateFriendshipId "u1" "u2" →
        friendshipDocs (db w1) !! k = friendshipDocs (db befriended) !! k) ∧
  (∀ u, u ≠ "u1" → userDocs (db w1) !! u = userDocs (db befriended) !! u) ∧
  (∀ w2, db w2 = db w1 → quiet 4 w2 →
         db (blockUser false noDocument "u1" "u2" w2).2 = db w1).
Proof.
  apply (blockUser_blocks noDocument "u1" "u2" alice befriended).
  - discriminate.
  - decided.
  - vm_compute. reflexivity.
Defined.

Lemma block_then_unblock_witness :
  blockedBy "u1"
    (db (unblockUser false noDocument "u1" "u2"
           (blockUser false noDocument "u1" "u2" befriended).2).2) =
    Some ["u9"].
Proof.
  refine (proj1 (proj2 (block_then_unblock noDocument "u1" "u2" alice befriended
                          _ _ _ _ eq_refl _))).
  - discriminate.
  - decided.
  - vm_compute. reflexivity.
  - decided.
Defined.

Lemma blockUser_not_atomic_witness :
  let '(res, w1) := blockUser false noDocument "u1" "u2" deleteFails in
  res = inr (failure "unavailable") ∧
  (∃ l, blockedBy "u1" (db w1) = Some l ∧ "u2" ∈ l) ∧
  friendshipDocs (db w1) = friendshipDocs (db deleteFails).
Proof.
  apply (blockUser_not_atomic noDocument "u1" "u2" alice deleteFails
           (ErrorObject "unavailable") []).
  - discriminate.
  - vm_compute. reflexivity.
  - reflexivity.
Defined.

Lemma blockUser_without_profile_witness :
  let '(res, w1) := blockUser false noDocument "u3" "u1" befriended in
  res = inr (failure "No document to update: users/u3") ∧
  db w1 = db befriended.
Proof.
  apply (blockUser_without_profile noDocument "u3" "u1" befriended).
  - discriminate.
  - decided.
  - vm_compute. reflexivity.
Defined.

Lemma blocked_user_can_still_request_witness :
  (onFriendships (createFriendRequest false "u2" "u1")
     (blockUser false noDocument "u1" "u2" befriended).2).1 =
    inr (succeeded "u1_u2").
Proof.
  refine (proj1 (blocked_user_can_still_request noDocument "u1" "u2" alice
                   befriended _ _ _ _ eq_refl _)).
  - discriminate.
  - decided.
  - vm_compute. reflexivity.
  - decided.
Defined.

End BlockingWitnesses.

(** ** Rate limits: shape of the results, the window, the report hook *)

Section RateLimitCheckFacts.
Import Js RateLimiting RateLimitChecks.

Implicit Types (w : World Firestore) (uid : string).

Lemma verdict_consistent (l : Limit) (n : Z) (msg : string) :
  (0 ≤ count l)%Z → (0 ≤ n)%Z → msg ≠ "" →
  consistent (count l) (verdict l n msg).
Proof.
  intros Hl Hn Hmsg. unfold consistent, verdict.
  cbn [remaining allowed error]. split_and!.
  - lia.
  - lia.
  - by rewrite bool_decide_eq_true.
  - case_bool_decide; split; done.
  - intros m. case_bool_decide; [done|]. by intros [= <-].
Qed.

Lemma countDocumentsSince_nonneg mock c uid f s w :
  ∃ n w', countDocumentsSince mock c uid f s w = (inr n, w') ∧
          db w' = db w ∧ (0 ≤ n)%Z.
Proof.
  destruct mock; [by exists 0%Z, w|].
  destruct (decide (quiet 3 w)) as [Hq|Hq].
  - rewrite countDocumentsSince_quiet by done. eexists _, _.
    split; [done|]. split; [done|]. lia.
  - destruct (countDocumentsSince_fails c uid f s w Hq) as (w' & -> & ?).
    by exists 0%Z, w'.
Qed.

(** X14. Every result of the three checks, in every configuration, for
    every user (null and empty included) and whatever the store does: the
    check returns and leaves the documents alone; remaining lies between 0
    and the ceiling of the action; allowed says that something remains;
    an error message is attached exactly when the action is refused, and
    it is not empty. *)
Theorem rate_limit_results_consistent
    (mock : bool) (userId : option string) (w : World Firestore) :
  (∃ r w', checkFriendRequestLimit mock userId w = (inr r, w') ∧
           db w' = db w ∧ consistent 20 r) ∧
  (∃ r w', checkReportLimit mock userId w = (inr r, w') ∧
           db w' = db w ∧ consistent 10 r) ∧
  (∃ r w', checkBoardCreationLimit mock userId w = (inr r, w') ∧
           db w' = db w ∧ consistent 50 r).
Proof.
  unfold checkFriendRequestLimit, checkReportLimit, checkBoardCreationLimit.
  destruct (falsy userId).
  { repeat split; eexists _, _; (split; [done|]); (split; [done|]);
      unfold consistent; cbn; split_and!; try done; try lia;
      intros m [= <-]; done. }
  unfold bind at 1 3 5. unfold dateNow. unfold bind.
  split_and!.
  - destruct (countDocumentsSince_nonneg mock "friendships"
                (default "" userId) "requestedBy"
                (clock w - windowMs (friendRequests RATE_LIMITS)) w)
      as (n & w' & -> & Hdb & Hn).
    eexists _, _. split; [done|]. split; [done|].
    by apply (verdict_consistent (friendRequests RATE_LIMITS)).
  - destruct (countDocumentsSince_nonneg mock "reports"
                (default "" userId) "reporterId"
                (clock w - windowMs (reports RATE_LIMITS)) w)
      as (n & w' & -> & Hdb & Hn).
    eexists _, _. split; [done|]. split; [done|].
    by apply (verdict_consistent (reports RATE_LIMITS)).
  - destruct (countDocumentsSince_nonneg mock "boards"
                (default "" userId) "ownerId"
                (clock w - windowMs (boards RATE_LIMITS)) w)
      as (n & w' & -> & Hdb & Hn).
    eexists _, _. split; [done|]. split; [done|].
    by apply (verdict_consistent (boards RATE_LIMITS)).
Qed.

Lemma checkFriendRequestLimit_quiet uid w :
  uid ≠ "" → quiet 3 w →
  checkFriendRequestLimit false (Some uid) w =
    (inr (verdict (friendRequests RATE_LIMITS)
            (recent "friendships" "requestedBy" uid (friendRequests RATE_LIMITS) w)
            (friendRequestMessage 20)),
     after 3 (db w) w).
Proof.
  intros Hu Hq. unfold checkFriendRequestLimit. rewrite falsy_Some by done.
  unfold bind at 1. unfold dateNow. unfold bind.
  by rewrite countDocumentsSince_quiet.
Qed.

Lemma checkBoardCreationLimit_quiet uid w :
  uid ≠ "" → quiet 3 w →
  checkBoardCreationLimit false (Some uid) w =
    (inr (verdict (boards RATE_LIMITS)
            (recent "boards" "ownerId" uid (boards RATE_LIMITS) w)
            (boardMessage 50)),
     after 3 (db w) w).
Proof.
  intros Hu Hq. unfold checkBoardCreationLimit. rewrite falsy_Some by done.
  unfold bind at 1. unfold dateNow. unfold bind.
  by rewrite countDocumentsSince_quiet.
Qed.

(** X15. checkFriendRequestLimit and checkBoardCreationLimit, for a user
    id that is neither null nor empty, with the mock off and the query
    going through: remaining is max(0, ceiling - count) for the count of
    the user's documents of the trailing 24 hours (friendships by
    requestedBy, boards by ownerId); up to 19 requests, or 49 boards, the
    next one is let through; from 20, or 50, it is refused with the message
    that names the ceiling. *)
Theorem friend_request_and_board_windows (uid : string) (w : World Firestore) :
  uid ≠ "" → quiet 3 w →
  (∃ r w', checkFriendRequestLimit false (Some uid) w = (inr r, w') ∧
     let n := recent "friendships" "requestedBy" uid
                (friendRequests RATE_LIMITS) w in
     remaining r = Z.max 0 (20 - n) ∧
     ((n ≤ 19)%Z → allowed r = true ∧ error r = None) ∧
     ((20 ≤ n)%Z →
        allowed r = false ∧ remaining r = 0%Z ∧
        error r = Some "You can only send 20 friend requests per day. Please try again later.")) ∧
  (∃ r w', checkBoardCreationLimit false (Some uid) w = (inr r, w') ∧
     let n := recent "boards" "ownerId" uid (boards RATE_LIMITS) w in
     remaining r = Z.max 0 (50 - n) ∧
     ((n ≤ 49)%Z → allowed r = true ∧ error r = None) ∧
     ((50 ≤ n)%Z →
        allowed r = false ∧ remaining r = 0%Z ∧
        error r = Some "You can only create 50 boards per day. Please try again later.")).
Proof.
  intros Hu Hq. split.
  - eexists _, _. split; [by apply checkFriendRequestLimit_quiet|].
    cbn zeta. set (n := recent _ _ _ _ _).
    destruct (verdict_cases (friendRequests RATE_LIMITS) n
                (friendRequestMessage 20)) as (Hrem & _ & Hlow & Hhigh).
    cbn [count friendRequests RATE_LIMITS] in *.
    split; [done|]. split.
    + intros Hn. apply Hlow. lia.
    + intros Hn. by apply Hhigh.
  - eexists _, _. split; [by apply checkBoardCreationLimit_quiet|].
    cbn zeta. set (n := recent _ _ _ _ _).
    destruct (verdict_cases (boards RATE_LIMITS) n (boardMessage 50))
      as (Hrem & _ & Hlow & Hhigh).
    cbn [count boards RATE_LIMITS] in *.
    split; [done|]. split.
    + intros Hn. apply Hlow. lia.
    + intros Hn. by apply Hhigh.
Qed.

Lemma friend_request_and_board_windows_witness :
  recent "friendships" "requestedBy" "u" (friendRequests RATE_LIMITS)
    Worlds.busy = 19%Z ∧
  recent "boards" "ownerId" "u" (boards RATE_LIMITS) Worlds.busy = 50%Z ∧
  (∃ r w', checkFriendRequestLimit false (Some "u") Worlds.busy = (inr r, w') ∧
     let n := recent "friendships" "requestedBy" "u"
                (friendRequests RATE_LIMITS) Worlds.busy in
     remaining r = Z.max 0 (20 - n) ∧
     ((n ≤ 19)%Z → allowed r = true ∧ error r = None) ∧
     ((20 ≤ n)%Z →
        allowed r = false ∧ remaining r = 0%Z ∧
        error r = Some "You can only send 20 friend requests per day. Please try again later.")) ∧
  (∃ r w', checkBoardCreationLimit false (Some "u") Worlds.busy = (inr r, w') ∧
     let n := recent "boards" "ownerId" "u" (boards RATE_LIMITS) Worlds.busy in
     remaining r = Z.max 0 (50 - n) ∧
     ((n ≤ 49)%Z → allowed r = true ∧ error r = None) ∧
     ((50 ≤ n)%Z →
        allowed r = false ∧ remaining r = 0%Z ∧
        error r = Some "You can only create 50 boards per day. Please try again later.")).
Proof.
  split; [vm_compute; reflexivity|]. split; [vm_compute; reflexivity|].
  apply (friend_request_and_board_windows "u" Worlds.busy).
  - discriminate.
  - apply (bool_decide_unpack _). vm_compute. exact I.
Defined.

(** *** One more document *)

Lemma matches_counts cn f uid now c x :
  c = cn →
  matches uid f (now - ONE_DAY_MS) x = true ↔ counts cn f uid now c x.
Proof.
  intros ->. unfold matches, counts.
  rewrite andb_true_iff, bool_decide_eq_true. split.
  - intros [Hf Ht]. split; [done|]. split; [done|].
    destruct (createdAt x) as [t|]; [|done].
    exists t. split; [done|]. by apply bool_decide_eq_true in Ht.
  - intros (_ & Hf & t & -> & Ht). split; [done|].
    by apply bool_decide_eq_true.
Qed.

Lemma recent_withDoc cn f uid (l : Limit) w c x :
  windowMs l = ONE_DAY_MS →
  recent cn f uid l (withDoc c x w) =
    (recent cn f uid l w +
       (if decide (counts cn f uid (clock w) c x) then 1 else 0))%Z.
Proof.
  intros Hl. unfold recent, runQuery, withDoc, addDoc. cbn [db clock].
  rewrite Hl. destruct (decide (c = cn)) as [->|Hc].
  - rewrite lookup_insert_eq. cbn [default from_option id].
    cbn [List.filter].
    pose proof (matches_counts cn f uid (clock w) cn x eq_refl) as Hm.
    destruct (decide (counts cn f uid (clock w) cn x)) as [Hx|Hx].
    + apply Hm in Hx. rewrite Hx. cbn [length]. lia.
    + destruct (matches uid f (clock w - ONE_DAY_MS) x) eqn:E.
      * destruct Hx. by apply Hm.
      * lia.
  - rewrite lookup_insert_ne by done.
    rewrite decide_False; [lia|]. by intros [? _].
Qed.

Lemma verdict_one_more (l : Limit) (n : Z) msg :
  remaining (verdict l (n + 1) msg) = Z.max 0 (remaining (verdict l n msg) - 1).
Proof. unfold verdict. cbn [remaining]. lia. Qed.

Lemma quiet_withDoc n c x w : quiet n (withDoc c x w) ↔ quiet n w.
Proof. done. Qed.

(** X16. What one more document changes, for a user id that is neither
    null nor empty, with the mock off and the query going through. A
    document counts against a check when it is in the check's collection,
    carries the user in the check's owner field and is stamped within the
    day before the reading of the clock, the instant 24 hours ago
    included (and any later instant). Such a document takes one off
    remaining, down to 0; any other document, one of somebody else, of
    another collection, older, or without createdAt, leaves the result of
    the check as it is. *)
Theorem one_more_document
    (uid : string) (w : World Firestore) (c : string) (x : Doc) :
  uid ≠ "" → quiet 3 w →
  (∃ r r',
     (checkFriendRequestLimit false (Some uid) w).1 = inr r ∧
     (checkFriendRequestLimit false (Some uid) (withDoc c x w)).1 = inr r' ∧
     (counts "friendships" "requestedBy" uid (clock w) c x →
        remaining r' = Z.max 0 (remaining r - 1)) ∧
     (¬ counts "friendships" "requestedBy" uid (clock w) c x → r' = r)) ∧
  (∃ r r',
     (checkReportLimit false (Some uid) w).1 = inr r ∧
     (checkReportLimit false (Some uid) (withDoc c x w)).1 = inr r' ∧
     (counts "reports" "reporterId" uid (clock w) c x →
        remaining r' = Z.max 0 (remaining r - 1)) ∧
     (¬ counts "reports" "reporterId" uid (clock w) c x → r' = r)) ∧
  (∃ r r',
     (checkBoardCreationLimit false (Some uid) w).1 = inr r ∧
     (checkBoardCreationLimit false (Some uid) (withDoc c x w)).1 = inr r' ∧
     (counts "boards" "ownerId" uid (clock w) c x →
        remaining r' = Z.max 0 (remaining r - 1)) ∧
     (¬ counts "boards" "ownerId" uid (clock w) c x → r' = r)).
Proof.
  intros Hu Hq.
  rewrite !checkFriendRequestLimit_quiet, !checkReportLimit_quiet,
    !checkBoardCreationLimit_quiet by done.
  cbn [fst]. rewrite !recent_withDoc by done.
  split_and!; eexists _, _; (split; [done|]); (split; [done|]); split;
    intros Hx.
  - rewrite decide_True by done. apply verdict_one_more.
  - rewrite decide_False by done. by rewrite Z.add_0_r.
  - rewrite decide_True by done. apply verdict_one_more.
  - rewrite decide_False by done. by rewrite Z.add_0_r.
  - rewrite decide_True by done. apply verdict_one_more.
  - rewrite decide_False by done. by rewrite Z.add_0_r.
Qed.

Lemma one_more_document_witness :
  ∃ r r',
     (checkReportLimit false (Some "u") (Worlds.calm 9)).1 = inr r ∧
     (checkReportLimit false (Some "u")
        (withDoc "reports" (Worlds.reportBy "u" 13600000) (Worlds.calm 9))).1
       = inr r' ∧
     (counts "reports" "reporterId" "u" (clock (Worlds.calm 9)) "reports"
        (Worlds.reportBy "u" 13600000) →
        remaining r' = Z.max 0 (remaining r - 1)) ∧
     (¬ counts "reports" "reporterId" "u" (clock (Worlds.calm 9)) "reports"
          (Worlds.reportBy "u" 13600000) → r' = r).
Proof.
  refine (proj1 (proj2 (one_more_document "u" (Worlds.calm 9) "reports"
                          (Worlds.reportBy "u" 13600000) _ _))).
  - discriminate.
  - apply (bool_decide_unpack _). vm_compute. exact I.
Defined.

End RateLimitCheckFacts.

(** ** The report hook (hooks/useReports.ts) *)

Section UseReportsFacts.
Import Js UseReports.

Variable ReportTargetType : Type.
Variable hasUserReported :
  string → ReportTargetType → string → Async RateLimiting.Firestore bool.
Variable createReport :
  string → ReportTargetType → string → ReportReason → string →
  Async RateLimiting.Firestore ReportResult.

Implicit Types (w : World RateLimiting.Firestore) (p : World Page) (h : Hook).

Lemma onStore_pageOf {A} (m : Async RateLimiting.Firestore A) h w :
  onStore m (pageOf h w) = ((m w).1, pageOf h (m w).2).
Proof.
  unfold onStore, pageOf. cbn [db clock faults store hook].
  destruct w as [d t fs]. by destruct (m _) as [r [d' t' fs']].
Qed.

Lemma page_is_pageOf p :
  p = pageOf (hook (db p)) (mkWorld (store (db p)) (clock p) (faults p)).
Proof. by destruct p as [[d h] t fs]. Qed.

Lemma setError_pageOf e h w :
  setError e (pageOf h w) = (inr tt, pageOf (mkHook (isSubmitting h) e) w).
Proof. done. Qed.

Lemma setIsSubmitting_pageOf b h w :
  setIsSubmitting b (pageOf h w) = (inr tt, pageOf (mkHook b (errorState h)) w).
Proof. done. Qed.

(** [submitReport] on a page, for a user that counts as signed in, after
    the rate limit check returned [limitCheck] in the world [w1]. *)
Lemma submitReport_steps mock uid targetType targetId reason details h w :
  uid ≠ "" →
  ∀ limitCheck w1,
    RateLimiting.checkReportLimit mock (Some uid) w = (inr limitCheck, w1) →
    submitReport mock ReportTargetType hasUserReported createReport (Some uid)
      targetType targetId reason details (pageOf h w) =
    if negb (RateLimiting.allowed limitCheck) then
      let msg := orElse (RateLimiting.error limitCheck) "Rate limit exceeded" in
      (inr (failure msg), pageOf (mkHook false (Some msg)) w1)
    else
      match hasUserReported uid targetType targetId w1 with
      | (inl e, w2) =>
          let msg := messageOr "Failed to submit report" e in
          (inr (failure msg), pageOf (mkHook false (Some msg)) w2)
      | (inr true, w2) =>
          (inr (failure "You've already reported this"),
           pageOf (mkHook false (Some "You've already reported this")) w2)
      | (inr false, w2) =>
          match createReport uid targetType targetId reason details w2 with
          | (inl e, w3) =>
              let msg := messageOr "Failed to submit report" e in
              (inr (failure msg), pageOf (mkHook false (Some msg)) w3)
          | (inr result, w3) =>
              (inr result,
               pageOf (mkHook false
                         (if negb (success result)
                          then Some (orElse (error result)
                                       "Failed to submit report")
                          else None)) w3)
          end
      end.
Proof.
  intros Hu limitCheck w1 Hcheck. unfold submitReport.
  rewrite falsy_Some by done. cbn [default from_option id].
  unfold bind at 1. rewrite setError_pageOf.
  unfold bind at 1. rewrite setIsSubmitting_pageOf.
  unfold tryCatchFinally, tryCatch. unfold bind at 1.
  rewrite onStore_pageOf, Hcheck. cbn [fst snd isSubmitting errorState].
  destruct (RateLimiting.allowed limitCheck); cbn [negb].
  - unfold bind at 1. rewrite onStore_pageOf.
    destruct (hasUserReported uid targetType targetId w1) as [[e|[|]] w2];
      cbn [fst snd].
    + unfold bind, ret. by rewrite !setError_pageOf, setIsSubmitting_pageOf.
    + unfold bind, ret. by rewrite !setError_pageOf, setIsSubmitting_pageOf.
    + unfold bind at 1. rewrite onStore_pageOf.
      destruct (createReport uid targetType targetId reason details w2)
        as [[e|result] w3]; cbn [fst snd].
      * unfold bind, ret. by rewrite !setError_pageOf, setIsSubmitting_pageOf.
      * unfold bind, ret. destruct (success result); cbn [negb];
          by rewrite ?setError_pageOf, setIsSubmitting_pageOf.
  - unfold bind, ret. by rewrite !setError_pageOf, setIsSubmitting_pageOf.
Qed.

(** X17. Every call of submitReport, whatever the configuration, the user,
    the state of the hook, the store and the two services of
    lib/firestoreReports do (a throw included): the call returns a result
    and does not throw; the error state of the hook is null afterwards
    exactly when the result is a success, so an error of an earlier call is
    cleared; isSubmitting is false afterwards, except for a user that is
    not signed in (null or empty), where it is not touched; for that user
    the result is 'Not signed in' and no remote call is made. *)
Theorem submitReport_settles
    (mock : bool) (userId : option string) (targetType : ReportTargetType)
    (targetId : string) (reason : ReportReason) (details : string)
    (p : World Page) :
  ∃ r p',
    submitReport mock ReportTargetType hasUserReported createReport userId
      targetType targetId reason details p = (inr r, p') ∧
    (success r = true ↔ errorState (hook (db p')) = None) ∧
    isSubmitting (hook (db p')) =
      (if RateLimiting.falsy userId then isSubmitting (hook (db p)) else false) ∧
    (RateLimiting.falsy userId = true →
       r = failure "Not signed in" ∧ store (db p') = store (db p) ∧
       faults p' = faults p).
Proof.
  destruct (RateLimiting.falsy userId) eqn:Hf.
  - unfold submitReport. rewrite Hf. eexists _, _. split; [done|].
    cbn. split_and!; try done; try (split; done).
  - assert (∃ uid, userId = Some uid ∧ uid ≠ "") as (uid & -> & Hu).
    { destruct userId as [uid|]; [|done]. exists uid. split; [done|].
      by apply bool_decide_eq_false in Hf. }
    rewrite (page_is_pageOf p).
    set (w := mkWorld _ _ _). set (h := hook (db p)).
    destruct (checks_never_throw mock (Some uid) w)
      as (_ & (limitCheck & w1 & Hcheck) & _).
    rewrite (submitReport_steps _ _ _ _ _ _ _ _ Hu limitCheck w1 Hcheck).
    destruct (RateLimiting.allowed limitCheck); cbn [negb].
    + destruct (hasUserReported uid targetType targetId w1) as [[e|[|]] w2].
      * eexists _, _. split; [done|]. cbn. split_and!; try done; try (split; done).
      * eexists _, _. split; [done|]. cbn. split_and!; try done; try (split; done).
      * destruct (createReport uid targetType targetId reason details w2)
          as [[e|result] w3].
        -- eexists _, _. split; [done|]. cbn. split_and!; try done;
             try (split; done).
        -- eexists _, _. split; [done|]. cbn [db pageOf hook errorState
             isSubmitting]. split_and!; try done.
           destruct (success result); cbn [negb]; split; done.
    + eexists _, _. split; [done|]. cbn. split_and!; try done; try (split; done).
Qed.

(** X18. A user over the limit is turned away before the services are
    asked: with the mock off, the query going through and ten or more
    reports of the user in the trailing 24 hours, submitReport fails with
    the message that names the ceiling of 10 (the fallback text 'Rate
    limit exceeded' is not used), sets that message as the error state,
    and neither hasUserReported nor createReport is called: whatever they
    are, the documents stay as they were and three remote calls were
    made, those of the limit check. *)
Theorem submitReport_rate_limited
    (uid : string) (targetType : ReportTargetType) (targetId : string)
    (reason : ReportReason) (details : string)
    (h : Hook) (w : World RateLimiting.Firestore) :
  uid ≠ "" → quiet 3 w →
  (10 ≤ RateLimiting.recent "reports" "reporterId" uid
          (RateLimiting.reports RateLimiting.RATE_LIMITS) w)%Z →
  let msg := "You can only submit 10 reports per day. Please try again later." in
  submitReport false ReportTargetType hasUserReported createReport (Some uid)
    targetType targetId reason details (pageOf h w) =
  (inr (failure msg), pageOf (mkHook false (Some msg)) (after 3 (db w) w)).
Proof.
  intros Hu Hq Hn msg.
  rewrite (submitReport_steps _ _ _ _ _ _ _ _ Hu _ _
             (checkReportLimit_quiet uid w Hu Hq)).
  set (n := RateLimiting.recent _ _ _ _ _) in *.
  destruct (verdict_cases (RateLimiting.reports RateLimiting.RATE_LIMITS) n
              (RateLimiting.reportMessage 10)) as (_ & _ & _ & Hhigh).
  destruct (Hhigh Hn) as (-> & _ & ->). done.
Qed.

(** X19. The limit is not enforced when it cannot be read: with the mock
    on, or with the mock off and the query of the limit check failing, a
    signed-in user passes the check however many reports the user filed in
    the last 24 hours; when hasUserReported then answers false and
    createReport returns a result, submitReport returns that result, and
    the error state is null when it is a success. *)
Theorem submitReport_limit_fails_open
    (mock : bool) (uid : string) (targetType : ReportTargetType)
    (targetId : string) (reason : ReportReason) (details : string)
    (result : ReportResult) (h : Hook) (w : World RateLimiting.Firestore) :
  uid ≠ "" → mock = true ∨ RateLimiting.queryFails w →
  (∀ w0, (hasUserReported uid targetType targetId w0).1 = inr false) →
  (∀ w0, (createReport uid targetType targetId reason details w0).1
           = inr result) →
  let '(r, p') :=
    submitReport mock ReportTargetType hasUserReported createReport (Some uid)
      targetType targetId reason details (pageOf h w) in
  r = inr result ∧
  (success result = true → errorState (hook (db p')) = None).
Proof.
  intros Hu Hopen Hno Hcreate.
  assert (∃ w1, RateLimiting.checkReportLimit mock (Some uid) w =
                  (inr (RateLimiting.mkResult true 10 None), w1))
    as (w1 & Hcheck).
  { destruct mock.
    - exists w. unfold RateLimiting.checkReportLimit.
      by rewrite falsy_Some.
    - destruct Hopen as [?|Hfail]; [done|].
      destruct (checkReportLimit_fails uid w Hu Hfail) as (w1 & ? & _).
      by exists w1. }
  rewrite (submitReport_steps _ _ _ _ _ _ _ _ Hu _ _ Hcheck).
  cbn [RateLimiting.allowed negb].
  specialize (Hno w1).
  destruct (hasUserReported uid targetType targetId w1) as [[e|[|]] w2];
    cbn [fst] in Hno; try done.
  specialize (Hcreate w2).
  destruct (createReport uid targetType targetId reason details w2)
    as [[e|r0] w3]; cbn [fst] in Hcreate; try done.
  injection Hcreate as ->. split; [done|].
  intros ->. done.
Qed.

End UseReportsFacts.

Section UseReportsWitnesses.
Import Js UseReports.

Lemma submitReport_rate_limited_witness :
  submitReport false unit neverReported created (Some "u") tt "target-456"
    spam "Test" (pageOf mounted (Worlds.calm 10)) =
  (inr (failure "You can only submit 10 reports per day. Please try again later."),
   pageOf (mkHook false
             (Some "You can only submit 10 reports per day. Please try again later."))
     (after 3 (db (Worlds.calm 10)) (Worlds.calm 10))).
Proof.
  apply (submitReport_rate_limited unit neverReported created "u" tt
           "target-456" spam "Test" mounted (Worlds.calm 10)).
  - discriminate.
  - apply (bool_decide_unpack _). vm_compute. exact I.
  - vm_compute. discriminate.
Defined.

Lemma submitReport_limit_fails_open_witness :
  let '(r, p') :=
    submitReport false unit neverReported created (Some "u") tt "target-456"
      spam "Test" (pageOf mounted (Worlds.readFails 10)) in
  r = inr (mkReportResult true (Some "report-123") None) ∧
  (success (mkReportResult true (Some "report-123") None) = true →
   errorState (hook (db p')) = None).
Proof.
  apply (submitReport_limit_fails_open unit neverReported created false "u" tt
           "target-456" spam "Test"
           (mkReportResult true (Some "report-123") None) mounted
           (Worlds.readFails 10)).
  - discriminate.
  - right. apply (bool_decide_unpack _). vm_compute. exact I.
  - reflexivity.
  - reflexivity.
Defined.

End UseReportsWitnesses.

(** ** Join codes (lib/wordBank.ts) *)

Section PatternFacts.
Import WordBank.

Implicit Types (r : Regex) (s x y : string) (c : ascii) (p : ascii → bool).

Lemma append_nil_l y : "" +:+ y = y.
Proof. done. Qed.

Lemma append_cons c x y : String c x +:+ y = String c (x +:+ y).
Proof. done. Qed.

Lemma append_nil_r s : s +:+ "" = s.
Proof. induction s as [|c s IH]; [done|]. by rewrite append_cons, IH. Qed.

Lemma append_assoc x y s : (x +:+ y) +:+ s = x +:+ (y +:+ s).
Proof. induction x as [|c x IH]; [done|]. by rewrite !append_cons, IH. Qed.

Lemma append_eq_nil x y : x +:+ y = "" → x = "" ∧ y = "".
Proof. destruct x; [done|]. rewrite append_cons. discriminate. Qed.

Lemma append_eq_cons x y c s :
  x +:+ y = String c s →
  (x = "" ∧ y = String c s) ∨ (∃ x', x = String c x' ∧ s = x' +:+ y).
Proof.
  destruct x as [|c' x']; intros H.
  - by left.
  - rewrite append_cons in H. injection H as -> <-. right. by exists x'.
Qed.

Lemma nullable_Lang r : nullable r = true ↔ Lang r "".
Proof.
  induction r as [| |p|r1 IH1 r2 IH2|r1 IH1 r2 IH2|r IH]; simpl.
  - split; [done|]. inversion 1.
  - split; [constructor|done].
  - split; [done|]. inversion 1.
  - rewrite andb_true_iff, IH1, IH2. split.
    + intros [H1 H2]. by apply (Lang_Seq r1 r2 "" "").
    + inversion 1 as [| |? ? x y Hx Hy Heq| | | |]; subst.
      match goal with H : _ +:+ _ = "" |- _ =>
        apply append_eq_nil in H as [-> ->] end. done.
  - rewrite orb_true_iff, IH1, IH2. split.
    + intros [H|H]; [by apply Lang_Alt_l|by apply Lang_Alt_r].
    + inversion 1; subst; auto.
  - split; [constructor|done].
Qed.

Lemma Lang_Star_cons_inv r c s :
  Lang (Star r) (String c s) →
  ∃ x y, s = x +:+ y ∧ Lang r (String c x) ∧ Lang (Star r) y.
Proof.
  intros H. remember (Star r) as r' eqn:Hr. remember (String c s) as s' eqn:Hs.
  induction H as [| | | | | |r0 x y Hx _ Hy IH]; try discriminate.
  injection Hr as ->.
  apply append_eq_cons in Hs as [[-> ->]|(x' & -> & ->)].
  - by apply IH.
  - by exists x', y.
Qed.

Lemma deriv_Lang r c s : Lang (deriv c r) s ↔ Lang r (String c s).
Proof.
  revert s. induction r as [| |p|r1 IH1 r2 IH2|r1 IH1 r2 IH2|r IH];
    intros s; simpl.
  - split; inversion 1.
  - split; inversion 1.
  - destruct (p c) eqn:Hp; split.
    + inversion 1; subst. by constructor.
    + inversion 1; subst. constructor.
    + inversion 1.
    + inversion 1; subst. congruence.
  - assert (Hleft : ∀ s, Lang (Seq (deriv c r1) r2) s → Lang (Seq r1 r2) (String c s)).
    { intros s0. inversion 1 as [| |? ? x y Hx Hy| | | |]; subst.
      apply IH1 in Hx. by apply (Lang_Seq r1 r2 (String c x) y). }
    assert (Hright : ∀ s, Lang (Seq r1 r2) (String c s) →
              (∃ x y, s = x +:+ y ∧ Lang r1 (String c x) ∧ Lang r2 y) ∨
              (Lang r1 "" ∧ Lang r2 (String c s))).
    { intros s0. inversion 1 as [| |? ? x y Hx Hy Heq| | | |]; subst.
      match goal with H : _ +:+ _ = String _ _ |- _ =>
        apply append_eq_cons in H as [[-> ->]|(x' & -> & ->)] end.
      - by right.
      - left. by exists x', y. }
    destruct (nullable r1) eqn:Hn; split.
    + inversion 1; subst; [by apply Hleft|].
      apply (Lang_Seq r1 r2 "" (String c s)); [by apply nullable_Lang|].
      by apply IH2.
    + intros [(x & y & -> & Hx & Hy)|[_ Hy]]%Hright.
      * apply Lang_Alt_l. apply Lang_Seq; [by apply IH1|done].
      * apply Lang_Alt_r. by apply IH2.
    + apply Hleft.
    + intros [(x & y & -> & Hx & Hy)|[Hx _]]%Hright.
      * apply Lang_Seq; [by apply IH1|done].
      * apply nullable_Lang in Hx. congruence.
  - split.
    + inversion 1; subst; [apply Lang_Alt_l; by apply IH1|
                           apply Lang_Alt_r; by apply IH2].
    + inversion 1; subst; [apply Lang_Alt_l; by apply IH1|
                           apply Lang_Alt_r; by apply IH2].
  - split.
    + inversion 1 as [| |? ? x y Hx Hy| | | |]; subst.
      apply IH in Hx. by apply (Lang_Star_cons r (String c x) y).
    + intros (x & y & -> & Hx & Hy)%Lang_Star_cons_inv.
      apply Lang_Seq; [by apply IH|done].
Qed.

(** The test by derivatives accepts exactly the strings of the pattern. *)
Lemma test_Lang r s : test r s = true ↔ Lang r s.
Proof.
  revert r. induction s as [|c s IH]; intros r; simpl.
  - apply nullable_Lang.
  - by rewrite IH, deriv_Lang.
Qed.

Lemma Lang_Star_Class p s : Lang (Star (Class p)) s ↔ all p s = true.
Proof.
  split.
  - intros H. remember (Star (Class p)) as r eqn:Hr.
    induction H as [| | | | | |r0 x y Hx _ Hy IH]; try discriminate; [done|].
    injection Hr as ->. inversion Hx; subst. simpl.
    rewrite andb_true_iff. split; [done|]. by apply IH.
  - induction s as [|c s IH]; simpl; [constructor|].
    rewrite andb_true_iff. intros [Hc Hs].
    apply (Lang_Star_cons (Class p) (String c "") s); [by constructor|auto].
Qed.

Lemma Lang_plus_Class p s :
  Lang (plus (Class p)) s ↔ s ≠ "" ∧ all p s = true.
Proof.
  unfold plus. split.
  - inversion 1 as [| |? ? x y Hx Hy| | | |]; subst.
    inversion Hx; subst. simpl. split; [done|].
    rewrite andb_true_iff. split; [done|]. by apply Lang_Star_Class.
  - intros [Hne Hall]. destruct s as [|c s]; [done|]. simpl in Hall.
    apply andb_true_iff in Hall as [Hc Hs].
    apply (Lang_Seq (Class p) _ (String c "") s); [by constructor|].
    by apply Lang_Star_Class.
Qed.

Lemma Lang_dash s : Lang (Class dash) s ↔ s = "-".
Proof.
  split.
  - inversion 1 as [|? c Hc| | | | |]; subst.
    unfold dash in Hc. apply Ascii.eqb_eq in Hc. by subst.
  - intros ->. by constructor.
Qed.

(** The strings the pattern of isValidJoinCode accepts. *)
Lemma joinCodePattern_shape (code : string) :
  isValidJoinCode code = true ↔
  ∃ a b, isWord a ∧ isWord b ∧
         (code = a +:+ "-" +:+ b ∨
          ∃ n, isNumber n ∧ code = a +:+ "-" +:+ b +:+ "-" +:+ n).
Proof.
  unfold isValidJoinCode. rewrite test_Lang. unfold joinCodePattern, opt.
  split.
  - inversion 1 as [| |? ? a t1 Ha H1| | | |]; subst.
    inversion H1 as [| |? ? d1 t2 Hd1 H2| | | |]; subst.
    inversion H2 as [| |? ? b t3 Hb H3| | | |]; subst.
    apply Lang_plus_Class in Ha, Hb. apply Lang_dash in Hd1 as ->.
    exists a, b. split; [done|]. split; [done|].
    inversion H3 as [| | |? ? ? H4|? ? ? H4| |]; subst.
    + inversion H4 as [| |? ? d2 n Hd2 Hn| | | |]; subst.
      apply Lang_dash in Hd2 as ->. apply Lang_plus_Class in Hn.
      right. by exists n.
    + inversion H4; subst. left. by rewrite append_nil_r.
  - intros (a & b & Ha & Hb & Hcode).
    apply Lang_plus_Class in Ha, Hb.
    destruct Hcode as [->|(n & Hn & ->)].
    + apply Lang_Seq; [done|]. apply Lang_Seq; [by apply Lang_dash|].
      rewrite <- (append_nil_r b). apply Lang_Seq; [done|].
      apply Lang_Alt_r. constructor.
    + apply Lang_Seq; [done|]. apply Lang_Seq; [by apply Lang_dash|].
      apply Lang_Seq; [done|]. apply Lang_Alt_l.
      apply Lang_Seq; [by apply Lang_dash|]. by apply Lang_plus_Class.
Qed.

(** X23. isValidJoinCode accepts exactly the strings word-word and
    word-word-number, where a word is one or more letters a to z and a
    number one or more digits. So the empty string, capitals, a missing
    or empty part and anything around the code are refused, while words
    that are not in the word bank and numbers of any length are let
    through. *)
Theorem isValidJoinCode_shape (code : string) :
  isValidJoinCode code = true ↔
  ∃ a b, isWord a ∧ isWord b ∧
         (code = a +:+ "-" +:+ b ∨
          ∃ n, isNumber n ∧ code = a +:+ "-" +:+ b +:+ "-" +:+ n).
Proof. exact (joinCodePattern_shape code). Qed.

End PatternFacts.

(** *** Rounding *)

Section RoundingFacts.
Import Rounding.
Local Open Scope Z_scope.

Lemma bit_bounds (b : bool) : 0 ≤ bit b ≤ 1.
Proof. destruct b; simpl; lia. Qed.

Lemma digits2_pos_bounds (m : positive) :
  2 ^ (Z.pos (digits2_pos m) - 1) ≤ Z.pos m < 2 ^ Z.pos (digits2_pos m).
Proof.
  induction m as [m IH|m IH|]; cbn [digits2_pos]; [| |done].
  - rewrite Pos2Z.inj_succ.
    replace (Z.succ (Z.pos (digits2_pos m)) - 1)
      with (Z.succ (Z.pos (digits2_pos m) - 1)) by lia.
    rewrite !Z.pow_succ_r by lia. lia.
  - rewrite Pos2Z.inj_succ.
    replace (Z.succ (Z.pos (digits2_pos m)) - 1)
      with (Z.succ (Z.pos (digits2_pos m) - 1)) by lia.
    rewrite !Z.pow_succ_r by lia. lia.
Qed.

Lemma shr_1_shifted M k mrs :
  0 ≤ k → shifted M k mrs → shifted M (k + 1) (shr_1 mrs).
Proof.
  intros Hk [Hm Hb]. destruct mrs as [m r s]. cbn [shr_m shr_r] in *.
  pose proof (bit_bounds r).
  assert (0 < 2 ^ k) by (apply Z.pow_pos_nonneg; lia).
  unfold shifted. rewrite Z.pow_add_r, Z.pow_1_r by lia.
  destruct m as [|[p|p|]|p]; [| | | |lia]; cbn [shr_1 shr_m shr_r bit];
    (split; [lia|nia]).
Qed.

Lemma iter_pos_shifted M p : ∀ k mrs,
  0 ≤ k → shifted M k mrs → shifted M (k + Z.pos p) (SpecFloat.iter_pos shr_1 p mrs).
Proof.
  induction p as [p IH|p IH|]; intros k mrs Hk H; cbn [SpecFloat.iter_pos].
  - replace (k + Z.pos p~1) with (k + 1 + Z.pos p + Z.pos p) by lia.
    apply IH; [lia|]. apply IH; [lia|]. by apply shr_1_shifted.
  - replace (k + Z.pos p~0) with (k + Z.pos p + Z.pos p) by lia.
    apply IH; [lia|]. by apply IH.
  - by apply shr_1_shifted.
Qed.

Lemma shr_shifted (m e n : Z) :
  0 ≤ m →
  shifted m (Z.max 0 n) (shr (shr_record_of_loc m loc_Exact) e n).1 ∧
  (shr (shr_record_of_loc m loc_Exact) e n).2 = e + Z.max 0 n.
Proof.
  intros Hm.
  assert (H0 : shifted m 0 (shr_record_of_loc m loc_Exact)).
  { unfold shifted. simpl. lia. }
  destruct n as [|p|p]; cbn [shr fst snd].
  - split; [done|]. lia.
  - split; [|lia]. replace (Z.max 0 (Z.pos p)) with (0 + Z.pos p) by lia.
    by apply iter_pos_shifted.
  - split; [done|]. lia.
Qed.

Lemma round_nearest_even_bound (mrs : shr_record) :
  0 ≤ shr_m mrs →
  0 ≤ round_nearest_even (shr_m mrs) (loc_of_shr_record mrs)
    ≤ shr_m mrs + bit (shr_r mrs).
Proof.
  destruct mrs as [m [] []]; cbn; intros; try destruct (Z.even m); lia.
Qed.

Variables prec emax : Z.

(** What [binary_round_aux] makes of the exact mantissa [M] at exponent
    [E]: the mantissa [m] and the exponent [E + n] it arrives at are at
    most half a unit of the first rounding above [M]. *)
Lemma binary_round_aux_bound (M : positive) (E : Z) :
  let n1 := Z.max 0 (fexp prec emax (Z.pos (digits2_pos M) + E) - E) in
  let first := shr_fexp prec emax (Z.pos M) E loc_Exact in
  let second :=
    shr_fexp prec emax
      (round_nearest_even (shr_m first.1) (loc_of_shr_record first.1))
      first.2 loc_Exact in
  ∃ n2, 0 ≤ n2 ∧ 0 ≤ shr_m second.1 ∧ second.2 = E + n1 + n2 ∧
        2 * shr_m second.1 * 2 ^ (n1 + n2) ≤ 2 * Z.pos M + 2 ^ n1.
Proof.
  intros n1 first second. subst first second. unfold shr_fexp.
  cbn [Zdigits2]. fold n1.
  destruct (shr_shifted (Z.pos M) E
              (fexp prec emax (Z.pos (digits2_pos M) + E) - E))
    as [[Hm1 Hb1] He1]; [lia|].
  fold n1 in Hb1, He1.
  set (mrs1 := (shr (shr_record_of_loc (Z.pos M) loc_Exact) E _).1) in *.
  set (e1 := (shr (shr_record_of_loc (Z.pos M) loc_Exact) E _).2) in *.
  pose proof (round_nearest_even_bound mrs1 Hm1) as Hr.
  set (m1 := round_nearest_even _ _) in *.
  set (n := fexp prec emax (Zdigits2 m1 + e1) - e1).
  destruct (shr_shifted m1 e1 n) as [[Hm2 Hb2] He2]; [lia|].
  exists (Z.max 0 n). split; [lia|]. split; [done|]. split; [lia|].
  set (mrs2 := (shr (shr_record_of_loc m1 loc_Exact) e1 n).1) in *.
  pose proof (bit_bounds (shr_r mrs2)). pose proof (bit_bounds (shr_r mrs1)).
  assert (0 < 2 ^ n1) by (apply Z.pow_pos_nonneg; lia).
  assert (0 < 2 ^ Z.max 0 n) by (apply Z.pow_pos_nonneg; lia).
  rewrite Z.pow_add_r by lia.
  assert (2 * shr_m mrs2 * 2 ^ Z.max 0 n ≤ 2 * m1) by nia.
  assert (2 * m1 * 2 ^ n1 ≤ 2 * Z.pos M + 2 ^ n1) by nia.
  nia.
Qed.

End RoundingFacts.

Section FloorFacts.
Import Rounding WordBank.
Local Open Scope Z_scope.

(** A value of [Math.random()] that is not zero: at most 53 digits, an
    exponent of the format, and a mantissa below [2^(-e)], which is to
    say a number below 1. *)
Lemma isRandom_finite s m e :
  isRandom (S754_finite s m e) = true →
  s = false ∧ Z.pos (digits2_pos m) ≤ 53 ∧ -1074 ≤ e < 0 ∧
  Z.pos m < 2 ^ (- e).
Proof.
  unfold isRandom. destruct s; [done|].
  intros [Hb Hd]%andb_true_iff. apply Z.leb_le in Hd.
  apply andb_true_iff in Hb as [Hc _].
  unfold canonical_mantissa, fexp, emin, prec, emax in Hc.
  apply Z.eqb_eq in Hc.
  pose proof (digits2_pos_bounds m) as [_ Hm].
  split; [done|]. split; [lia|]. split; [lia|].
  eapply Z.lt_le_trans; [exact Hm|]. apply Z.pow_le_mono_r; lia.
Qed.

Lemma digits2_pos_mul (mx my : positive) :
  Z.pos (digits2_pos (mx * my))
    ≤ Z.pos (digits2_pos mx) + Z.pos (digits2_pos my).
Proof.
  pose proof (digits2_pos_bounds mx) as [_ Hx].
  pose proof (digits2_pos_bounds my) as [_ Hy].
  pose proof (digits2_pos_bounds (mx * my)) as [Hxy _].
  rewrite Pos2Z.inj_mul in Hxy.
  assert (2 ^ (Z.pos (digits2_pos (mx * my)) - 1)
          < 2 ^ (Z.pos (digits2_pos mx) + Z.pos (digits2_pos my))) as H.
  { rewrite Z.pow_add_r by lia. nia. }
  apply Z.pow_lt_mono_r_iff in H; lia.
Qed.

(** The product of a value of [Math.random()] and the whole number [N],
    rounded and floored, is a whole number below [N]. The double of [N]
    has the mantissa [my], of 53 digits and not a power of two, and the
    exponent [ey]. *)
Lemma floor_product_below (r : Random) (my : positive) (ey N : Z) :
  2 ^ 52 < Z.pos my < 2 ^ 53 → -53 ≤ ey ≤ 0 → Z.pos my = N * 2 ^ (- ey) →
  ∃ z, mathFloor (SFmul prec emax (value r) (S754_finite false my ey))
         = Whole z ∧ 0 ≤ z < N.
Proof.
  intros Hmy Hey HN.
  assert (0 < 2 ^ (- ey)) as Hpey by (apply Z.pow_pos_nonneg; lia).
  assert (0 < N) as HNpos by nia.
  assert (N < 2 ^ 53) as HNlt by nia.
  destruct r as [[s|s| |s mx ex] Hr]; cbn [value]; try done.
  { destruct s; [done|]. exists 0. split; [done|]. lia. }
  apply isRandom_finite in Hr as (-> & Hdx & Hex & Hmx).
  cbn [SFmul xorb]. unfold binary_round_aux.
  pose proof (binary_round_aux_bound prec emax (mx * my) (ex + ey)) as Hround.
  cbv zeta in Hround.
  destruct (shr_fexp prec emax (Z.pos (mx * my)) (ex + ey) loc_Exact)
    as [mrs1 e1].
  cbn [fst snd] in Hround.
  destruct (shr_fexp prec emax
              (round_nearest_even (shr_m mrs1) (loc_of_shr_record mrs1))
              e1 loc_Exact) as [mrs2 e2].
  cbn [fst snd] in Hround.
  destruct Hround as (n2 & Hn2 & Hm2 & -> & Hbound).
  set (n1 := Z.max 0 (fexp prec emax (Z.pos (digits2_pos (mx * my)) + (ex + ey))
                      - (ex + ey))) in *.
  assert (0 ≤ n1 ≤ 53) as Hn1.
  { subst n1. unfold fexp, emin, prec, emax.
    pose proof (digits2_pos_mul mx my).
    pose proof (digits2_pos_bounds my) as [Hd _].
    assert (Z.pos (digits2_pos my) - 1 < 53).
    { apply (Z.pow_lt_mono_r_iff 2); lia. }
    lia. }
  clearbody n1.
  set (K := - (ex + ey)).
  assert (0 < K) as HK by (unfold K; lia).
  assert (shr_m mrs2 * 2 ^ (n1 + n2) < N * 2 ^ K) as Hstar.
  { assert (2 ^ n1 ≤ 2 ^ 53) by (apply Z.pow_le_mono_r; lia).
    assert (0 < 2 ^ (- ex)) by (apply Z.pow_pos_nonneg; lia).
    assert (2 ^ K = 2 ^ (- ey) * 2 ^ (- ex)) as ->.
    { unfold K. rewrite <- Z.pow_add_r by lia. f_equal. lia. }
    rewrite Pos2Z.inj_mul in Hbound.
    assert (2 * (Z.pos mx * Z.pos my)
            ≤ 2 * Z.pos my * 2 ^ (- ex) - 2 * Z.pos my) by nia.
    nia. }
  assert (0 < 2 ^ K) by (apply Z.pow_pos_nonneg; lia).
  assert (0 < 2 ^ (n1 + n2)) by (apply Z.pow_pos_nonneg; lia).
  destruct (shr_m mrs2) as [|m|m] eqn:Em; [| |exfalso; clear - Hm2; lia].
  { exists 0. split; [done|]. lia. }
  assert (n1 + n2 < 53 + K) as Hs.
  { apply (Z.pow_lt_mono_r_iff 2); [lia|lia|].
    rewrite (Z.pow_add_r 2 53 K) by lia.
    assert (2 ^ (n1 + n2) ≤ Z.pos m * 2 ^ (n1 + n2)) by nia.
    assert (N * 2 ^ K < 2 ^ 53 * 2 ^ K)
      by (apply Z.mul_lt_mono_pos_r; [done|lia]).
    lia. }
  rewrite (proj2 (Z.leb_le _ _)) by (unfold emax, prec, K in *; lia).
  cbn [mathFloor cond_Zopp]. eexists. split; [done|].
  split; [by apply Z.shiftl_nonneg|].
  set (e2 := ex + ey + n1 + n2).
  destruct (decide (0 ≤ e2)) as [He2|He2].
  - rewrite Z.shiftl_mul_pow2 by done.
    assert (2 ^ (n1 + n2) = 2 ^ e2 * 2 ^ K) as Hsplit.
    { rewrite <- Z.pow_add_r by lia. f_equal. unfold e2, K. lia. }
    rewrite Hsplit in Hstar. nia.
  - rewrite Z.shiftl_div_pow2 by lia.
    assert (0 < 2 ^ (- e2)) by (apply Z.pow_pos_nonneg; lia).
    apply Z.div_lt_upper_bound; [done|].
    assert (2 ^ K = 2 ^ (n1 + n2) * 2 ^ (- e2)) as Hsplit.
    { rewrite <- Z.pow_add_r by lia. f_equal. unfold e2, K. lia. }
    rewrite Hsplit in Hstar. nia.
Qed.

End FloorFacts.

(** *** generateJoinCode *)

Section GeneratorFacts.
Import WordBank.

Variable random : Source.

Implicit Types (existingCodes : gset string) (k n i j fuel : nat)
  (maxRetries : Number).

(** The lengths of the two arrays and the literal 100, as doubles. *)
Lemma ofNat_50 : ofNat 50 = S754_finite false 7036874417766400 (-47).
Proof. reflexivity. Qed.

Lemma ofNat_100 : ofNat 100 = S754_finite false 7036874417766400 (-46).
Proof. reflexivity. Qed.

Lemma floorTimes_lt (r : Random) n :
  n = 50 ∨ n = 100 → ∃ i, floorTimes r n = Whole (Z.of_nat i) ∧ i < n.
Proof.
  intros [-> | ->]; unfold floorTimes.
  - rewrite ofNat_50.
    destruct (floor_product_below r 7036874417766400 (-47) 50)
      as (z & -> & Hz); [done|lia|done|].
    exists (Z.to_nat z). rewrite Z2Nat.id by lia. split; [done|lia].
  - rewrite ofNat_100.
    destruct (floor_product_below r 7036874417766400 (-46) 100)
      as (z & -> & Hz); [done|lia|done|].
    exists (Z.to_nat z). rewrite Z2Nat.id by lia. split; [done|lia].
Qed.

Lemma word_elem_of (l : list string) i :
  i < length l → word l (Whole (Z.of_nat i)) ∈ l.
Proof.
  intros Hi. unfold word. rewrite decide_True by lia. rewrite Nat2Z.id.
  destruct (lookup_lt_is_Some_2 l i Hi) as [x Hx]. rewrite Hx.
  by apply list_elem_of_lookup_2 in Hx.
Qed.

Lemma generateJoinCode_words k :
  ∃ adj noun, adj ∈ adjectives ∧ noun ∈ nouns ∧
              generateJoinCode random k = (adj +:+ "-" +:+ noun, k + 2).
Proof.
  unfold generateJoinCode, mathRandom.
  change (length adjectives) with 50. change (length nouns) with 50.
  destruct (floorTimes_lt (random k) 50) as (i & -> & Hi); [by left|].
  destruct (floorTimes_lt (random (S k)) 50) as (j & -> & Hj); [by left|].
  exists (word adjectives (Whole (Z.of_nat i))), (word nouns (Whole (Z.of_nat j))).
  split; [by apply word_elem_of|]. split; [by apply word_elem_of|].
  by replace (k + 2) with (S (S k)) by lia.
Qed.

Lemma bank_words :
  Forall isWord adjectives ∧ Forall isWord nouns.
Proof.
  split; apply (bool_decide_unpack _); vm_compute; exact I.
Qed.

Lemma suffix_number (z : Z) : (0 ≤ z < 100)%Z → isNumber (pretty z).
Proof.
  intros Hz.
  assert (H : Forall (λ i, isNumber (pretty (Z.of_nat i))) (seq 0 100)).
  { apply (bool_decide_unpack _). vm_compute. exact I. }
  rewrite Forall_lookup in H. specialize (H (Z.to_nat z) (Z.to_nat z)).
  rewrite Z2Nat.id in H by lia. apply H. apply lookup_seq_lt. lia.
Qed.

(** X20. Every code generateJoinCode returns, whatever Math.random
    gives, is an adjective and a noun of the word bank joined by a dash;
    isValidJoinCode accepts it; two random numbers are drawn. The
    products are those of the doubles, rounded before they are floored. *)
Theorem generated_code_is_valid (k : nat) :
  let '(code, k') := generateJoinCode random k in
  (∃ adj noun, adj ∈ adjectives ∧ noun ∈ nouns ∧ code = adj +:+ "-" +:+ noun) ∧
  isValidJoinCode code = true ∧
  k' = k + 2.
Proof.
  destruct (generateJoinCode_words k) as (adj & noun & Ha & Hn & ->).
  split; [by exists adj, noun|]. split; [|done].
  apply joinCodePattern_shape. exists adj, noun.
  destruct bank_words as [HA HN]. rewrite Forall_forall in HA, HN.
  split; [by apply HA|]. split; [by apply HN|]. by left.
Qed.

(** *** generateUniqueJoinCode *)

Lemma generateJoinCode_attempt k :
  generateJoinCode random k = (attempt random k 0, k + 2).
Proof.
  unfold attempt. replace (k + 2 * 0) with k by lia.
  destruct (generateJoinCode_words k) as (adj & noun & _ & _ & ->). done.
Qed.

Lemma attempt_at k j : generateJoinCode random (k + 2 * j)
                       = (attempt random k j, k + 2 * (j + 1)).
Proof.
  rewrite generateJoinCode_attempt. unfold attempt. f_equal; [|lia].
  do 2 f_equal. lia.
Qed.

Lemma attempt_words k i :
  ∃ adj noun, isWord adj ∧ isWord noun ∧
              attempt random k i = adj +:+ "-" +:+ noun.
Proof.
  unfold attempt.
  destruct (generateJoinCode_words (k + 2 * i)) as (adj & noun & Ha & Hn & ->).
  destruct bank_words as [HA HN]. rewrite Forall_forall in HA, HN.
  exists adj, noun. split; [by apply HA|]. split; [by apply HN|done].
Qed.

(** The loop, entered in round [j]. *)
Lemma firstFree_outcomes existingCodes maxRetries fuel : ∀ j k,
  match firstFree random existingCodes (float maxRetries) fuel
          (counter j) (k + 2 * j) with
  | Some (Some code, k') =>
      ∃ i, j ≤ i < j + fuel ∧
           (∀ l, j ≤ l ≤ i → within maxRetries l = true) ∧
           code = attempt random k i ∧ (code ∉ existingCodes) ∧
           (∀ l, j ≤ l < i → attempt random k l ∈ existingCodes) ∧
           k' = k + 2 * (i + 1)
  | Some (None, k') =>
      ∃ n, j ≤ n < j + fuel ∧ within maxRetries n = false ∧
           (∀ l, j ≤ l < n →
              within maxRetries l = true ∧
              attempt random k l ∈ existingCodes) ∧
           k' = k + 2 * n
  | None =>
      ∀ l, j ≤ l < j + fuel →
        within maxRetries l = true ∧ attempt random k l ∈ existingCodes
  end.
Proof.
  induction fuel as [|fuel IH]; intros j k; cbn [firstFree].
  { intros l Hl. lia. }
  fold (within maxRetries j).
  destruct (within maxRetries j) eqn:Hj.
  - rewrite attempt_at. case_decide as Hin.
    + specialize (IH (S j) k). cbn [counter] in IH.
      replace (k + 2 * S j) with (k + 2 * (j + 1)) in IH by lia.
      destruct (firstFree random existingCodes (float maxRetries) fuel
                  (increment (counter j)) (k + 2 * (j + 1)))
        as [[[code|] k']|].
      * destruct IH as (i & Hi & Hw & -> & Hfree & Hbefore & ->).
        exists i. split; [lia|]. split.
        { intros l Hl. destruct (decide (l = j)) as [->|]; [done|].
          apply Hw. lia. }
        split; [done|]. split; [done|]. split; [|done].
        intros l Hl. destruct (decide (l = j)) as [->|]; [done|].
        apply Hbefore. lia.
      * destruct IH as (n & Hn & Hw & Hall & ->).
        exists n. split; [lia|]. split; [done|]. split; [|done].
        intros l Hl. destruct (decide (l = j)) as [->|]; [done|].
        apply Hall. lia.
      * intros l Hl. destruct (decide (l = j)) as [->|]; [done|].
        apply IH. lia.
    + exists j. split; [lia|]. split.
      { intros l Hl. by replace l with j by lia. }
      split; [done|]. split; [done|]. split; [|done]. intros l Hl. lia.
  - exists j. split; [lia|]. split; [done|]. split; [|done].
    intros l Hl. lia.
Qed.

(** The two ways [generateUniqueJoinCode] ends, and what is the case
    when the loop is still running. *)
Lemma generateUniqueJoinCode_cases existingCodes maxRetries fuel k :
  match generateUniqueJoinCode random existingCodes maxRetries fuel k with
  | Some (code, k') =>
      isValidJoinCode code = true ∧
      ((∃ i, i < fuel ∧ (∀ j, j ≤ i → within maxRetries j = true) ∧
             code = attempt random k i ∧ (code ∉ existingCodes) ∧
             (∀ j, j < i → attempt random k j ∈ existingCodes) ∧
             k' = k + 2 * (i + 1)) ∨
       (∃ n, n < fuel ∧ within maxRetries n = false ∧
             (∀ j, j < n →
                within maxRetries j = true ∧
                attempt random k j ∈ existingCodes) ∧
             (∃ suffix : Z,
                (0 ≤ suffix < 100)%Z ∧
                code = attempt random k n +:+ "-" +:+ pretty suffix) ∧
             k' = k + 2 * n + 3))
  | None =>
      ∀ j, j < fuel →
        within maxRetries j = true ∧ attempt random k j ∈ existingCodes
  end.
Proof.
  pose proof (firstFree_outcomes existingCodes maxRetries fuel 0 k) as H.
  unfold generateUniqueJoinCode. cbn [counter] in H.
  replace (k + 2 * 0) with k in H by lia.
  destruct (firstFree random existingCodes (float maxRetries) fuel
              (ofNat 0) k) as [[[code|] k']|].
  - destruct H as (i & Hi & Hw & -> & Hfree & Hbefore & ->). split.
    + destruct (attempt_words k i) as (adj & noun & Ha & Hn & ->).
      apply joinCodePattern_shape. exists adj, noun. by eauto.
    + left. exists i. split; [lia|]. split; [intros; apply Hw; lia|].
      split; [done|]. split; [done|]. split; [|done].
      intros; apply Hbefore; lia.
  - destruct H as (n & Hn & Hw & Hall & ->).
    rewrite attempt_at. unfold mathRandom.
    destruct (floorTimes_lt (random (k + 2 * (n + 1))) 100)
      as (s & -> & Hs); [by right|].
    cbn [toString]. split.
    + destruct (attempt_words k n) as (adj & noun & Ha & Hno & ->).
      apply joinCodePattern_shape. exists adj, noun.
      split; [done|]. split; [done|]. right. exists (pretty (Z.of_nat s)).
      split; [apply suffix_number; lia|].
      by rewrite !append_assoc.
    + right. exists n. split; [lia|]. split; [done|]. split.
      { intros; apply Hall; lia. }
      split; [|lia]. exists (Z.of_nat s). split; [lia|done].
  - intros j Hj. apply H. lia.
Qed.

(** More fuel does not change a result. *)
Lemma firstFree_more_fuel existingCodes (bound : spec_float) fuel :
  ∀ fuel' (c : spec_float) k x,
    fuel ≤ fuel' →
    firstFree random existingCodes bound fuel c k = Some x →
    firstFree random existingCodes bound fuel' c k = Some x.
Proof.
  induction fuel as [|fuel IH]; intros fuel' c k x Hle; [done|].
  destruct fuel' as [|fuel']; [lia|]. cbn [firstFree].
  destruct (SFltb c bound); [|done].
  destruct (generateJoinCode random k) as [code k'].
  case_decide; [|done]. apply IH. lia.
Qed.

Lemma generateUniqueJoinCode_more_fuel existingCodes maxRetries fuel fuel' k x :
  fuel ≤ fuel' →
  generateUniqueJoinCode random existingCodes maxRetries fuel k = Some x →
  generateUniqueJoinCode random existingCodes maxRetries fuel' k = Some x.
Proof.
  intros Hle. unfold generateUniqueJoinCode.
  destruct (firstFree random existingCodes (float maxRetries) fuel (ofNat 0) k)
    as [y|] eqn:E; [|done].
  by rewrite (firstFree_more_fuel _ _ _ _ _ _ _ Hle E).
Qed.

(** The loop ends in a round where its condition fails or the code drawn
    is new, once that round is within the fuel. *)
Lemma generateUniqueJoinCode_returns existingCodes maxRetries fuel k n :
  n < fuel →
  within maxRetries n = false ∨ (attempt random k n ∉ existingCodes) →
  ∃ code k',
    generateUniqueJoinCode random existingCodes maxRetries fuel k
      = Some (code, k').
Proof.
  intros Hn Hend.
  pose proof (generateUniqueJoinCode_cases existingCodes maxRetries fuel k) as H.
  destruct (generateUniqueJoinCode random existingCodes maxRetries fuel k)
    as [[code k']|]; [by eauto|].
  destruct (H n Hn) as [Hw Hin]. destruct Hend as [Hend|Hend]; [congruence|done].
Qed.

(** With the default bound the loop makes twenty rounds at most. *)
Lemma default_rounds :
  (∀ j, j < 20 → within defaultMaxRetries j = true) ∧
  within defaultMaxRetries 20 = false.
Proof.
  split; [|reflexivity]. intros j Hj.
  assert (H : Forall (λ j, within defaultMaxRetries j = true) (seq 0 20)).
  { apply (bool_decide_unpack _). vm_compute. exact I. }
  rewrite Forall_lookup in H. apply (H j). by apply lookup_seq_lt.
Qed.

(** A bound that is NaN, zero or negative lets no round in. *)
Lemma no_round maxRetries :
  SFleb (float maxRetries) (ofNat 0) = true ∨ float maxRetries = S754_nan →
  within maxRetries 0 = false.
Proof.
  unfold within. cbn [counter]. change (ofNat 0) with (S754_zero false).
  intros [H| ->]; [|done].
  destruct (float maxRetries) as [s|[]| |[] m e]; done.
Qed.

(** X21. What generateUniqueJoinCode returns, whatever Math.random gives,
    for every set of existing codes and every bound that is a number
    (whole or not, NaN and the infinities included), the loop counting
    0, 1, 2 and so on in the arithmetic of the doubles. When it returns,
    either it returns the first code drawn that is not an existing code,
    the loop condition having held up to that round, and no more numbers
    are drawn; or the loop condition fails in a round before which it
    held and every code drawn exists, and it returns one more code with
    a dash and a number below 100 appended, which is not compared with
    the existing codes. In both cases isValidJoinCode accepts the code.
    It has not returned within the rounds given only if in each of them
    the condition held and the code drawn exists: it returns as soon as
    the rounds given reach one where the condition fails or the code
    drawn is new, and more rounds do not change a result. A bound that is NaN, zero or negative lets no round
    in; the default bound lets twenty in, so that the function returns
    within twenty-one. *)
Theorem generateUniqueJoinCode_outcomes
    (existingCodes : gset string) (maxRetries : Number) (fuel k : nat) :
  match generateUniqueJoinCode random existingCodes maxRetries fuel k with
  | Some (code, k') =>
      isValidJoinCode code = true ∧
      ((∃ i, i < fuel ∧ (∀ j, j ≤ i → within maxRetries j = true) ∧
             code = attempt random k i ∧ (code ∉ existingCodes) ∧
             (∀ j, j < i → attempt random k j ∈ existingCodes) ∧
             k' = k + 2 * (i + 1)) ∨
       (∃ n, n < fuel ∧ within maxRetries n = false ∧
             (∀ j, j < n →
                within maxRetries j = true ∧
                attempt random k j ∈ existingCodes) ∧
             (∃ suffix : Z,
                (0 ≤ suffix < 100)%Z ∧
                code = attempt random k n +:+ "-" +:+ pretty suffix) ∧
             k' = k + 2 * n + 3)) ∧
      (∀ fuel', fuel ≤ fuel' →
         generateUniqueJoinCode random existingCodes maxRetries fuel' k
           = Some (code, k'))
  | None =>
      ∀ j, j < fuel →
        within maxRetries j = true ∧ attempt random k j ∈ existingCodes
  end ∧
  (∀ n, n < fuel →
     within maxRetries n = false ∨ (attempt random k n ∉ existingCodes) →
     ∃ code k',
       generateUniqueJoinCode random existingCodes maxRetries fuel k
         = Some (code, k')) ∧
  (SFleb (float maxRetries) (ofNat 0) = true ∨ float maxRetries = S754_nan →
   within maxRetries 0 = false) ∧
  ((∀ j, j < 20 → within defaultMaxRetries j = true) ∧
   within defaultMaxRetries 20 = false ∧
   ∃ code k',
     generateUniqueJoinCode random existingCodes defaultMaxRetries 21 k
       = Some (code, k')).
Proof.
  split_and!.
  - pose proof (generateUniqueJoinCode_cases existingCodes maxRetries fuel k)
      as H.
    destruct (generateUniqueJoinCode random existingCodes maxRetries fuel k)
      as [[code k']|] eqn:E; [|done].
    destruct H as [Hvalid Hcases]. split; [done|]. split; [done|].
    intros fuel' Hle. by apply (generateUniqueJoinCode_more_fuel _ _ fuel).
  - intros n. apply generateUniqueJoinCode_returns.
  - apply no_round.
  - apply default_rounds.
  - apply default_rounds.
  - apply (generateUniqueJoinCode_returns _ _ _ _ 20); [lia|].
    left. apply default_rounds.
Qed.

(** *** Is the code new? *)

Lemma lower_not_digit (c : ascii) : lower c = true → digit c = false.
Proof. destruct c as [[] [] [] [] [] [] [] []]; done. Qed.

Lemma endsInDigit_cons (c : ascii) (s : string) :
  s ≠ "" → endsInDigit (String c s) = endsInDigit s.
Proof. by destruct s. Qed.

Lemma endsInDigit_append (x y : string) :
  y ≠ "" → endsInDigit (x +:+ y) = endsInDigit y.
Proof.
  intros Hy. induction x as [|c x IH]; [done|].
  rewrite append_cons, endsInDigit_cons; [done|].
  destruct x; [done|]. by rewrite append_cons.
Qed.

Lemma endsInDigit_number (s : string) : isNumber s → endsInDigit s = true.
Proof.
  intros [Hne Hall]. induction s as [|c s IH]; [done|].
  cbn [all] in Hall. apply andb_true_iff in Hall as [Hc Hs].
  destruct s as [|c' s']; [done|].
  rewrite endsInDigit_cons by done. by apply IH.
Qed.

Lemma endsInDigit_word (s : string) : isWord s → endsInDigit s = false.
Proof.
  intros [Hne Hall]. induction s as [|c s IH]; [done|].
  cbn [all] in Hall. apply andb_true_iff in Hall as [Hc Hs].
  destruct s as [|c' s']; [by apply lower_not_digit|].
  rewrite endsInDigit_cons by done. by apply IH.
Qed.

(** The code of the fallback, when the loop ends in round [n] with
    nothing found. *)
Lemma generateUniqueJoinCode_fallback existingCodes maxRetries fuel k n :
  n < fuel → within maxRetries n = false →
  (∀ j, j < n →
     within maxRetries j = true ∧ attempt random k j ∈ existingCodes) →
  generateUniqueJoinCode random existingCodes maxRetries fuel k =
    Some (attempt random k n +:+ "-" +:+
            toString (floorTimes (random (k + 2 * n + 2)) 100),
          k + 2 * n + 3).
Proof.
  intros Hn Hw Hall.
  pose proof (firstFree_outcomes existingCodes maxRetries fuel 0 k) as H.
  unfold generateUniqueJoinCode. cbn [counter] in H.
  replace (k + 2 * 0) with k in H by lia.
  destruct (firstFree random existingCodes (float maxRetries) fuel
              (ofNat 0) k) as [[[code|] k']|].
  - destruct H as (i & Hi & Hwi & -> & Hfree & _).
    destruct (decide (i < n)) as [Hlt|Hge].
    + destruct Hfree. by apply Hall.
    + rewrite Hwi in Hw by lia. done.
  - destruct H as (n' & Hn' & Hw' & Hall' & ->).
    assert (n' = n) as ->.
    { destruct (decide (n' < n)) as [Hlt|Hge].
      - destruct (Hall n' Hlt) as [Hwn _]. congruence.
      - destruct (decide (n < n')) as [Hlt|]; [|lia].
        destruct (Hall' n) as [Hwn _]; [lia|]. congruence. }
    rewrite attempt_at. unfold mathRandom.
    replace (k + 2 * (n + 1)) with (k + 2 * n + 2) by lia.
    by replace (S (k + 2 * n + 2)) with (k + 2 * n + 3) by lia.
  - destruct (H n) as [Hwn _]; [lia|]. congruence.
Qed.

Lemma first_round_out (f : nat → bool) n :
  f n = false →
  ∃ n0, n0 ≤ n ∧ f n0 = false ∧ ∀ j, j < n0 → f j = true.
Proof.
  assert (∀ m, (∀ j, j < m → f j = true) ∨
               ∃ n0, n0 < m ∧ f n0 = false ∧ ∀ j, j < n0 → f j = true)
    as Hsplit.
  { induction m as [|m [IH|(n0 & Hlt & H0 & Hbefore)]].
    - left. intros j Hj. lia.
    - destruct (f m) eqn:E.
      + left. intros j Hj. destruct (decide (j = m)) as [->|]; [done|].
        apply IH. lia.
      + right. exists m. split; [lia|]. split; [done|]. intros j Hj.
        apply IH. lia.
    - right. exists n0. split; [lia|done]. }
  intros Hn. destruct (Hsplit (S n)) as [Hall|(n0 & Hlt & H0 & Hbefore)].
  - rewrite Hall in Hn by lia. done.
  - exists n0. split; [lia|done].
Qed.

(** X22. Is the code of generateUniqueJoinCode new? It is, whatever
    Math.random gives and whatever number the bound is, when no existing
    code ends in a digit, as is the case while all of them are plain
    adjective-noun codes. It need not be otherwise: for every run of
    random numbers and every bound that ends the loop there is a set of
    existing codes for which the code returned is one of them, the
    fallback code being returned unchecked. *)
Theorem generateUniqueJoinCode_new_unless_suffixed
    (existingCodes : gset string) (maxRetries : Number) (fuel k : nat) :
  ((∀ code, code ∈ existingCodes → endsInDigit code = false) →
   ∀ code k',
     generateUniqueJoinCode random existingCodes maxRetries fuel k
       = Some (code, k') →
     code ∉ existingCodes) ∧
  (∀ i, endsInDigit (attempt random k i) = false) ∧
  (∀ n, n < fuel → within maxRetries n = false →
     ∃ (taken : gset string) code k',
       generateUniqueJoinCode random taken maxRetries fuel k
         = Some (code, k') ∧
       code ∈ taken).
Proof.
  split_and!.
  - intros Hplain code k' E.
    pose proof (generateUniqueJoinCode_cases existingCodes maxRetries fuel k)
      as H.
    rewrite E in H.
    destruct H as [_ [(i & _ & _ & _ & Hfree & _)
                     |(n & _ & _ & _ & (suffix & Hs & ->) & _)]];
      [done|].
    intros Hin. apply Hplain in Hin.
    rewrite endsInDigit_append in Hin by done.
    rewrite endsInDigit_append in Hin
      by (by destruct (suffix_number suffix Hs)).
    by rewrite endsInDigit_number in Hin by (by apply suffix_number).
  - intros i. destruct (attempt_words k i) as (adj & noun & Ha & Hn & ->).
    rewrite endsInDigit_append by done.
    rewrite endsInDigit_append by (by destruct Hn).
    by apply endsInDigit_word.
  - intros n Hn Hw.
    destruct (first_round_out (within maxRetries) n Hw)
      as (n0 & Hle & Hw0 & Hbefore).
    set (fallback :=
           attempt random k n0 +:+ "-" +:+
             toString (floorTimes (random (k + 2 * n0 + 2)) 100)).
    exists (list_to_set (attempt random k <$> seq 0 n0) ∪ {[ fallback ]}),
      fallback, (k + 2 * n0 + 3).
    split; [|by apply elem_of_union_r, elem_of_singleton].
    apply generateUniqueJoinCode_fallback; [lia|done|].
    intros j Hj. split; [by apply Hbefore|].
    apply elem_of_union_l, elem_of_list_to_set, list_elem_of_fmap.
    exists j. split; [done|]. apply elem_of_seq. lia.
Qed.

End GeneratorFacts.

Section GeneratorExamples.
Import WordBank.

(** The products are rounded before they are floored: 0.06 * 50 is 3 in
    the doubles, and the greatest number below 1 stays below the
    lengths. *)
Example rounded_products :
  floorTimes sixHundredths 50 = Whole 3 ∧
  generateJoinCode (coin sixHundredths) 0 = ("clever-fox", 2) ∧
  floorTimes almostOne 50 = Whole 49 ∧
  floorTimes almostOne 100 = Whole 99 ∧
  generateJoinCode (coin almostOne) 0 = ("witty-stork", 2).
Proof. vm_compute. done. Qed.

(** Math.random stuck at 0 draws happy-tiger each time: with that code
    taken, twenty rounds fail, the twenty-first ends the loop and the
    fallback appends 0, be that code taken or not; at one half it draws
    mellow-quail. A negative bound and NaN let no round in, a bound of
    one half lets one in, and under an infinite bound the loop goes
    on. *)
Example stuck_generator :
  generateUniqueJoinCode (coin zero) {[ "happy-tiger" ]} defaultMaxRetries 20 0
    = None ∧
  generateUniqueJoinCode (coin zero) {[ "happy-tiger" ]} defaultMaxRetries 21 0
    = Some ("happy-tiger-0", 43) ∧
  generateUniqueJoinCode (coin zero) {[ "happy-tiger"; "happy-tiger-0" ]}
    defaultMaxRetries 21 0
    = Some ("happy-tiger-0", 43) ∧
  generateUniqueJoinCode (coin half) {[ "happy-tiger" ]} defaultMaxRetries 21 0
    = Some ("mellow-quail", 2) ∧
  generateUniqueJoinCode (coin half) ∅ minusThree 1 0
    = Some ("mellow-quail-50", 3) ∧
  generateUniqueJoinCode (coin almostOne) ∅ notANumber 1 0
    = Some ("witty-stork-99", 3) ∧
  generateUniqueJoinCode (coin zero) {[ "happy-tiger" ]} oneHalf 2 0
    = Some ("happy-tiger-0", 5) ∧
  generateUniqueJoinCode (coin zero) {[ "happy-tiger" ]} infinity 50 0
    = None.
Proof. vm_compute. done. Qed.

(** The counter of the loop stops growing at 2^53. *)
Example counter_sticks :
  increment (S754_finite false 4503599627370496 1)
    = S754_finite false 4503599627370496 1 ∧
  increment (S754_finite false 9007199254740991 0)
    = S754_finite false 4503599627370496 1.
Proof. vm_compute. done. Qed.

Example join_codes :
  isValidJoinCode "happy-tiger" = true ∧
  isValidJoinCode "happy-tiger-42" = true ∧
  isValidJoinCode "a-b-007" = true ∧
  isValidJoinCode "" = false ∧
  isValidJoinCode "Happy-tiger" = false ∧
  isValidJoinCode "happy-tiger-" = false ∧
  isValidJoinCode "happy--tiger" = false ∧
  isValidJoinCode "happy-tiger-4x" = false ∧
  isValidJoinCode " happy-tiger" = false.
Proof. vm_compute. done. Qed.

End GeneratorExamples.

(** ** The seed loader on any store (part_004) *)

Section SeedLoaderFacts.
Import Storage SinglesInfernoS5 Seeded.

Implicit Types (st : Store) (m : gmap string Card) (c : Card) (b k : string)
  (cs : list Card).

(** *** Saving a list of cards *)

Lemma saveCards_boards cs st : boards (saveCards cs st) = boards st.
Proof.
  unfold saveCards. revert st. induction cs as [|c cs IH]; intros st; [done|].
  simpl. by rewrite IH.
Qed.

Lemma saveCards_snapshots cs st : snapshots (saveCards cs st) = snapshots st.
Proof.
  unfold saveCards. revert st. induction cs as [|c cs IH]; intros st; [done|].
  simpl. by rewrite IH.
Qed.

Lemma saveCards_cards cs st :
  cards (saveCards cs st) = foldl (λ m c, <[Card.id c := c]> m) (cards st) cs.
Proof.
  unfold saveCards. revert st. induction cs as [|c cs IH]; intros st; [done|].
  simpl. by rewrite IH.
Qed.

Lemma saveCards_app cs1 cs2 st :
  saveCards cs2 (saveCards cs1 st) = saveCards (cs1 ++ cs2) st.
Proof. unfold saveCards. by rewrite foldl_app. Qed.

Lemma inserted_other cs m k :
  k ∉ Card.id <$> cs →
  foldl (λ m c, <[Card.id c := c]> m) m cs !! k = m !! k.
Proof.
  revert m. induction cs as [|c cs IH]; intros m Hk; [done|].
  rewrite fmap_cons, not_elem_of_cons in Hk. destruct Hk as [Hne Hk].
  cbn [foldl]. rewrite IH by done. by rewrite lookup_insert_ne.
Qed.

Lemma inserted_lookup cs m c :
  NoDup (Card.id <$> cs) → c ∈ cs →
  foldl (λ m c, <[Card.id c := c]> m) m cs !! Card.id c = Some c.
Proof.
  revert m. induction cs as [|x cs IH]; intros m Hnd Hin.
  - by apply elem_of_nil in Hin.
  - rewrite fmap_cons in Hnd. apply NoDup_cons in Hnd as [Hx Hnd].
    apply elem_of_cons in Hin as [->|Hin]; cbn [foldl].
    + rewrite inserted_other by done. apply lookup_insert_eq.
    + by apply IH.
Qed.

Lemma deleted_lookup cs m k :
  foldl (λ m c, delete (Card.id c) m) m cs !! k =
    if decide (k ∈ Card.id <$> cs) then None else m !! k.
Proof.
  revert m. induction cs as [|c cs IH]; intros m; [done|].
  cbn [foldl]. rewrite IH, fmap_cons.
  destruct (decide (k = Card.id c)) as [->|Hne].
  - rewrite lookup_delete_eq. rewrite (decide_True (P := _ ∈ _ :: _)) by left.
    by case_decide.
  - rewrite lookup_delete_ne by done.
    destruct (decide (k ∈ Card.id <$> cs)) as [Hin|Hin].
    + rewrite decide_True; [done|by right].
    + rewrite decide_False; [done|]. rewrite not_elem_of_cons. done.
Qed.

Lemma ranksIn_inserted b cs m :
  NoDup (Card.id <$> cs) →
  ranksIn b (foldl (λ m c, <[Card.id c := c]> m) m cs) ≡ₚ
    (cs ≫= rankOf b) ++
    ranksIn b (foldl (λ m c, delete (Card.id c) m) m cs).
Proof.
  revert m. induction cs as [|c cs IH]; intros m Hnd; [done|].
  rewrite fmap_cons in Hnd. apply NoDup_cons in Hnd as [Hc Hnd].
  cbn [foldl]. rewrite bind_cons, IH by done.
  assert (foldl (λ m c, delete (Card.id c) m) (<[Card.id c:=c]> m) cs =
          <[Card.id c := c]> (foldl (λ m c, delete (Card.id c) m) m cs)) as ->.
  { apply map_eq. intros k. rewrite deleted_lookup.
    destruct (decide (k = Card.id c)) as [->|Hne].
    - rewrite decide_False by done. by rewrite !lookup_insert_eq.
    - rewrite !lookup_insert_ne by done. by rewrite deleted_lookup. }
  assert (delete (Card.id c) (foldl (λ m c, delete (Card.id c) m) m cs) =
          foldl (λ m c, delete (Card.id c) m) (delete (Card.id c) m) cs) as Hd.
  { apply map_eq. intros k.
    destruct (decide (k = Card.id c)) as [->|Hne].
    - rewrite lookup_delete_eq, deleted_lookup.
      case_decide; [done|]. by rewrite lookup_delete_eq.
    - rewrite lookup_delete_ne by done. rewrite !deleted_lookup.
      case_decide; [done|]. by rewrite lookup_delete_ne. }
  rewrite ranksIn_overwrite, Hd, <- app_assoc.
  apply Permutation_app_swap_app.
Qed.

(** *** loadSinglesInfernoS5 *)

Lemma load_done now failed st :
  ¬ needsLoad st → loadSinglesInfernoS5 now failed st = st.
Proof.
  unfold needsLoad, loadSinglesInfernoS5. intros Hn.
  destruct (getBoard WOMEN_BOARD_ID st), (getBoard MEN_BOARD_ID st);
    try done; destruct Hn; auto.
Qed.

Lemma load_needed now failed st :
  needsLoad st →
  ∃ womenBoard menBoard,
    Board.id womenBoard = WOMEN_BOARD_ID ∧ Board.id menBoard = MEN_BOARD_ID ∧
    loadSinglesInfernoS5 now failed st =
      saveCards (seedCards now failed)
        (saveBoard menBoard (saveBoard womenBoard st)).
Proof.
  unfold needsLoad, loadSinglesInfernoS5, seedCards. intros Hn.
  destruct (getBoard WOMEN_BOARD_ID st), (getBoard MEN_BOARD_ID st);
    try (destruct Hn; discriminate);
    eexists _, _; (split; [|split]); try (rewrite saveCards_app; reflexivity);
    reflexivity.
Qed.

Lemma seedCards_ids now failed : Card.id <$> seedCards now failed = castIds.
Proof. reflexivity. Qed.

Lemma castIds_NoDup : NoDup castIds.
Proof. apply (bool_decide_unpack _). vm_compute. exact I. Qed.

Lemma seedCards_ranks now failed :
  seedCards now failed ≫= rankOf WOMEN_BOARD_ID = seq 1 6 ∧
  seedCards now failed ≫= rankOf MEN_BOARD_ID = seq 1 7.
Proof. split; vm_compute; reflexivity. Qed.

Lemma loaded_needs_nothing now failed st :
  ¬ needsLoad (loadSinglesInfernoS5 now failed st).
Proof.
  destruct (decide (needsLoad st)) as [Hn|Hn].
  - destruct (load_needed now failed st Hn) as (wb & mb & Hw & Hm & ->).
    unfold needsLoad, getBoard. rewrite saveCards_boards.
    cbn [saveBoard boards]. rewrite Hw, Hm.
    rewrite lookup_insert_ne by done. rewrite !lookup_insert_eq.
    by intros [?|?].
  - by rewrite load_done.
Qed.

(** X24. loadSinglesInfernoS5 runs when one of the two boards is
    missing, whatever else the store holds. Then both boards exist
    afterwards; each of the 13 cast cards is stored as the loader builds
    it, replacing whatever was stored under its id (a renamed, moved or
    deleted card of an earlier load is reset); no other card, no other
    board and no snapshot changes. When the two boards hold no other
    active card, their ranks are 1..6 and 1..7, so both are dense. *)
Theorem loadSinglesInfernoS5_reseeds
    (now : Z) (failed : gset string) (st : Store) :
  needsLoad st →
  let st' := loadSinglesInfernoS5 now failed st in
  is_Some (getBoard WOMEN_BOARD_ID st') ∧ is_Some (getBoard MEN_BOARD_ID st') ∧
  (∀ c, c ∈ seedCards now failed → cards st' !! Card.id c = Some c) ∧
  (∀ k, k ∉ castIds → cards st' !! k = cards st !! k) ∧
  (∀ b, b ≠ WOMEN_BOARD_ID → b ≠ MEN_BOARD_ID →
        getBoard b st' = getBoard b st) ∧
  snapshots st' = snapshots st ∧
  (onlyCast st →
     activeRanks WOMEN_BOARD_ID st' = seq 1 6 ∧
     activeRanks MEN_BOARD_ID st' = seq 1 7 ∧
     dense WOMEN_BOARD_ID st' ∧ dense MEN_BOARD_ID st').
Proof.
  intros Hn st'.
  pose proof (loaded_needs_nothing now failed st) as Hboards.
  fold st' in Hboards. unfold needsLoad in Hboards.
  destruct (load_needed now failed st Hn) as (wb & mb & Hw & Hm & Hload).
  fold st' in Hload.
  assert (Hcards : cards st' =
            foldl (λ m c, <[Card.id c := c]> m) (cards st) (seedCards now failed))
    by (by rewrite Hload, saveCards_cards).
  split_and!.
  - destruct (getBoard WOMEN_BOARD_ID st'); [by eexists|]. destruct Hboards; auto.
  - destruct (getBoard MEN_BOARD_ID st'); [by eexists|]. destruct Hboards; auto.
  - intros c Hc. rewrite Hcards. apply inserted_lookup; [|done].
    rewrite seedCards_ids. apply castIds_NoDup.
  - intros k Hk. rewrite Hcards. apply inserted_other.
    by rewrite seedCards_ids.
  - intros b Hbw Hbm. unfold getBoard. rewrite Hload, saveCards_boards.
    cbn [saveBoard boards].
    rewrite !lookup_insert_ne by (by rewrite ?Hw, ?Hm). done.
  - by rewrite Hload, saveCards_snapshots.
  - intros Honly.
    assert (Hrest : ∀ b, b = WOMEN_BOARD_ID ∨ b = MEN_BOARD_ID →
              ranksIn b (foldl (λ m c, delete (Card.id c) m) (cards st)
                           (seedCards now failed)) = []).
    { intros b Hb. apply ranksIn_nil. intros k c.
      rewrite deleted_lookup, seedCards_ids. case_decide as Hk; [done|].
      intros Hkc Hact. apply Hk. apply (Honly k c Hkc).
      destruct Hb as [->| ->]; auto. }
    destruct (seedCards_ranks now failed) as [HW HM].
    assert (HpW : ranksIn WOMEN_BOARD_ID (cards st') ≡ₚ seq 1 6).
    { rewrite Hcards, ranksIn_inserted
        by (rewrite seedCards_ids; apply castIds_NoDup).
      rewrite Hrest by auto. by rewrite HW, app_nil_r. }
    assert (HpM : ranksIn MEN_BOARD_ID (cards st') ≡ₚ seq 1 7).
    { rewrite Hcards, ranksIn_inserted
        by (rewrite seedCards_ids; apply castIds_NoDup).
      rewrite Hrest by auto. by rewrite HM, app_nil_r. }
    assert (HdW := dense_ranksIn _ _ _ HpW).
    assert (HdM := dense_ranksIn _ _ _ HpM).
    split_and!; try done.
    + unfold dense in HdW. rewrite HdW, activeCards_length.
      by rewrite (Permutation_length HpW).
    + unfold dense in HdM. rewrite HdM, activeCards_length.
      by rewrite (Permutation_length HpM).
Qed.

Lemma loadSinglesInfernoS5_reseeds_witness :
  activeRanks WOMEN_BOARD_ID
    (loadSinglesInfernoS5 2000 {[ "si5-kim-go-eun" ]} ownBoard) = seq 1 6.
Proof.
  refine (proj1 (proj2 (proj2 (proj2 (proj2 (proj2 (proj2
            (loadSinglesInfernoS5_reseeds 2000 {[ "si5-kim-go-eun" ]}
               ownBoard _)))))) _)).
  - apply (bool_decide_unpack _). vm_compute. exact I.
  - apply (bool_decide_unpack _). vm_compute. exact I.
Defined.

(** X25. Loading twice is loading once: after loadSinglesInfernoS5 has
    run on any store, a second run, at any later time and whichever
    images fail then, finds both boards and changes nothing. *)
Theorem loadSinglesInfernoS5_idempotent
    (now now' : Z) (failed failed' : gset string) (st : Store) :
  loadSinglesInfernoS5 now' failed' (loadSinglesInfernoS5 now failed st) =
    loadSinglesInfernoS5 now failed st.
Proof. apply load_done, loaded_needs_nothing. Qed.

End SeedLoaderFacts.

Section SeedHistoryFacts.
Import Storage SinglesInfernoS5 Seeded.

Implicit Types (st : Store) (c : Card) (b k : string) (cs : list Card)
  (cardMap : gmap string Card) (order : list string).

(** *** The entries of an episode *)

Lemma rankingsOf_ext cardMap1 cardMap2 order :
  (∀ cardId, cardId ∈ order → cardMap1 !! cardId = cardMap2 !! cardId) →
  rankingsOf cardMap1 order = rankingsOf cardMap2 order.
Proof.
  intros Hsame. unfold rankingsOf. f_equal. apply imap_ext.
  intros index cardId Hi. rewrite Hsame; [done|].
  by apply list_elem_of_lookup_2 in Hi.
Qed.

(** The entries from position [n] on. *)
Lemma rankingsOf_from cardMap order :
  ∀ n,
    let l :=
      omap (λ e, e)
        (imap (λ index cardId,
                 match cardMap !! cardId with
                 | None => None
                 | Some card => Some (entryAt (n + index) card)
                 end) order) in
    Forall (λ r, n < r) (RankingEntry.rank <$> l) ∧
    StronglySorted lt (RankingEntry.rank <$> l) ∧
    length l ≤ length order ∧
    (length l = length order →
     ∀ cardId, cardId ∈ order → is_Some (cardMap !! cardId)) ∧
    ((∀ cardId, cardId ∈ order → is_Some (cardMap !! cardId)) →
     RankingEntry.rank <$> l = seq (S n) (length order)).
Proof.
  induction order as [|cardId order IH]; intros n l.
  - subst l. simpl. split_and!; try constructor; try done.
    intros _ x Hx. by apply elem_of_nil in Hx.
  - subst l. rewrite imap_cons.
    specialize (IH (S n)). cbn zeta in IH.
    assert (Hshift :
      imap ((λ index cardId0,
               match cardMap !! cardId0 with
               | Some card => Some (entryAt (n + index) card)
               | None => None
               end) ∘ S) order =
      imap (λ index cardId0,
               match cardMap !! cardId0 with
               | Some card => Some (entryAt (S n + index) card)
               | None => None
               end) order).
    { apply imap_ext. intros i x _. simpl. destruct (cardMap !! x); [|done].
      do 2 f_equal. lia. }
    rewrite Hshift. destruct IH as (Hgt & Hsorted & Hlen & Hfull & Hall).
    destruct (cardMap !! cardId) as [card|] eqn:Hcard.
    + cbn [omap list_omap]. rewrite fmap_cons. cbn [entryAt RankingEntry.rank].
      split_and!.
      * constructor; [simpl; lia|]. eapply Forall_impl; [exact Hgt|]. simpl. lia.
      * constructor; [done|]. eapply Forall_impl; [exact Hgt|]. simpl. lia.
      * cbn [length]. lia.
      * cbn [length]. intros Heq x [->|Hx]%elem_of_cons; [by eexists|].
        apply Hfull; [lia|done].
      * intros Hsome. cbn [length seq]. f_equal; [lia|].
        apply Hall. intros x Hx. apply Hsome. by right.
    + cbn [omap list_omap]. split_and!.
      * eapply Forall_impl; [exact Hgt|]. simpl. lia.
      * done.
      * cbn [length]. lia.
      * cbn [length]. intros Heq. lia.
      * intros Hsome. destruct (Hsome cardId) as [? ?]; [by left|congruence].
Qed.

(** X28. The entries of an episode, for any cards and any order of ids:
    there is one entry for each id of the order that has a card, with the
    id, name and thumbnail key of that card, and its rank is the position
    of the id in the order, counted from 1; the ranks grow strictly along
    the list. An id without a card (never loaded, or deleted since) is
    skipped and the ranks after it are not moved up: the ranks are
    1, 2, ..., n for the n ids of the order if and only if every id has a
    card. *)
Theorem episode_entries_keep_positions
    (cardMap : gmap string Card) (order : list string) :
  (∀ e, e ∈ rankingsOf cardMap order ↔
        ∃ index cardId card,
          order !! index = Some cardId ∧ cardMap !! cardId = Some card ∧
          e = entryAt index card) ∧
  StronglySorted lt (RankingEntry.rank <$> rankingsOf cardMap order) ∧
  length (rankingsOf cardMap order) ≤ length order ∧
  (RankingEntry.rank <$> rankingsOf cardMap order = seq 1 (length order) ↔
   ∀ cardId, cardId ∈ order → is_Some (cardMap !! cardId)).
Proof.
  destruct (rankingsOf_from cardMap order 0)
    as (_ & Hsorted & Hlen & Hfull & Hall).
  cbn zeta in *. change (0 + ?i) with i in *.
  split_and!; try done.
  - intros e. split.
    + intros (index & cardId & card & ? & ? & ->)%rankingsOf_copies.
      by exists index, cardId, card.
    + intros (index & cardId & card & Hi & Hc & ->).
      unfold rankingsOf. rewrite list_elem_of_omap.
      exists (Some (entryAt index card)). split; [|done].
      apply list_elem_of_lookup. exists index.
      by rewrite list_lookup_imap, Hi; simpl; rewrite Hc.
  - split; [|exact Hall].
    intros Hranks. apply Hfull.
    apply (f_equal length) in Hranks.
    by rewrite length_fmap, length_seq in Hranks.
Qed.

(** *** The cards of a board as a map *)

Lemma elem_of_getCardsByBoard b st c :
  c ∈ getCardsByBoard b st ↔ ∃ k, cards st !! k = Some c ∧ isActive b c.
Proof.
  unfold getCardsByBoard. rewrite list_elem_of_fmap. split.
  - intros ([k c'] & -> & Hin%elem_of_activeCards). by exists k.
  - intros (k & Hin). exists (k, c). split; [done|].
    by apply elem_of_activeCards.
Qed.

Lemma getCardsByBoard_ids b st :
  keyedById st → Card.id <$> getCardsByBoard b st = (activeCards b st).*1.
Proof.
  intros Hkeyed. unfold getCardsByBoard. rewrite <- list_fmap_compose.
  apply list_fmap_ext. intros i [k c] Hi. simpl.
  apply list_elem_of_lookup_2, elem_of_activeCards in Hi as [Hkc _].
  by apply (Hkeyed k c).
Qed.

Lemma cardMapOf_getCardsByBoard b st k c :
  keyedById st → cards st !! k = Some c → isActive b c →
  cardMapOf (getCardsByBoard b st) !! k = Some c.
Proof.
  intros Hkeyed Hkc Hact. rewrite <- (Hkeyed k c Hkc).
  unfold cardMapOf. apply inserted_lookup.
  - rewrite getCardsByBoard_ids by done. apply activeCards_keys_NoDup.
  - apply elem_of_getCardsByBoard. by exists k.
Qed.

Lemma cardMapOf_seedCards now failed c :
  c ∈ seedCards now failed →
  cardMapOf (seedCards now failed) !! Card.id c = Some c.
Proof.
  intros Hc. unfold cardMapOf. apply inserted_lookup; [|done].
  rewrite seedCards_ids. apply castIds_NoDup.
Qed.

(** *** The store after a load *)

Lemma load_cards now failed st :
  needsLoad st →
  cards (loadSinglesInfernoS5 now failed st) =
    foldl (λ m c, <[Card.id c := c]> m) (cards st) (seedCards now failed).
Proof.
  intros Hn. destruct (load_needed now failed st Hn) as (wb & mb & _ & _ & ->).
  by rewrite saveCards_cards.
Qed.

Lemma load_snapshots now failed st :
  snapshots (loadSinglesInfernoS5 now failed st) = snapshots st.
Proof.
  destruct (decide (needsLoad st)) as [Hn|Hn].
  - destruct (load_needed now failed st Hn) as (wb & mb & _ & _ & ->).
    by rewrite saveCards_snapshots.
  - by rewrite load_done.
Qed.

Lemma load_keyedById now failed st :
  keyedById st → keyedById (loadSinglesInfernoS5 now failed st).
Proof.
  intros Hkeyed. destruct (decide (needsLoad st)) as [Hn|Hn].
  - unfold keyedById. rewrite load_cards by done.
    generalize (seedCards now failed). intros cs.
    revert Hkeyed. unfold keyedById. generalize (cards st).
    induction cs as [|c cs IH]; intros m Hm; [done|].
    cbn [foldl]. apply IH. by apply map_Forall_insert_2.
  - by rewrite load_done.
Qed.

Lemma load_seed_in_map now failed st b c :
  needsLoad st → keyedById st →
  c ∈ seedCards now failed → isActive b c →
  cardMapOf (getCardsByBoard b (loadSinglesInfernoS5 now failed st))
    !! Card.id c =
  cardMapOf (seedCards now failed) !! Card.id c.
Proof.
  intros Hn Hkeyed Hc Hact. rewrite cardMapOf_seedCards by done.
  apply cardMapOf_getCardsByBoard; [by apply load_keyedById| |done].
  rewrite load_cards by done. apply inserted_lookup; [|done].
  rewrite seedCards_ids. apply castIds_NoDup.
Qed.

(** *** Saving a list of snapshots *)

Lemma saveSnapshots_boards ss st : boards (saveSnapshots ss st) = boards st.
Proof.
  unfold saveSnapshots. revert st.
  induction ss as [|x ss IH]; intros st; [done|]. cbn [foldl]. by rewrite IH.
Qed.

Lemma saveSnapshots_cards ss st : cards (saveSnapshots ss st) = cards st.
Proof.
  unfold saveSnapshots. revert st.
  induction ss as [|x ss IH]; intros st; [done|]. cbn [foldl]. by rewrite IH.
Qed.

Lemma saveSnapshots_other ss st snapshotId :
  snapshotId ∉ Snapshot.id <$> ss →
  getSnapshot snapshotId (saveSnapshots ss st) = getSnapshot snapshotId st.
Proof.
  unfold saveSnapshots, getSnapshot. revert st.
  induction ss as [|x ss IH]; intros st Hk; [done|].
  rewrite fmap_cons, not_elem_of_cons in Hk. destruct Hk as [Hne Hk].
  cbn [foldl]. rewrite IH by done. cbn [saveSnapshot snapshots].
  by rewrite lookup_insert_ne.
Qed.

Lemma saveSnapshots_saved ss st s :
  NoDup (Snapshot.id <$> ss) → s ∈ ss →
  getSnapshot (Snapshot.id s) (saveSnapshots ss st) = Some s.
Proof.
  revert st. induction ss as [|x ss IH]; intros st Hnd Hin.
  - by apply elem_of_nil in Hin.
  - rewrite fmap_cons in Hnd. apply NoDup_cons in Hnd as [Hx Hnd].
    apply elem_of_cons in Hin as [->|Hin].
    + change (saveSnapshots (x :: ss) st)
        with (saveSnapshots ss (saveSnapshot x st)).
      rewrite saveSnapshots_other by done.
      unfold getSnapshot, saveSnapshot. cbn [snapshots].
      apply lookup_insert_eq.
    + change (saveSnapshots (x :: ss) st)
        with (saveSnapshots ss (saveSnapshot x st)).
      by apply IH.
Qed.

Lemma saveSnapshots_app ss1 ss2 st :
  saveSnapshots ss2 (saveSnapshots ss1 st) = saveSnapshots (ss1 ++ ss2) st.
Proof. unfold saveSnapshots. by rewrite foldl_app. Qed.

Lemma getSnapshotsByBoard_elem b st snapshotId s :
  getSnapshot snapshotId st = Some s → Snapshot.boardId s = b →
  s ∈ getSnapshotsByBoard b st.
Proof.
  unfold getSnapshot, getSnapshotsByBoard. intros Hs Hb.
  apply list_elem_of_filter. split; [done|].
  apply list_elem_of_fmap. exists (snapshotId, s). split; [done|].
  by apply elem_of_map_to_list.
Qed.

(** *** loadSinglesInfernoS5Snapshots *)

Lemma episodesOf_ext tag board cardMap1 cardMap2 clock orders :
  (∀ order cardId, order ∈ orders → cardId ∈ order →
     cardMap1 !! cardId = cardMap2 !! cardId) →
  episodesOf tag board cardMap1 clock orders =
  episodesOf tag board cardMap2 clock orders.
Proof.
  intros Hsame. unfold episodesOf. apply imap_ext. intros ep order Hep.
  unfold episodeSnapshot. f_equal. apply rankingsOf_ext.
  intros cardId Hin. apply (Hsame order); [|done].
  by apply list_elem_of_lookup_2 in Hep.
Qed.

Lemma loadSnapshots_shape clock st :
  let '(r, st') := loadSinglesInfernoS5Snapshots clock st in
  (snapshotsCreated r = 0 ∧ st' = st) ∨
  (r = mkLoadSnapshotsResult true 10 [] ∧
   ¬ needsLoad st ∧ noHistory st ∧
   getCardsByBoard WOMEN_BOARD_ID st ≠ [] ∧
   getCardsByBoard MEN_BOARD_ID st ≠ [] ∧
   st' =
     saveSnapshots
       (episodesOf "women" WOMEN_BOARD_ID
          (cardMapOf (getCardsByBoard WOMEN_BOARD_ID st)) clock
          WOMEN_RANKINGS_BY_EPISODE ++
        episodesOf "men" MEN_BOARD_ID
          (cardMapOf (getCardsByBoard MEN_BOARD_ID st))
          (λ ep, clock (5 + ep)) MEN_RANKINGS_BY_EPISODE) st).
Proof.
  unfold loadSinglesInfernoS5Snapshots.
  destruct (getBoard WOMEN_BOARD_ID st) eqn:Hw; [|by left].
  destruct (getBoard MEN_BOARD_ID st) eqn:Hm; [|by left].
  case_decide as Hsnap; [by left|].
  case_decide as Hcards; [by left|].
  right. split; [done|]. split_and!.
  - unfold needsLoad. rewrite Hw, Hm. by intros [?|?].
  - unfold noHistory.
    destruct (getSnapshotsByBoard WOMEN_BOARD_ID st),
             (getSnapshotsByBoard MEN_BOARD_ID st); try done;
      destruct Hsnap; simpl; lia.
  - intros Heq. apply Hcards. left. by rewrite Heq.
  - intros Heq. apply Hcards. right. by rewrite Heq.
  - by rewrite <- saveSnapshots_app.
Qed.

Lemma loadSnapshots_runs clock st :
  ¬ needsLoad st → noHistory st →
  getCardsByBoard WOMEN_BOARD_ID st ≠ [] →
  getCardsByBoard MEN_BOARD_ID st ≠ [] →
  loadSinglesInfernoS5Snapshots clock st =
    (mkLoadSnapshotsResult true 10 [],
     saveSnapshots
       (episodesOf "women" WOMEN_BOARD_ID
          (cardMapOf (getCardsByBoard WOMEN_BOARD_ID st)) clock
          WOMEN_RANKINGS_BY_EPISODE ++
        episodesOf "men" MEN_BOARD_ID
          (cardMapOf (getCardsByBoard MEN_BOARD_ID st))
          (λ ep, clock (5 + ep)) MEN_RANKINGS_BY_EPISODE) st).
Proof.
  intros Hn [Hhw Hhm] Hcw Hcm. unfold loadSinglesInfernoS5Snapshots.
  destruct (getBoard WOMEN_BOARD_ID st) eqn:Hw;
    [|destruct Hn; by left].
  destruct (getBoard MEN_BOARD_ID st) eqn:Hm;
    [|destruct Hn; by right].
  rewrite Hhw, Hhm. rewrite decide_False by (simpl; lia).
  rewrite decide_False.
  - by rewrite <- saveSnapshots_app.
  - intros [H|H]; [destruct (getCardsByBoard WOMEN_BOARD_ID st)|
                   destruct (getCardsByBoard MEN_BOARD_ID st)]; done.
Qed.

Lemma episode_ids cardMapW cardMapM clock clock' :
  Snapshot.id <$>
    (episodesOf "women" WOMEN_BOARD_ID cardMapW clock
       WOMEN_RANKINGS_BY_EPISODE ++
     episodesOf "men" MEN_BOARD_ID cardMapM clock' MEN_RANKINGS_BY_EPISODE) =
  [ "snapshot-women-ep1"; "snapshot-women-ep2"; "snapshot-women-ep3";
    "snapshot-women-ep4"; "snapshot-women-ep5";
    "snapshot-men-ep1"; "snapshot-men-ep2"; "snapshot-men-ep3";
    "snapshot-men-ep4"; "snapshot-men-ep5" ].
Proof. vm_compute. reflexivity. Qed.

Lemma episode_ids_NoDup cardMapW cardMapM clock clock' :
  NoDup (Snapshot.id <$>
    (episodesOf "women" WOMEN_BOARD_ID cardMapW clock
       WOMEN_RANKINGS_BY_EPISODE ++
     episodesOf "men" MEN_BOARD_ID cardMapM clock' MEN_RANKINGS_BY_EPISODE)).
Proof.
  rewrite episode_ids. apply (bool_decide_unpack _). vm_compute. exact I.
Qed.

(** X27. loadSinglesInfernoS5Snapshots loads once. On any store, each
    call either creates nothing and leaves the store as it is, or creates
    the ten snapshots and reports success without errors; it never
    changes a board or a card; and after a call that created the
    snapshots, another call, whatever the clock reads, creates nothing,
    leaves the store as it is and answers that the snapshots exist. *)
Theorem loadSinglesInfernoS5Snapshots_once
    (clock clock' : nat → Z) (st : Store) :
  let '(r, st') := loadSinglesInfernoS5Snapshots clock st in
  boards st' = boards st ∧ cards st' = cards st ∧
  ((snapshotsCreated r = 0 ∧ st' = st) ∨
   (r = mkLoadSnapshotsResult true 10 [] ∧
    loadSinglesInfernoS5Snapshots clock' st' =
      (mkLoadSnapshotsResult true 0
         ["Snapshots already exist for Singles Inferno S5 boards"], st'))).
Proof.
  pose proof (loadSnapshots_shape clock st) as H.
  destruct (loadSinglesInfernoS5Snapshots clock st) as [r st'].
  destruct H as [[Hr ->]|(-> & Hn & Hh & Hcw & Hcm & ->)].
  - split; [done|]. split; [done|]. by left.
  - rewrite saveSnapshots_boards, saveSnapshots_cards.
    split; [done|]. split; [done|]. right. split; [done|].
    set (ss := _ ++ _). unfold loadSinglesInfernoS5Snapshots, getBoard.
    rewrite saveSnapshots_boards. fold (getBoard WOMEN_BOARD_ID st).
    fold (getBoard MEN_BOARD_ID st).
    destruct (getBoard WOMEN_BOARD_ID st) eqn:Hw; [|destruct Hn; by left].
    destruct (getBoard MEN_BOARD_ID st) eqn:Hm; [|destruct Hn; by right].
    rewrite decide_True; [done|]. left.
    set (s := episodeSnapshot "women" WOMEN_BOARD_ID
                (cardMapOf (getCardsByBoard WOMEN_BOARD_ID st)) 5 (clock 0) 0
                [ "si5-park-hee-sun"; "si5-kim-go-eun"; "si5-ham-ye-jin";
                  "si5-kim-min-ji"; "si5-lee-joo-young"; "si5-choi-mina-sue"]).
    assert (Hin : s ∈ getSnapshotsByBoard WOMEN_BOARD_ID (saveSnapshots ss st)).
    { apply (getSnapshotsByBoard_elem _ _ (Snapshot.id s)); [|done].
      apply saveSnapshots_saved; [apply episode_ids_NoDup|].
      subst ss s. apply elem_of_app. left. by left. }
    destruct (getSnapshotsByBoard WOMEN_BOARD_ID (saveSnapshots ss st));
      [by apply elem_of_nil in Hin|simpl; lia].
Qed.

(** *** The history of a fresh load *)

Lemma Permutation_by_elements {A} `{EqDecision A} (l k : list A) :
  NoDup l ∧ NoDup k ∧ Forall (λ x, x ∈ k) l ∧ Forall (λ x, x ∈ l) k → l ≡ₚ k.
Proof.
  intros (Hl & Hk & Hlk & Hkl). rewrite Forall_forall in Hlk, Hkl.
  apply NoDup_Permutation; [done|done|]. intros x. split; auto.
Qed.

Lemma order_ids_seeded now failed :
  Forall (Forall (λ cardId,
            cardId ∈ Card.id <$>
              filter (isActive WOMEN_BOARD_ID) (seedCards now failed)))
    WOMEN_RANKINGS_BY_EPISODE ∧
  Forall (Forall (λ cardId,
            cardId ∈ Card.id <$>
              filter (isActive MEN_BOARD_ID) (seedCards now failed)))
    MEN_RANKINGS_BY_EPISODE.
Proof. split; apply (bool_decide_unpack _); vm_compute; exact I. Qed.

Lemma seeded_orders_rank_all now failed :
  Forall (λ order,
            let entries := rankingsOf (cardMapOf (seedCards now failed)) order in
            RankingEntry.rank <$> entries = seq 1 (length women) ∧
            (λ e, (RankingEntry.cardId e, RankingEntry.cardName e)) <$> entries
              ≡ₚ (λ m, (CastMember.id m, CastMember.name m)) <$> women)
    WOMEN_RANKINGS_BY_EPISODE ∧
  Forall (λ order,
            let entries := rankingsOf (cardMapOf (seedCards now failed)) order in
            RankingEntry.rank <$> entries = seq 1 (length men) ∧
            (λ e, (RankingEntry.cardId e, RankingEntry.cardName e)) <$> entries
              ≡ₚ (λ m, (CastMember.id m, CastMember.name m)) <$> men)
    MEN_RANKINGS_BY_EPISODE.
Proof.
  split.
  - eapply Forall_impl.
    + apply (bool_decide_unpack
               (Forall (λ order,
                  RankingEntry.rank
                    <$> rankingsOf (cardMapOf (seedCards now failed)) order
                    = seq 1 (length women) ∧
                  NoDup ((λ e, (RankingEntry.cardId e, RankingEntry.cardName e))
                     <$> rankingsOf (cardMapOf (seedCards now failed)) order) ∧
                  NoDup ((λ m, (CastMember.id m, CastMember.name m)) <$> women) ∧
                  Forall (λ x, x ∈ (λ m, (CastMember.id m, CastMember.name m)) <$> women)
                    ((λ e, (RankingEntry.cardId e, RankingEntry.cardName e))
                     <$> rankingsOf (cardMapOf (seedCards now failed)) order) ∧
                  Forall (λ x, x ∈ (λ e, (RankingEntry.cardId e, RankingEntry.cardName e))
                     <$> rankingsOf (cardMapOf (seedCards now failed)) order)
                    ((λ m, (CastMember.id m, CastMember.name m)) <$> women))
                  WOMEN_RANKINGS_BY_EPISODE)).
      vm_compute. exact I.
    + intros order [Hr Hp]. split; [exact Hr|].
      by apply Permutation_by_elements.
  - eapply Forall_impl.
    + apply (bool_decide_unpack
               (Forall (λ order,
                  RankingEntry.rank
                    <$> rankingsOf (cardMapOf (seedCards now failed)) order
                    = seq 1 (length men) ∧
                  NoDup ((λ e, (RankingEntry.cardId e, RankingEntry.cardName e))
                     <$> rankingsOf (cardMapOf (seedCards now failed)) order) ∧
                  NoDup ((λ m, (CastMember.id m, CastMember.name m)) <$> men) ∧
                  Forall (λ x, x ∈ (λ m, (CastMember.id m, CastMember.name m)) <$> men)
                    ((λ e, (RankingEntry.cardId e, RankingEntry.cardName e))
                     <$> rankingsOf (cardMapOf (seedCards now failed)) order) ∧
                  Forall (λ x, x ∈ (λ e, (RankingEntry.cardId e, RankingEntry.cardName e))
                     <$> rankingsOf (cardMapOf (seedCards now failed)) order)
                    ((λ m, (CastMember.id m, CastMember.name m)) <$> men))
                  MEN_RANKINGS_BY_EPISODE)).
      vm_compute. exact I.
    + intros order [Hr Hp]. split; [exact Hr|].
      by apply Permutation_by_elements.
Qed.

Lemma seeded_lookup_agrees now failed st b orders order cardId :
  needsLoad st → keyedById st →
  Forall (Forall (λ cardId,
            cardId ∈ Card.id <$> filter (isActive b) (seedCards now failed)))
    orders →
  order ∈ orders → cardId ∈ order →
  cardMapOf (getCardsByBoard b (loadSinglesInfernoS5 now failed st)) !! cardId =
  cardMapOf (seedCards now failed) !! cardId.
Proof.
  intros Hn Hkeyed Hall Horder Hid.
  rewrite Forall_forall in Hall. specialize (Hall order Horder).
  rewrite Forall_forall in Hall. specialize (Hall cardId Hid).
  apply list_elem_of_fmap in Hall as (c & -> & [Hact Hc]%list_elem_of_filter).
  by apply load_seed_in_map.
Qed.

Lemma loaded_has_cards now failed st :
  needsLoad st → keyedById st →
  getCardsByBoard WOMEN_BOARD_ID (loadSinglesInfernoS5 now failed st) ≠ [] ∧
  getCardsByBoard MEN_BOARD_ID (loadSinglesInfernoS5 now failed st) ≠ [].
Proof.
  intros Hn Hkeyed.
  assert (∀ b c, c ∈ seedCards now failed → isActive b c →
            getCardsByBoard b (loadSinglesInfernoS5 now failed st) ≠ [])
    as Hgen.
  { intros b c Hc Hact Hnil.
    assert (c ∈ getCardsByBoard b (loadSinglesInfernoS5 now failed st)) as Hin.
    { apply elem_of_getCardsByBoard. exists (Card.id c). split; [|done].
      rewrite load_cards by done. apply inserted_lookup; [|done].
      rewrite seedCards_ids. apply castIds_NoDup. }
    rewrite Hnil in Hin. by apply elem_of_nil in Hin. }
  split.
  - apply (Hgen _ (seedCard WOMEN_BOARD_ID now (imageKeyMap failed) 0
                     (CastMember.mk "si5-park-hee-sun" "Park Hee Sun" ""
                        CastMember.female))); [|done].
    apply elem_of_app. left. by left.
  - apply (Hgen _ (seedCard MEN_BOARD_ID now (imageKeyMap failed) 0
                     (CastMember.mk "si5-youn-hyun-jae" "Youn Hyun Jae" ""
                        CastMember.male))); [|done].
    apply elem_of_app. right. by left.
Qed.

(** X26. The history of a fresh load. On a store that lacks one of the
    two boards, keeps its cards under their ids and has no snapshot of
    either board, loadSinglesInfernoS5 followed by
    loadSinglesInfernoS5Snapshots creates ten snapshots without error:
    for each of the five episodes one per board, under the id
    snapshot-women-epN or snapshot-men-epN, with episode number N, which
    ranks every cast member of the board exactly once, by id and name,
    with the ranks 1..6 or 1..7 in order, and which is dated 5 - (N - 1)
    weeks before the reading of the clock in its round. *)
Theorem seeded_history_complete
    (now : Z) (failed : gset string) (clock : nat → Z) (st : Store) :
  needsLoad st → keyedById st → noHistory st →
  let st1 := loadSinglesInfernoS5 now failed st in
  let '(r, st2) := loadSinglesInfernoS5Snapshots clock st1 in
  r = mkLoadSnapshotsResult true 10 [] ∧
  ∀ ep, ep < 5 →
    (∃ s, getSnapshot ("snapshot-women-ep" +:+ pretty (ep + 1)) st2 = Some s ∧
          Snapshot.boardId s = WOMEN_BOARD_ID ∧
          Snapshot.episodeNumber s = ep + 1 ∧
          ranksAll women s ∧
          Snapshot.createdAt s =
            (clock ep - Z.of_nat (5 - ep) * WEEK_MS)%Z) ∧
    (∃ s, getSnapshot ("snapshot-men-ep" +:+ pretty (ep + 1)) st2 = Some s ∧
          Snapshot.boardId s = MEN_BOARD_ID ∧
          Snapshot.episodeNumber s = ep + 1 ∧
          ranksAll men s ∧
          Snapshot.createdAt s =
            (clock (5 + ep)%nat - Z.of_nat (5 - ep) * WEEK_MS)%Z).
Proof.
  intros Hn Hkeyed [Hhw Hhm] st1.
  destruct (loaded_has_cards now failed st Hn Hkeyed) as [Hcw Hcm].
  fold st1 in Hcw, Hcm.
  assert (Hh1 : noHistory st1).
  { unfold noHistory, getSnapshotsByBoard, st1.
    rewrite load_snapshots. by split. }
  rewrite loadSnapshots_runs
    by (try done; apply loaded_needs_nothing).
  split; [done|].
  destruct (order_ids_seeded now failed) as [HidsW HidsM].
  rewrite (episodesOf_ext "women" _ _ (cardMapOf (seedCards now failed)))
    by (intros order cardId; by apply seeded_lookup_agrees).
  rewrite (episodesOf_ext "men" _ _ (cardMapOf (seedCards now failed)))
    by (intros order cardId; by apply seeded_lookup_agrees).
  set (ss := _ ++ _).
  assert (Hnd : NoDup (Snapshot.id <$> ss)) by apply episode_ids_NoDup.
  destruct (seeded_orders_rank_all now failed) as [HallW HallM].
  rewrite Forall_lookup in HallW, HallM.
  intros ep Hep. split.
  - destruct (lookup_lt_is_Some_2 WOMEN_RANKINGS_BY_EPISODE ep) as [order Ho];
      [simpl; lia|].
    set (s := episodeSnapshot "women" WOMEN_BOARD_ID
                (cardMapOf (seedCards now failed)) 5 (clock ep) ep order).
    assert (Hin : s ∈ ss).
    { apply elem_of_app. left. apply elem_of_lookup_imap.
      by exists ep, order. }
    exists s. split; [exact (saveSnapshots_saved ss st1 s Hnd Hin)|].
    split; [done|]. split; [done|]. split; [|done].
    apply (HallW ep order Ho).
  - destruct (lookup_lt_is_Some_2 MEN_RANKINGS_BY_EPISODE ep) as [order Ho];
      [simpl; lia|].
    set (s := episodeSnapshot "men" MEN_BOARD_ID
                (cardMapOf (seedCards now failed)) 5 (clock (5 + ep)) ep order).
    assert (Hin : s ∈ ss).
    { apply elem_of_app. right. apply elem_of_lookup_imap.
      by exists ep, order. }
    exists s. split; [exact (saveSnapshots_saved ss st1 s Hnd Hin)|].
    split; [done|]. split; [done|]. split; [|done].
    apply (HallM ep order Ho).
Qed.

Lemma seeded_history_complete_witness :
  (loadSinglesInfernoS5Snapshots (λ ep, 5000000000 + Z.of_nat ep)%Z
     (loadSinglesInfernoS5 2000 {[ "si5-kim-go-eun" ]} ownBoard)).1 =
    mkLoadSnapshotsResult true 10 [].
Proof.
  pose proof (seeded_history_complete 2000 {[ "si5-kim-go-eun" ]}
                (λ ep, 5000000000 + Z.of_nat ep)%Z ownBoard) as H.
  cbn zeta in H.
  destruct (loadSinglesInfernoS5Snapshots _ _) as [r st2].
  apply H; apply (bool_decide_unpack _); vm_compute; exact I.
Defined.

End SeedHistoryFacts.

(** ** The friend request limit over the friendships *)

Section QuotaFacts.
Import Js FirestoreFriendships FriendshipQueries FriendRequestQuota.

Implicit Types (w : World Friendships) (d : Friendships) (f : Friendship)
  (uid : string).

Lemma documents_insert d k f :
  d !! k = None → documents (<[k := f]> d) ≡ₚ f :: documents d.
Proof.
  intros Hk. unfold documents. rewrite !merge_sort_Permutation.
  by rewrite map_to_list_insert.
Qed.

Lemma documents_delete d k f :
  d !! k = Some f → documents d ≡ₚ f :: documents (delete k d).
Proof.
  intros Hk. rewrite <- (insert_delete_id d k f Hk) at 1.
  apply documents_insert, lookup_delete_eq.
Qed.

Lemma matching_Permutation {A} (p : A → bool) (l k : list A) :
  l ≡ₚ k → length (List.filter p l) = length (List.filter p k).
Proof.
  induction 1 as [|x l k _ IH|x y l|l k m _ IH1 _ IH2]; cbn [List.filter].
  - done.
  - destruct (p x); cbn [length]; by rewrite IH.
  - by destruct (p x), (p y).
  - by rewrite IH1.
Qed.

Lemma matches_docOf uid (since : Z) f :
  RateLimiting.matches uid "requestedBy" since (docOf f) =
    bool_decide (requestedBy f = uid) && bool_decide (since ≤ createdAt f)%Z.
Proof.
  unfold RateLimiting.matches, docOf.
  cbn [RateLimiting.fields RateLimiting.createdAt].
  rewrite !lookup_insert_ne by done. rewrite lookup_singleton_eq.
  f_equal. apply bool_decide_ext. split; [by intros [= ->]|by intros ->].
Qed.

Lemma sent_counted uid w :
  sent uid w =
    Z.of_nat (counted uid (clock w - RateLimiting.ONE_DAY_MS)
                (documents (db w))).
Proof.
  unfold sent, RateLimiting.recent, RateLimiting.runQuery, limiterView, counted.
  cbn [db clock]. rewrite lookup_singleton_eq.
  cbn [default from_option Datatypes.id].
  change (RateLimiting.windowMs
            (RateLimiting.friendRequests RateLimiting.RATE_LIMITS))
    with RateLimiting.ONE_DAY_MS.
  f_equal. induction (documents (db w)) as [|f l IH]; [done|].
  rewrite fmap_cons. cbn [List.filter]. rewrite matches_docOf.
  destruct (_ && _); cbn [length]; by rewrite IH.
Qed.

Lemma counted_Permutation uid since (l k : list Friendship) :
  l ≡ₚ k → counted uid since l = counted uid since k.
Proof. apply matching_Permutation. Qed.

Lemma counted_cons uid since f (l : list Friendship) :
  counted uid since (f :: l) =
    (if decide (requestedBy f = uid ∧ (since ≤ createdAt f)%Z) then 1 else 0)
    + counted uid since l.
Proof.
  unfold counted. cbn [List.filter].
  destruct (decide (requestedBy f = uid ∧ (since ≤ createdAt f)%Z))
    as [[Hu Ht]|Hno].
  - by rewrite !bool_decide_eq_true_2.
  - destruct (bool_decide (requestedBy f = uid)) eqn:E1; [|done].
    destruct (bool_decide (since ≤ createdAt f)%Z) eqn:E2; [|done].
    apply bool_decide_eq_true in E1, E2. tauto.
Qed.

Lemma counted_insert uid since d k f :
  d !! k = None →
  counted uid since (documents (<[k := f]> d)) =
    (if decide (requestedBy f = uid ∧ (since ≤ createdAt f)%Z) then 1 else 0)
    + counted uid since (documents d).
Proof.
  intros Hk. rewrite (counted_Permutation _ _ _ _ (documents_insert d k f Hk)).
  apply counted_cons.
Qed.

Lemma counted_delete uid since d k f :
  d !! k = Some f →
  counted uid since (documents d) =
    (if decide (requestedBy f = uid ∧ (since ≤ createdAt f)%Z) then 1 else 0)
    + counted uid since (documents (delete k d)).
Proof.
  intros Hk. rewrite (counted_Permutation _ _ _ _ (documents_delete d k f Hk)).
  apply counted_cons.
Qed.

(** X29. The friend request limit counts the requests that are still
    stored. After a request of [fromUid] to [toUid] went through (mock
    off, no document of the pair before), at the same reading of the
    clock: the number checkFriendRequestLimit counts for the sender is one
    more and the number for the addressee is unchanged; after the
    addressee accepts, the request still counts for the sender; after
    either of the two declines it, or it is removed by unfriend, it no
    longer counts: the sender's number is what it was before the
    request. *)
Theorem friend_request_quota (fromUid toUid : string) (w : World Friendships) :
  fromUid ≠ toUid → quiet 4 w →
  db w !! generateFriendshipId fromUid toUid = None →
  let friendshipId := generateFriendshipId fromUid toUid in
  let requested := (createFriendRequest false fromUid toUid w).2 in
  ∀ w1, db w1 = db requested → clock w1 = clock w → quiet 4 w1 →
    sent fromUid w1 = (sent fromUid w + 1)%Z ∧
    sent toUid w1 = sent toUid w ∧
    (∀ w2, db w2 = db (acceptFriendRequest false friendshipId toUid w1).2 →
           clock w2 = clock w →
           sent fromUid w2 = (sent fromUid w + 1)%Z) ∧
    (∀ decliningUid w2,
       decliningUid = fromUid ∨ decliningUid = toUid →
       db w2 =
         db (declineFriendRequest false friendshipId decliningUid w1).2 →
       clock w2 = clock w →
       sent fromUid w2 = sent fromUid w) ∧
    (∀ w2, db w2 = db (unfriend false toUid fromUid w1).2 →
           clock w2 = clock w →
           sent fromUid w2 = sent fromUid w).
Proof.
  intros Hne Hq Hnone friendshipId requested w1 Hdb1 Hc1 Hq1.
  set (request := pendingRequest fromUid toUid (clock w)).
  assert (Hreq : db requested = <[friendshipId := request]> (db w)).
  { subst requested. rewrite createFriendRequest_quiet by done.
    cbn zeta. by rewrite Hnone. }
  assert (Hday : (0 < RateLimiting.ONE_DAY_MS)%Z) by done.
  assert (Hin : includes (users request) fromUid = true ∧
                includes (users request) toUid = true).
  { subst request. unfold pendingRequest. cbn [users].
    split; apply includes_sorted; auto. }
  assert (Hmine : ∀ l, counted fromUid (clock w - RateLimiting.ONE_DAY_MS)
                         (request :: l) =
                       S (counted fromUid (clock w - RateLimiting.ONE_DAY_MS) l)).
  { intros l. rewrite counted_cons. rewrite decide_True; [done|].
    split; [done|]. subst request. cbn. lia. }
  assert (Hw1 : db w1 !! friendshipId = Some request)
    by (by rewrite Hdb1, Hreq, lookup_insert_eq).
  split_and!.
  - rewrite !sent_counted, Hc1, Hdb1, Hreq.
    rewrite (counted_Permutation _ _ _ _ (documents_insert _ _ request Hnone)).
    rewrite Hmine. lia.
  - rewrite !sent_counted, Hc1, Hdb1, Hreq.
    rewrite counted_insert by done. rewrite decide_False; [done|].
    intros [Hby _]. subst request. cbn in Hby. done.
  - intros w2 Hdb2 Hc2. rewrite !sent_counted, Hc2, Hdb2.
    rewrite acceptFriendRequest_quiet by done. rewrite Hw1.
    rewrite decide_False by (subst request; cbn; done).
    destruct Hin as [_ ->]. cbn [negb snd db after].
    rewrite Hdb1, Hreq, insert_insert_eq.
    rewrite (counted_Permutation _ _ _ _
               (documents_insert _ _ (activate (clock w1) request) Hnone)).
    rewrite counted_cons, decide_True; [lia|].
    split; [done|]. subst request. cbn. lia.
  - intros decliningUid w2 Hwho Hdb2 Hc2. rewrite !sent_counted, Hc2, Hdb2.
    rewrite (declineFriendRequest_deletes _ _ request) by
      (try done; destruct Hwho as [-> | ->]; by destruct Hin).
    cbn [snd db after]. rewrite Hdb1, Hreq, delete_insert_eq.
    by rewrite delete_id.
  - intros w2 Hdb2 Hc2. rewrite !sent_counted, Hc2, Hdb2.
    rewrite unfriend_quiet by (by apply (quiet_le 4 3); [lia|]).
    cbn [snd db after].
    replace (generateFriendshipId toUid fromUid) with friendshipId
      by (subst friendshipId; unfold generateFriendshipId;
          by rewrite sortUserIds_comm).
    rewrite Hdb1, Hreq, delete_insert_eq. by rewrite delete_id.
Qed.

Lemma friend_request_quota_witness :
  sent "u1" (createFriendRequest false "u1" "u3" Worlds.requested).2 =
    (sent "u1" Worlds.requested + 1)%Z.
Proof.
  refine (proj1 (friend_request_quota "u1" "u3" Worlds.requested _ _ _
                   _ eq_refl eq_refl _)).
  - discriminate.
  - apply (bool_decide_unpack _). vm_compute. exact I.
  - vm_compute. reflexivity.
  - apply (bool_decide_unpack _). vm_compute. exact I.
Defined.

End QuotaFacts.

(** ** The device token *)

Section DeviceTokenFacts.
Import DeviceToken.

(** X30. The device token is made once. Whatever localStorage holds, a
    call of getDeviceToken with a non-empty UUID at hand returns a
    non-empty token and leaves it stored; every later call returns that
    same token and writes nothing, whatever UUID it could draw;
    hasDeviceToken is true from then on; no other item is touched; a
    non-empty token found in the store is returned as it is. An empty
    string found in the store is replaced by a new token, although
    hasDeviceToken answers true for it. *)
Theorem device_token_is_stable (uuid uuid' : string) (ls : LocalStorage) :
  uuid ≠ "" →
  let '(token, ls1) := getDeviceToken uuid ls in
  let '(token', ls2) := getDeviceToken uuid' ls1 in
  token ≠ "" ∧ token' = token ∧ ls2 = ls1 ∧
  getItem DEVICE_TOKEN_KEY ls1 = Some token ∧ hasDeviceToken ls1 = true ∧
  (∀ key, key ≠ DEVICE_TOKEN_KEY → getItem key ls1 = getItem key ls) ∧
  (∀ existing, getItem DEVICE_TOKEN_KEY ls = Some existing →
     if decide (existing = "")
     then hasDeviceToken ls = true ∧ token = uuid
     else token = existing ∧ ls1 = ls).
Proof.
  intros Hu. unfold getDeviceToken at 1.
  assert (Hnew :
    let ls1 := setItem DEVICE_TOKEN_KEY uuid ls in
    let '(token', ls2) := getDeviceToken uuid' ls1 in
    uuid ≠ "" ∧ token' = uuid ∧ ls2 = ls1 ∧
    getItem DEVICE_TOKEN_KEY ls1 = Some uuid ∧ hasDeviceToken ls1 = true ∧
    (∀ key, key ≠ DEVICE_TOKEN_KEY → getItem key ls1 = getItem key ls)).
  { unfold getDeviceToken, hasDeviceToken, getItem, setItem.
    rewrite lookup_insert_eq, decide_False by done.
    split_and!; try done.
    intros key Hkey. by rewrite lookup_insert_ne. }
  destruct (getItem DEVICE_TOKEN_KEY ls) as [existing|] eqn:Hex.
  - destruct (decide (existing = "")) as [->|Hne].
    + cbn zeta in Hnew.
      destruct (getDeviceToken uuid' (setItem DEVICE_TOKEN_KEY uuid ls))
        as [token' ls2].
      destruct Hnew as (? & ? & ? & ? & ? & ?). split_and!; try done.
      intros existing [= <-]. rewrite decide_True by done.
      split; [|done]. unfold hasDeviceToken. by rewrite Hex.
    + unfold getDeviceToken. rewrite Hex, decide_False by done.
      split_and!; try done.
      * unfold hasDeviceToken. by rewrite Hex.
      * intros existing' [= <-]. by rewrite decide_False.
  - cbn zeta in Hnew.
    destruct (getDeviceToken uuid' (setItem DEVICE_TOKEN_KEY uuid ls))
      as [token' ls2].
    destruct Hnew as (? & ? & ? & ? & ? & ?). split_and!; done.
Qed.

Lemma device_token_is_stable_witness :
  let '(token, ls1) :=
    getDeviceToken "3f2b6c1e-8d4a-4c7b-9e21-5a6f0b7c8d9e"
      {[ DEVICE_TOKEN_KEY := ""; "theme" := "dark" ]} in
  let '(token', ls2) :=
    getDeviceToken "00000000-0000-4000-8000-000000000000" ls1 in
  token ≠ "" ∧ token' = token ∧ ls2 = ls1 ∧
  getItem DEVICE_TOKEN_KEY ls1 = Some token ∧ hasDeviceToken ls1 = true ∧
  (∀ key, key ≠ DEVICE_TOKEN_KEY →
     getItem key ls1 =
       getItem key {[ DEVICE_TOKEN_KEY := ""; "theme" := "dark" ]}) ∧
  (∀ existing,
     getItem DEVICE_TOKEN_KEY {[ DEVICE_TOKEN_KEY := ""; "theme" := "dark" ]}
       = Some existing →
     if decide (existing = "")
     then hasDeviceToken {[ DEVICE_TOKEN_KEY := ""; "theme" := "dark" ]} = true ∧
          token = "3f2b6c1e-8d4a-4c7b-9e21-5a6f0b7c8d9e"
     else token = existing ∧
          ls1 = {[ DEVICE_TOKEN_KEY := ""; "theme" := "dark" ]}).
Proof.
  apply (device_token_is_stable "3f2b6c1e-8d4a-4c7b-9e21-5a6f0b7c8d9e"
           "00000000-0000-4000-8000-000000000000"
           {[ DEVICE_TOKEN_KEY := ""; "theme" := "dark" ]}).
  discriminate.
Defined.

End DeviceTokenFacts.
